(** * paraping: the native ICMP echo helper (src/native/ping_helper.c)

    A shallow embedding of [checksum] and of [main]: the echo request that is
    built, the absolute deadline, the receive loop with its length checks and
    its matching rules, and the system calls issued on every path.  The
    earlier form of the helper (src/ping_helper.c) is embedded beside it, up
    to the end of its receive loop, and the two are compared. *)

From Stdlib Require Import String ZArith List Bool Lia ZifyBool.
From Stdlib Require Import Init.Byte.
Import ListNotations.
Open Scope Z_scope.

(** ** Machine integers *)

Module Int.

(** [unsigned int] arithmetic wraps modulo 2^32, [unsigned short] modulo 2^16. *)
Definition wrap32 (x : Z) : Z := x mod 4294967296.
Definition wrap16 (x : Z) : Z := x mod 65536.

(** An [unsigned char] read from memory, as a number. *)
Definition u8 (b : byte) : Z := Z.of_N (Byte.to_N b).

(** An [unsigned char] written to memory: the low eight bits. *)
Definition to_byte (x : Z) : byte :=
  match Byte.of_N (Z.to_N (x mod 256)) with
  | Some b => b
  | None => x00
  end.

(** Byte order of the host: it decides how a 16-bit object is laid out. *)
Inductive endian : Type := LittleEndian | BigEndian.

(** A 16-bit load through an [unsigned short] pointer at the bytes [b0; b1]. *)
Definition load16 (e : endian) (b0 b1 : byte) : Z :=
  match e with
  | LittleEndian => Z.lor (u8 b0) (Z.shiftl (u8 b1) 8)
  | BigEndian => Z.lor (Z.shiftl (u8 b0) 8) (u8 b1)
  end.

(** The two bytes an [unsigned short] [v] occupies in memory. *)
Definition store16 (e : endian) (v : Z) : byte * byte :=
  match e with
  | LittleEndian => (to_byte v, to_byte (Z.shiftr v 8))
  | BigEndian => (to_byte (Z.shiftr v 8), to_byte v)
  end.

(** Swap the two bytes of a 16-bit value. *)
Definition bswap16 (v : Z) : Z :=
  Z.lor (Z.shiftl (Z.land v 255) 8) (Z.land (Z.shiftr v 8) 255).

(** [htons] and [ntohs]: the identity on a big-endian host. *)
Definition htons (e : endian) (v : Z) : Z :=
  match e with
  | LittleEndian => bswap16 v
  | BigEndian => wrap16 v
  end.

Definition ntohs (e : endian) (v : Z) : Z := htons e v.

End Int.

Import Int.

(** ** checksum (lines 34-49) *)

Definition PACKET_SIZE : Z := 64.
Definition ICMP_HEADER_SIZE : Z := 8.

(** The loop of lines 39-41 followed by the odd-length branch of lines 42-44:
    [sum] is the accumulator, the list is what is left of the buffer
    ([len] is its length). *)
Fixpoint checksum_sum (e : endian) (buf : list byte) (sum : Z) : Z :=
  match buf with
  | b0 :: b1 :: rest => checksum_sum e rest (wrap32 (sum + load16 e b0 b1))
  | [b] => wrap32 (sum + Z.shiftl (u8 b) 8)
  | [] => sum
  end.

(** Lines 45-47: fold the carries twice, complement, truncate to
    [unsigned short]. *)
Definition checksum_fold (sum : Z) : Z :=
  let sum1 := wrap32 (Z.shiftr sum 16 + Z.land sum 65535) in
  let sum2 := wrap32 (sum1 + Z.shiftr sum1 16) in
  wrap16 (wrap32 (Z.lnot sum2)).

Definition checksum (e : endian) (buf : list byte) : Z :=
  checksum_fold (checksum_sum e buf 0).

(** ** The echo request (lines 145-155) *)

Definition ICMP_ECHO : Z := 8.
Definition ICMP_ECHOREPLY : Z := 0.
Definition IPPROTO_ICMP : Z := 1.

(** Overwrite the two bytes at offset [off] with the [unsigned short] [v]. *)
Definition poke16 (e : endian) (off : nat) (v : Z) (buf : list byte) : list byte :=
  let '(b0, b1) := store16 e v in
  firstn off buf ++ b0 :: b1 :: skipn (off + 2) buf.

Definition poke8 (off : nat) (v : Z) (buf : list byte) : list byte :=
  firstn off buf ++ to_byte v :: skipn (off + 1) buf.

(** [icmp_cksum] is the 16-bit field at offset 2 of [struct icmp]. *)
Definition set_icmp_cksum (e : endian) (v : Z) (buf : list byte) : list byte :=
  poke16 e 2 v buf.

(** The packet after line 153: zeroed, then type, code, id and seq. *)
Definition echo_request_fields (e : endian) (pid seq : Z) : list byte :=
  let packet := repeat x00 (Z.to_nat PACKET_SIZE) in
  let packet := poke8 0 ICMP_ECHO packet in
  let packet := poke8 1 0 packet in
  let packet := poke16 e 4 (htons e (Z.land pid 65535)) packet in
  poke16 e 6 (htons e seq) packet.

(** Lines 154-155: the checksum field is cleared, the checksum of the whole
    packet is computed and written into the field. *)
Definition echo_request (e : endian) (pid seq : Z) : list byte :=
  let packet := set_icmp_cksum e 0 (echo_request_fields e pid seq) in
  set_icmp_cksum e (checksum e packet) packet.

(** ** Time (struct timeval) *)

(** The two fields are 64-bit [long]s on the hosts the helper is built
    for; the sums and differences of clock values and of a timeout of at
    most 60000 ms stay far inside that range, so they are taken here as
    integers. *)
Record timeval : Type := { tv_sec : Z; tv_usec : Z }.

(** Lines 172-178.  C division and remainder truncate: [Z.quot], [Z.rem]. *)
Definition compute_deadline (start_time : timeval) (timeout_ms : Z) : timeval :=
  let sec := tv_sec start_time + Z.quot timeout_ms 1000 in
  let usec := tv_usec start_time + Z.rem timeout_ms 1000 * 1000 in
  if 1000000 <=? usec
  then {| tv_sec := sec + 1; tv_usec := usec - 1000000 |}
  else {| tv_sec := sec; tv_usec := usec |}.

(** Lines 192-199: [remaining], with the borrow from the seconds. *)
Definition time_remaining (deadline now : timeval) : timeval :=
  let sec := tv_sec deadline - tv_sec now in
  let usec := tv_usec deadline - tv_usec now in
  if usec <? 0
  then {| tv_sec := sec - 1; tv_usec := usec + 1000000 |}
  else {| tv_sec := sec; tv_usec := usec |}.

(** The test of line 202. *)
Definition expired (remaining : timeval) : bool :=
  (tv_sec remaining <? 0)
  || ((tv_sec remaining =? 0) && (tv_usec remaining <=? 0)).

(** A point in time or a duration in microseconds. *)
Definition usec_of (t : timeval) : Z := tv_sec t * 1000000 + tv_usec t.

(** What [gettimeofday] returns: the microseconds are normalised. *)
Definition timeval_ok (t : timeval) : Prop := 0 <= tv_usec t < 1000000.

Definition timeval_okb (t : timeval) : bool :=
  (0 <=? tv_usec t) && (tv_usec t <? 1000000).

(** ** What the process does: events, control flow *)

(** The [return] statements of [main], by source line. *)
Inductive exit_site : Type :=
| AtUsage              (* line 54 *)
| AtTimeoutNotInteger  (* line 64 *)
| AtTimeoutRange       (* line 68 *)
| AtTimeoutNotPositive (* line 72 *)
| AtTimeoutTooLarge    (* line 76 *)
| AtSeqNotInteger      (* line 89 *)
| AtSeqRange           (* line 93 *)
| AtResolve            (* line 108 *)
| AtSocket             (* line 117 *)
| AtConnect            (* line 127 *)
| AtSendto             (* line 168 *)
| AtDeadlinePassed     (* line 206 *)
| AtSelectError        (* line 219 *)
| AtSelectTimeout      (* line 226 *)
| AtRecvfrom           (* line 240 *)
| AtSuccess.           (* line 324 *)

(** The [continue] statements of the receive loop, by source line. *)
Inductive skip : Type :=
| SkipShortIp    (* line 246 *)
| SkipIpHeaderLen (* line 256 *)
| SkipIpVersion  (* line 262 *)
| SkipProtocol   (* line 268 *)
| SkipShortIcmp  (* line 274 *)
| SkipType       (* line 282 *)
| SkipCode       (* line 288 *)
| SkipId         (* line 294 *)
| SkipSeq        (* line 300 *)
| SkipSource.    (* line 306 *)

(** Calls and memory reads, in the order the process makes them.  The
    events of the clock carry the time: [Gettimeofday t] is a reading [t],
    [Select timeout result woke] is a wait armed with [timeout] that gave
    [result] and handed control back at time [woke]. *)
Inductive event : Type :=
| Stderr (msg : string)
| Getaddrinfo (status : Z)
| Socket (fd : Z)
| Connect (fd : Z)
| Setsockopt (fd : Z)
| Gettimeofday (t : timeval)
| Sendto (fd : Z) (packet : list byte)
| Select (fd : Z) (timeout : timeval) (result : Z) (woke : timeval)
| Recvfrom (fd : Z) (len : Z)
| Load (off : Z)
| Close (fd : Z)
| Freeaddrinfo
| Printf (rtt_usec : Z) (ttl : Z).

(** How a piece of code ends. *)
Inductive flow (A : Type) : Type :=
| Next (a : A)                          (* falls through with a value *)
| Continue (why : skip)                 (* [continue] *)
| Break (end_time : timeval) (reply_ttl : Z)  (* [break], with the two
                                           variables set just before it *)
| Return (site : exit_site) (code : Z)  (* [return code] *)
| Fault (off : Z)                       (* a read outside the datagram *)
| Pending.                              (* no further input: still waiting *)

Arguments Next {A} a.
Arguments Continue {A} why.
Arguments Break {A} end_time reply_ttl.
Arguments Return {A} site code.
Arguments Fault {A} off.
Arguments Pending {A}.

(** A piece of code: how it ends and the events it produced. *)
Definition prog (A : Type) : Type := flow A * list event.

Definition ret {A} (a : A) : prog A := (Next a, []).

Definition bind {A B} (m : prog A) (k : A -> prog B) : prog B :=
  match m with
  | (Next a, evs) => let '(f, evs') := k a in (f, evs ++ evs')
  | (Continue why, evs) => (Continue why, evs)
  | (Break t ttl, evs) => (Break t ttl, evs)
  | (Return site code, evs) => (Return site code, evs)
  | (Fault off, evs) => (Fault off, evs)
  | (Pending, evs) => (Pending, evs)
  end.

Notation "x <- m ;; k" := (bind m (fun x => k))
  (at level 61, m at next level, right associativity).
Notation "m ;; k" := (bind m (fun _ => k))
  (at level 61, right associativity).

Definition emit (ev : event) : prog unit := (Next tt, [ev]).
Definition continue_ (why : skip) : prog unit := (Continue why, []).
Definition break_ (end_time : timeval) (reply_ttl : Z) : prog unit :=
  (Break end_time reply_ttl, []).
Definition return_ (site : exit_site) (code : Z) : prog unit :=
  (Return site code, []).

(** [if (c) { body }] where [body] leaves the enclosing code. *)
Definition when (c : bool) (body : prog unit) : prog unit :=
  if c then body else ret tt.

Definition outcome {A} (p : prog A) : flow A := fst p.
Definition trace {A} (p : prog A) : list event := snd p.

(** ** The environment *)

(** What [strtol] reports for an argument string. *)
Record strtol_result : Type := {
  value : Z;              (* the number read *)
  endptr_at_start : bool; (* endptr == arg: no digits *)
  endptr_at_nul : bool;   (* *endptr == 0: nothing after the number *)
  erange : bool           (* errno == ERANGE *)
}.

(** One pass through the receive loop, as the system answers it. *)
Record iteration : Type := {
  now : timeval;                 (* gettimeofday, line 190 *)
  select_result : Z;             (* select, line 214 *)
  woke : timeval;                (* the time at which select came back *)
  received : option (list byte); (* recvfrom: the datagram, or an error *)
  recv_addr : Z;                 (* recv_addr.sin_addr.s_addr *)
  end_time : timeval             (* gettimeofday, line 310 *)
}.

Record world : Type := {
  host_order : endian;
  argc : Z;
  timeout_arg : strtol_result;    (* strtol(argv[2]) *)
  seq_arg : strtol_result;        (* strtol(argv[3]) *)
  getaddrinfo_status : Z;
  dest_addr : Z;                  (* the resolved sin_addr.s_addr *)
  socket_result : Z;              (* socket() *)
  connect_result : Z;
  rcvbuf_result : Z;              (* setsockopt(SO_RCVBUF) *)
  icmp_filter_result : option Z;  (* setsockopt(ICMP_FILTER), when the
                                     macro is defined *)
  pid : Z;                        (* getpid() *)
  start_time : timeval;           (* gettimeofday, line 159 *)
  sendto_result : Z;
  arrivals : list iteration
}.

(** ** The receive loop (lines 187-313) *)

(** The local variables the loop reads. *)
Record session : Type := {
  host : endian;
  sockfd : Z;
  deadline : timeval;
  expected_id : Z;
  expected_seq : Z;
  expected_addr : Z
}.

Definition gettimeofday (t : timeval) : prog timeval := (Next t, [Gettimeofday t]).

Definition select (fd : Z) (timeout : timeval) (it : iteration) : prog Z :=
  (Next (select_result it), [Select fd timeout (select_result it) (woke it)]).

(** [recvfrom] gives the length of the datagram, or a negative number. *)
Definition recvfrom (fd : Z) (it : iteration) : prog (Z * list byte) :=
  match received it with
  | Some datagram =>
      let recv_len := Z.of_nat (length datagram) in
      (Next (recv_len, datagram), [Recvfrom fd recv_len])
  | None => (Next (-1, []), [Recvfrom fd (-1)])
  end.

(** Read the byte at offset [off] of what was received. *)
Definition load8 (recv_buf : list byte) (off : Z) : prog Z :=
  if off <? 0 then (Fault off, [])
  else match nth_error recv_buf (Z.to_nat off) with
       | Some b => (Next (u8 b), [Load off])
       | None => (Fault off, [])
       end.

(** A 16-bit field of the received packet, as the host reads it. *)
Definition load16_at (e : endian) (recv_buf : list byte) (off : Z) : prog Z :=
  if off <? 0 then (Fault off, [])
  else match nth_error recv_buf (Z.to_nat off),
             nth_error recv_buf (Z.to_nat (off + 1)) with
       | Some b0, Some b1 => (Next (load16 e b0 b1), [Load off; Load (off + 1)])
       | None, _ => (Fault off, [])
       | _, None => (Fault (off + 1), [])
       end.

(** The three ways out that release their resources first. *)
Definition leave (s : session) (site : exit_site) (code : Z) : prog unit :=
  emit (Close (sockfd s)) ;; emit Freeaddrinfo ;; return_ site code.

(** Lines 188-241: compute the remaining time, wait, receive. *)
Definition wait_and_receive (s : session) (it : iteration)
  : prog (Z * list byte) :=
  now <- gettimeofday (now it) ;;
  let remaining := time_remaining (deadline s) now in
  when (expired remaining) (leave s AtDeadlinePassed 7) ;;
  select_result <- select (sockfd s) remaining it ;;
  when (select_result <? 0)
    (emit (Stderr "Error: select failed") ;; leave s AtSelectError 6) ;;
  when (select_result =? 0) (leave s AtSelectTimeout 7) ;;
  r <- recvfrom (sockfd s) it ;;
  when (fst r <? 0)
    (emit (Stderr "Error: recvfrom failed") ;; leave s AtRecvfrom 8) ;;
  ret r.

(** Lines 243-275: the length checks and the checks of the IP header.
    Falls through with [ip_header_len] when the ICMP header is there. *)
Definition locate_icmp (recv_len : Z) (recv_buf : list byte) : prog Z :=
  when (recv_len <? 20) (continue_ SkipShortIp) ;;
  vhl <- load8 recv_buf 0 ;;
  let ip_hl := Z.land vhl 15 in
  let ip_v := Z.shiftr vhl 4 in
  let ip_header_len := ip_hl * 4 in
  when ((ip_header_len <? 20) || (60 <? ip_header_len))
    (continue_ SkipIpHeaderLen) ;;
  when (negb (ip_v =? 4)) (continue_ SkipIpVersion) ;;
  ip_p <- load8 recv_buf 9 ;;
  when (negb (ip_p =? IPPROTO_ICMP)) (continue_ SkipProtocol) ;;
  when (recv_len <? ip_header_len + ICMP_HEADER_SIZE)
    (continue_ SkipShortIcmp) ;;
  ret ip_header_len.

(** Lines 277-312: the ICMP header at [recv_buf + ip_header_len] against
    the expected values; on a match the end time and the TTL are taken. *)
Definition match_reply (s : session) (recv_buf : list byte)
  (ip_header_len : Z) (from : Z) (end_time : timeval) : prog unit :=
  icmp_type <- load8 recv_buf ip_header_len ;;
  when (negb (icmp_type =? ICMP_ECHOREPLY)) (continue_ SkipType) ;;
  icmp_code <- load8 recv_buf (ip_header_len + 1) ;;
  when (negb (icmp_code =? 0)) (continue_ SkipCode) ;;
  icmp_id <- load16_at (host s) recv_buf (ip_header_len + 4) ;;
  when (negb (ntohs (host s) icmp_id =? expected_id s)) (continue_ SkipId) ;;
  icmp_seq <- load16_at (host s) recv_buf (ip_header_len + 6) ;;
  when (negb (ntohs (host s) icmp_seq =? expected_seq s)) (continue_ SkipSeq) ;;
  when (negb (from =? expected_addr s)) (continue_ SkipSource) ;;
  end_time <- gettimeofday end_time ;;
  ip_ttl <- load8 recv_buf 8 ;;
  break_ end_time ip_ttl.

Definition inspect (s : session) (recv_len : Z) (recv_buf : list byte)
  (from : Z) (end_time : timeval) : prog unit :=
  ip_header_len <- locate_icmp recv_len recv_buf ;;
  match_reply s recv_buf ip_header_len from end_time.

Definition loop_body (s : session) (it : iteration) : prog unit :=
  r <- wait_and_receive s it ;;
  inspect s (fst r) (snd r) (recv_addr it) (end_time it).

(** [while (1)]: one iteration per answer of the system.  A [continue] goes
    round again, a [break] leaves with [end_time] and [reply_ttl]. *)
Fixpoint recv_loop (s : session) (its : list iteration) : prog (timeval * Z) :=
  match its with
  | [] => (Pending, [])
  | it :: rest =>
      match loop_body s it with
      | (Next _, evs) | (Continue _, evs) =>
          let '(f, evs') := recv_loop s rest in (f, evs ++ evs')
      | (Break t ttl, evs) => (Next (t, ttl), evs)
      | (Return site code, evs) => (Return site code, evs)
      | (Fault off, evs) => (Fault off, evs)
      | (Pending, evs) => (Pending, evs)
      end
  end.

(** ** main (lines 51-325) *)

Definition getaddrinfo (w : world) : prog Z :=
  (Next (getaddrinfo_status w), [Getaddrinfo (getaddrinfo_status w)]).

Definition socket (w : world) : prog Z :=
  (Next (socket_result w), [Socket (socket_result w)]).

Definition connect (fd : Z) (w : world) : prog Z :=
  (Next (connect_result w), [Connect fd]).

Definition setsockopt (fd : Z) (result : Z) : prog Z :=
  (Next result, [Setsockopt fd]).

Definition sendto (fd : Z) (packet : list byte) (w : world) : prog Z :=
  (Next (sendto_result w), [Sendto fd packet]).

(** Lines 81-96: the optional sequence number, 1 when absent. *)
Definition parse_icmp_seq (w : world) : prog Z :=
  if argc w =? 4 then
    let q := seq_arg w in
    when (endptr_at_start q || negb (endptr_at_nul q))
      (emit (Stderr "Error: icmp_seq must be an integer") ;;
       return_ AtSeqNotInteger 2) ;;
    when (erange q || (value q <? 0) || (65535 <? value q))
      (emit (Stderr "Error: icmp_seq must be between 0 and 65535") ;;
       return_ AtSeqRange 2) ;;
    ret (wrap16 (value q))
  else ret 1.

(** The round-trip time in microseconds; line 316 prints it in
    milliseconds with three decimals. *)
Definition rtt_usec_of (start_time end_time : timeval) : Z :=
  (tv_sec end_time - tv_sec start_time) * 1000000
  + (tv_usec end_time - tv_usec start_time).

Definition main (w : world) : prog unit :=
  when ((argc w <? 3) || (4 <? argc w))
    (emit (Stderr "Usage: <host> <timeout_ms> [icmp_seq]") ;;
     return_ AtUsage 1) ;;
  let t := timeout_arg w in
  when (endptr_at_start t || negb (endptr_at_nul t))
    (emit (Stderr "Error: timeout_ms must be an integer value") ;;
     return_ AtTimeoutNotInteger 2) ;;
  when (erange t)
    (emit (Stderr "Error: timeout_ms is out of range") ;;
     return_ AtTimeoutRange 2) ;;
  let timeout_value := value t in
  when (timeout_value <=? 0)
    (emit (Stderr "Error: timeout_ms must be positive") ;;
     return_ AtTimeoutNotPositive 2) ;;
  when (60000 <? timeout_value)
    (emit (Stderr "Error: timeout_ms must be 60000ms or less") ;;
     return_ AtTimeoutTooLarge 2) ;;
  let timeout_ms := timeout_value in
  icmp_seq_value <- parse_icmp_seq w ;;
  status <- getaddrinfo w ;;
  when (negb (status =? 0))
    (emit (Stderr "Error: cannot resolve host") ;;
     return_ AtResolve 3) ;;
  sockfd <- socket w ;;
  when (sockfd <? 0)
    (emit (Stderr "Error: cannot create raw socket") ;;
     emit (Stderr "Note: This program requires cap_net_raw capability or root privileges") ;;
     emit Freeaddrinfo ;;
     return_ AtSocket 4) ;;
  connected <- connect sockfd w ;;
  when (connected <? 0)
    (emit (Stderr "Error: connect failed") ;;
     emit (Close sockfd) ;;
     emit Freeaddrinfo ;;
     return_ AtConnect 4) ;;
  rcvbuf <- setsockopt sockfd (rcvbuf_result w) ;;
  when (rcvbuf <? 0) (emit (Stderr "Warning: setsockopt(SO_RCVBUF) failed")) ;;
  match icmp_filter_result w with
  | Some result =>
      filtered <- setsockopt sockfd result ;;
      when (filtered <? 0)
        (emit (Stderr "Warning: setsockopt(ICMP_FILTER) failed"))
  | None => ret tt
  end ;;
  let packet := echo_request (host_order w) (pid w) icmp_seq_value in
  start_time <- gettimeofday (start_time w) ;;
  sent <- sendto sockfd packet w ;;
  when (sent <? 0)
    (emit (Stderr "Error: sendto failed") ;;
     emit (Close sockfd) ;;
     emit Freeaddrinfo ;;
     return_ AtSendto 5) ;;
  let deadline := compute_deadline start_time timeout_ms in
  let s := {| host := host_order w;
              sockfd := sockfd;
              deadline := deadline;
              expected_id := wrap16 (Z.land (pid w) 65535);
              expected_seq := icmp_seq_value;
              expected_addr := dest_addr w |} in
  matched <- recv_loop s (arrivals w) ;;
  let '(end_time, reply_ttl) := matched in
  emit (Printf (rtt_usec_of start_time end_time) reply_ttl) ;;
  emit (Close sockfd) ;;
  emit Freeaddrinfo ;;
  return_ AtSuccess 0.

(** The session [main] runs the loop with, for a world whose arguments are
    accepted and whose socket is set up. *)
Definition session_of (w : world) : session :=
  {| host := host_order w;
     sockfd := socket_result w;
     deadline := compute_deadline (start_time w) (value (timeout_arg w));
     expected_id := wrap16 (Z.land (pid w) 65535);
     expected_seq := if argc w =? 4 then wrap16 (value (seq_arg w)) else 1;
     expected_addr := dest_addr w |}.

(** ** Notions used to state the properties *)

(** The sum of the words without the 32-bit wrap-around. *)
Fixpoint words_total (e : endian) (buf : list byte) : Z :=
  match buf with
  | b0 :: b1 :: rest => load16 e b0 b1 + words_total e rest
  | [b] => u8 b * 256
  | [] => 0
  end.

(** The end-around-carry residue of a 32-bit sum: 0 for 0, otherwise the
    representative of the sum modulo 65535 that lies in 1..65535. *)
Definition residue (s : Z) : Z :=
  if s =? 0 then 0 else (s - 1) mod 65535 + 1.


(** The reply parser as the specification words it (section 4.2): the
    header length is the low nibble of the first byte times 4, the version
    its high nibble, the protocol the byte at offset 9, the TTL the byte at
    offset 8; the ICMP header follows the IP header; identifier and
    sequence are big-endian on the wire. *)
Inductive Reject : Type :=
| ShortPacket | BadIpHeaderLength | WrongIpVersion | NotIcmp.

Record ParsedReply : Type := {
  reply_type : Z;
  reply_code : Z;
  reply_identifier : Z;
  reply_sequence : Z;
  reply_source : Z;
  reply_ttl : Z
}.

Definition byte_at (buffer : list byte) (i : Z) : Z :=
  u8 (nth (Z.to_nat i) buffer x00).

Definition header_length_of (buffer : list byte) : Z :=
  (byte_at buffer 0 mod 16) * 4.

Definition parse_reply (buffer : list byte) (declared_length : Z) (source : Z)
  : ParsedReply + Reject :=
  let header_length := header_length_of buffer in
  if declared_length <? 20 then inr ShortPacket
  else if (header_length <? 20) || (60 <? header_length)
  then inr BadIpHeaderLength
  else if negb (byte_at buffer 0 / 16 =? 4) then inr WrongIpVersion
  else if negb (byte_at buffer 9 =? 1) then inr NotIcmp
  else if declared_length <? header_length + 8 then inr ShortPacket
  else inl {| reply_type := byte_at buffer header_length;
              reply_code := byte_at buffer (header_length + 1);
              reply_identifier :=
                byte_at buffer (header_length + 4) * 256
                + byte_at buffer (header_length + 5);
              reply_sequence :=
                byte_at buffer (header_length + 6) * 256
                + byte_at buffer (header_length + 7);
              reply_source := source;
              reply_ttl := byte_at buffer 8 |}.

(** The five conditions of a matching reply (section 4.4). *)
Definition matches (s : session) (p : ParsedReply) : Prop :=
  reply_type p = ICMP_ECHOREPLY
  /\ reply_code p = 0
  /\ reply_identifier p = expected_id s
  /\ reply_sequence p = expected_seq s
  /\ reply_source p = expected_addr s.

(** Which rejection of the parser a [continue] of the loop stands for;
    [None] for the [continue]s taken after parsing, on a mismatch. *)
Definition reject_of (why : skip) : option Reject :=
  match why with
  | SkipShortIp => Some ShortPacket
  | SkipIpHeaderLen => Some BadIpHeaderLength
  | SkipIpVersion => Some WrongIpVersion
  | SkipProtocol => Some NotIcmp
  | SkipShortIcmp => Some ShortPacket
  | SkipType | SkipCode | SkipId | SkipSeq | SkipSource => None
  end.

(** ** The paths through the receive loop *)

(** The paths through [locate_icmp], with the condition under which each is
    taken and the bytes it reads. *)
Inductive located (recv_len : Z) (buf : list byte) : flow Z -> list event -> Prop :=
| LocatedShortIp :
    recv_len < 20 ->
    located recv_len buf (Continue SkipShortIp) []
| LocatedIpHeaderLen :
    20 <= recv_len ->
    header_length_of buf < 20 \/ 60 < header_length_of buf ->
    located recv_len buf (Continue SkipIpHeaderLen) [Load 0]
| LocatedIpVersion :
    20 <= recv_len ->
    20 <= header_length_of buf <= 60 ->
    byte_at buf 0 / 16 <> 4 ->
    located recv_len buf (Continue SkipIpVersion) [Load 0]
| LocatedProtocol :
    20 <= recv_len ->
    20 <= header_length_of buf <= 60 ->
    byte_at buf 0 / 16 = 4 ->
    byte_at buf 9 <> 1 ->
    located recv_len buf (Continue SkipProtocol) [Load 0; Load 9]
| LocatedShortIcmp :
    20 <= recv_len ->
    20 <= header_length_of buf <= 60 ->
    byte_at buf 0 / 16 = 4 ->
    byte_at buf 9 = 1 ->
    recv_len < header_length_of buf + 8 ->
    located recv_len buf (Continue SkipShortIcmp) [Load 0; Load 9]
| LocatedIcmp :
    20 <= recv_len ->
    20 <= header_length_of buf <= 60 ->
    byte_at buf 0 / 16 = 4 ->
    byte_at buf 9 = 1 ->
    header_length_of buf + 8 <= recv_len ->
    located recv_len buf (Next (header_length_of buf)) [Load 0; Load 9].

(** The 16-bit field at [off], first byte high: what [ntohs] gives. *)
Definition be16_at (buf : list byte) (off : Z) : Z :=
  byte_at buf off * 256 + byte_at buf (off + 1).

(** The fields of a located reply, as the code reads them. *)
Definition fields_of (buf : list byte) (from : Z) : ParsedReply :=
  {| reply_type := byte_at buf (header_length_of buf);
     reply_code := byte_at buf (header_length_of buf + 1);
     reply_identifier := be16_at buf (header_length_of buf + 4);
     reply_sequence := be16_at buf (header_length_of buf + 6);
     reply_source := from;
     reply_ttl := byte_at buf 8 |}.

(** The paths through [match_reply]. *)
Inductive compared (s : session) (buf : list byte) (hl from : Z) (et : timeval)
  : flow unit -> list event -> Prop :=
| ComparedType :
    byte_at buf hl <> ICMP_ECHOREPLY ->
    compared s buf hl from et (Continue SkipType) [Load hl]
| ComparedCode :
    byte_at buf hl = ICMP_ECHOREPLY ->
    byte_at buf (hl + 1) <> 0 ->
    compared s buf hl from et (Continue SkipCode) [Load hl; Load (hl + 1)]
| ComparedId :
    byte_at buf hl = ICMP_ECHOREPLY ->
    byte_at buf (hl + 1) = 0 ->
    be16_at buf (hl + 4) <> expected_id s ->
    compared s buf hl from et (Continue SkipId)
      [Load hl; Load (hl + 1); Load (hl + 4); Load (hl + 4 + 1)]
| ComparedSeq :
    byte_at buf hl = ICMP_ECHOREPLY ->
    byte_at buf (hl + 1) = 0 ->
    be16_at buf (hl + 4) = expected_id s ->
    be16_at buf (hl + 6) <> expected_seq s ->
    compared s buf hl from et (Continue SkipSeq)
      [Load hl; Load (hl + 1); Load (hl + 4); Load (hl + 4 + 1);
       Load (hl + 6); Load (hl + 6 + 1)]
| ComparedSource :
    byte_at buf hl = ICMP_ECHOREPLY ->
    byte_at buf (hl + 1) = 0 ->
    be16_at buf (hl + 4) = expected_id s ->
    be16_at buf (hl + 6) = expected_seq s ->
    from <> expected_addr s ->
    compared s buf hl from et (Continue SkipSource)
      [Load hl; Load (hl + 1); Load (hl + 4); Load (hl + 4 + 1);
       Load (hl + 6); Load (hl + 6 + 1)]
| ComparedMatch :
    byte_at buf hl = ICMP_ECHOREPLY ->
    byte_at buf (hl + 1) = 0 ->
    be16_at buf (hl + 4) = expected_id s ->
    be16_at buf (hl + 6) = expected_seq s ->
    from = expected_addr s ->
    compared s buf hl from et (Break et (byte_at buf 8))
      [Load hl; Load (hl + 1); Load (hl + 4); Load (hl + 4 + 1);
       Load (hl + 6); Load (hl + 6 + 1); Gettimeofday et; Load 8].

(** The paths through [wait_and_receive]. *)
Inductive waited (s : session) (it : iteration)
  : flow (Z * list byte) -> list event -> Prop :=
| WaitedDeadlinePassed :
    expired (time_remaining (deadline s) (now it)) = true ->
    waited s it (Return AtDeadlinePassed 7)
      [Gettimeofday (now it); Close (sockfd s); Freeaddrinfo]
| WaitedSelectError :
    expired (time_remaining (deadline s) (now it)) = false ->
    select_result it < 0 ->
    waited s it (Return AtSelectError 6)
      [Gettimeofday (now it);
       Select (sockfd s) (time_remaining (deadline s) (now it))
         (select_result it) (woke it);
       Stderr "Error: select failed"; Close (sockfd s); Freeaddrinfo]
| WaitedSelectTimeout :
    expired (time_remaining (deadline s) (now it)) = false ->
    select_result it = 0 ->
    waited s it (Return AtSelectTimeout 7)
      [Gettimeofday (now it);
       Select (sockfd s) (time_remaining (deadline s) (now it))
         (select_result it) (woke it);
       Close (sockfd s); Freeaddrinfo]
| WaitedRecvError :
    expired (time_remaining (deadline s) (now it)) = false ->
    0 < select_result it ->
    received it = None ->
    waited s it (Return AtRecvfrom 8)
      [Gettimeofday (now it);
       Select (sockfd s) (time_remaining (deadline s) (now it))
         (select_result it) (woke it);
       Recvfrom (sockfd s) (-1);
       Stderr "Error: recvfrom failed"; Close (sockfd s); Freeaddrinfo]
| WaitedDatagram (datagram : list byte) :
    expired (time_remaining (deadline s) (now it)) = false ->
    0 < select_result it ->
    received it = Some datagram ->
    waited s it (Next (Z.of_nat (List.length datagram), datagram))
      [Gettimeofday (now it);
       Select (sockfd s) (time_remaining (deadline s) (now it))
         (select_result it) (woke it);
       Recvfrom (sockfd s) (Z.of_nat (List.length datagram))].

(** The paths through one iteration of the loop. *)
Inductive stepped (s : session) (it : iteration)
  : flow unit -> list event -> Prop :=
| SteppedLeft (site : exit_site) (code : Z) (evs : list event) :
    waited s it (Return site code) evs ->
    stepped s it (Return site code) evs
| SteppedRejected (d : list byte) (why : skip) (evs1 evs2 : list event) :
    waited s it (Next (Z.of_nat (List.length d), d)) evs1 ->
    located (Z.of_nat (List.length d)) d (Continue why) evs2 ->
    stepped s it (Continue why) (evs1 ++ evs2)
| SteppedCompared (d : list byte) (f : flow unit) (evs1 evs2 evs3 : list event) :
    waited s it (Next (Z.of_nat (List.length d), d)) evs1 ->
    located (Z.of_nat (List.length d)) d (Next (header_length_of d)) evs2 ->
    compared s d (header_length_of d) (recv_addr it) (end_time it) f evs3 ->
    stepped s it f (evs1 ++ evs2 ++ evs3).

(** The paths through the whole loop. *)
Inductive looped (s : session)
  : list iteration -> flow (timeval * Z) -> list event -> Prop :=
| LoopedPending :
    looped s [] Pending []
| LoopedAgain (it : iteration) (rest : list iteration) (why : skip)
    (evs : list event) (f : flow (timeval * Z)) (evs' : list event) :
    stepped s it (Continue why) evs ->
    looped s rest f evs' ->
    looped s (it :: rest) f (evs ++ evs')
| LoopedMatched (it : iteration) (rest : list iteration) (t : timeval)
    (ttl : Z) (evs : list event) :
    stepped s it (Break t ttl) evs ->
    looped s (it :: rest) (Next (t, ttl)) evs
| LoopedLeft (it : iteration) (rest : list iteration) (site : exit_site)
    (code : Z) (evs : list event) :
    stepped s it (Return site code) evs ->
    looped s (it :: rest) (Return site code) evs.

(** ** The paths through main *)

(** The arguments are accepted (lines 52-96). *)
Definition args_ok (w : world) : bool :=
  negb ((argc w <? 3) || (4 <? argc w))
  && negb (endptr_at_start (timeout_arg w) || negb (endptr_at_nul (timeout_arg w)))
  && negb (erange (timeout_arg w))
  && negb (value (timeout_arg w) <=? 0)
  && negb (60000 <? value (timeout_arg w))
  && (if argc w =? 4
      then negb (endptr_at_start (seq_arg w) || negb (endptr_at_nul (seq_arg w)))
           && negb (erange (seq_arg w) || (value (seq_arg w) <? 0)
                    || (65535 <? value (seq_arg w)))
      else true).

(** The request is on its way: the arguments are accepted, the host is
    resolved, the socket is created and connected, [sendto] succeeded. *)
Definition setup_ok (w : world) : bool :=
  args_ok w
  && (getaddrinfo_status w =? 0)
  && negb (socket_result w <? 0)
  && negb (connect_result w <? 0)
  && negb (sendto_result w <? 0).

(** What happens up to and including [sendto] when all goes well. *)
Definition setup_trace (w : world) : list event :=
  [Getaddrinfo (getaddrinfo_status w); Socket (socket_result w);
   Connect (socket_result w); Setsockopt (socket_result w)]
  ++ (if rcvbuf_result w <? 0
      then [Stderr "Warning: setsockopt(SO_RCVBUF) failed"] else [])
  ++ match icmp_filter_result w with
     | Some result =>
         Setsockopt (socket_result w)
         :: (if result <? 0
             then [Stderr "Warning: setsockopt(ICMP_FILTER) failed"] else [])
     | None => []
     end
  ++ [Gettimeofday (start_time w);
      Sendto (socket_result w)
        (echo_request (host_order w) (pid w) (expected_seq (session_of w)))].

(** Lines 315-324, after the loop has ended in [f]. *)
Definition finish (w : world) (f : flow (timeval * Z)) : prog unit :=
  match f with
  | Next (end_time, reply_ttl) =>
      (Return AtSuccess 0,
       [Printf (rtt_usec_of (start_time w) end_time) reply_ttl;
        Close (socket_result w); Freeaddrinfo])
  | Continue why => (Continue why, [])
  | Break t ttl => (Break t ttl, [])
  | Return site code => (Return site code, [])
  | Fault off => (Fault off, [])
  | Pending => (Pending, [])
  end.

Inductive ran (w : world) : flow unit -> list event -> Prop :=
| RanArguments (site : exit_site) (code : Z) (msg : string) :
    setup_ok w = false ->
    In (site, code)
      [(AtUsage, 1); (AtTimeoutNotInteger, 2); (AtTimeoutRange, 2);
       (AtTimeoutNotPositive, 2); (AtTimeoutTooLarge, 2);
       (AtSeqNotInteger, 2); (AtSeqRange, 2)] ->
    ran w (Return site code) [Stderr msg]
| RanResolve (msg : string) :
    setup_ok w = false ->
    ran w (Return AtResolve 3)
      [Getaddrinfo (getaddrinfo_status w); Stderr msg]
| RanSocket (msg note : string) :
    setup_ok w = false ->
    socket_result w < 0 ->
    ran w (Return AtSocket 4)
      [Getaddrinfo (getaddrinfo_status w); Socket (socket_result w);
       Stderr msg; Stderr note; Freeaddrinfo]
| RanConnect (msg : string) :
    setup_ok w = false ->
    0 <= socket_result w ->
    ran w (Return AtConnect 4)
      [Getaddrinfo (getaddrinfo_status w); Socket (socket_result w);
       Connect (socket_result w); Stderr msg; Close (socket_result w);
       Freeaddrinfo]
| RanSendto (msg : string) :
    setup_ok w = false ->
    0 <= socket_result w ->
    ran w (Return AtSendto 5)
      (setup_trace w
       ++ [Stderr msg; Close (socket_result w); Freeaddrinfo])
| RanLoop :
    setup_ok w = true ->
    ran w (outcome (finish w (outcome (recv_loop (session_of w) (arrivals w)))))
      (setup_trace w
       ++ trace (recv_loop (session_of w) (arrivals w))
       ++ trace (finish w (outcome (recv_loop (session_of w) (arrivals w))))).

(** ** Exit codes and failure kinds *)

(** The number each [return] statement of [main] gives. *)
Definition exit_code (site : exit_site) : Z :=
  match site with
  | AtUsage => 1
  | AtTimeoutNotInteger | AtTimeoutRange | AtTimeoutNotPositive
  | AtTimeoutTooLarge | AtSeqNotInteger | AtSeqRange => 2
  | AtResolve => 3
  | AtSocket | AtConnect => 4
  | AtSendto => 5
  | AtSelectError => 6
  | AtDeadlinePassed | AtSelectTimeout => 7
  | AtRecvfrom => 8
  | AtSuccess => 0
  end.

(** The failure kinds of the specification (sections 6 and 7). *)
Inductive failure : Type :=
| InvalidArgument | ResolveFailed | SocketCreateFailed | SendFailed
| WaitFailed | ReceiveFailed | TimedOut.

(** The kind a [return] reports.  The failure of [connect] is none of the
    seven kinds; neither is success. *)
Definition failure_of (site : exit_site) : option failure :=
  match site with
  | AtUsage | AtTimeoutNotInteger | AtTimeoutRange | AtTimeoutNotPositive
  | AtTimeoutTooLarge | AtSeqNotInteger | AtSeqRange => Some InvalidArgument
  | AtResolve => Some ResolveFailed
  | AtSocket => Some SocketCreateFailed
  | AtConnect => None
  | AtSendto => Some SendFailed
  | AtSelectError => Some WaitFailed
  | AtDeadlinePassed | AtSelectTimeout => Some TimedOut
  | AtRecvfrom => Some ReceiveFailed
  | AtSuccess => None
  end.

(** ** The socket *)

(** The descriptors closed, in order. *)
Definition closes (tr : list event) : list Z :=
  flat_map (fun ev => match ev with Close fd => [fd] | _ => [] end) tr.

(** Whether [socket] gave a descriptor. *)
Definition socket_opened (tr : list event) : bool :=
  existsb (fun ev => match ev with Socket fd => 0 <=? fd | _ => false end) tr.

(** ** Waiting *)

(** Every wait is armed right after a reading of the clock, with a
    positive duration that ends at the instant [d] (in microseconds):
    [reading] is the reading the next event may rely on. *)
Fixpoint waits_until (d : Z) (reading : option Z) (tr : list event) : Prop :=
  match tr with
  | [] => True
  | Gettimeofday t :: rest => waits_until d (Some (usec_of t)) rest
  | Select _ timeout _ _ :: rest =>
      match reading with
      | Some t =>
          t + usec_of timeout = d
          /\ 0 <= tv_sec timeout /\ 0 <= tv_usec timeout < 1000000
          /\ 0 < usec_of timeout
      | None => False
      end
      /\ waits_until d None rest
  | _ :: rest => waits_until d None rest
  end.

(** The clock is not set back behind the start: no reading taken in the
    loop lies before the reading taken before [sendto]. *)
Definition clock_from_start (w : world) : Prop :=
  Forall (fun it => usec_of (start_time w) <= usec_of (now it)) (arrivals w).

(** Every wait is armed right after a reading of the clock, for what is
    left of [limit] microseconds counted from [start]: the time gone by
    from [start] to the reading, plus the wait, is [limit]; so no wait is
    longer than [limit]. *)
Fixpoint waits_within (start limit : Z) (reading : option Z)
  (tr : list event) : Prop :=
  match tr with
  | [] => True
  | Gettimeofday t :: rest => waits_within start limit (Some (usec_of t)) rest
  | Select _ timeout _ _ :: rest =>
      match reading with
      | Some t =>
          0 <= t - start
          /\ (t - start) + usec_of timeout = limit
          /\ 0 < usec_of timeout <= limit
      | None => False
      end
      /\ waits_within start limit None rest
  | _ :: rest => waits_within start limit None rest
  end.

(** The time of the last event that carries one, [t] if there is none: a
    reading of the clock, or the return of a wait. *)
Fixpoint last_clock (tr : list event) (t : Z) : Z :=
  match tr with
  | [] => t
  | Gettimeofday t' :: rest => last_clock rest (usec_of t')
  | Select _ _ _ woke :: rest => last_clock rest (usec_of woke)
  | _ :: rest => last_clock rest t
  end.

(** The clock gives normalised times. *)
Definition clocks_ok (w : world) : Prop :=
  timeval_ok (start_time w)
  /\ Forall (fun it => timeval_ok (now it)) (arrivals w).

(** The contract of [select], on the waits of a trace: a wait armed with
    [timeout] right after a reading [t] of the clock gives 0 only when the
    timeout it was armed with has run out, so it does not come back before
    [t + timeout].  [reading] is the reading the next event may rely on. *)
Fixpoint select_waits (reading : option Z) (tr : list event) : Prop :=
  match tr with
  | [] => True
  | Gettimeofday t :: rest => select_waits (Some (usec_of t)) rest
  | Select _ timeout result woke :: rest =>
      match reading with
      | Some t => result = 0 -> t + usec_of timeout <= usec_of woke
      | None => True
      end
      /\ select_waits None rest
  | _ :: rest => select_waits None rest
  end.

(** Neither [select] nor, when it is called, [recvfrom] fails. *)
Definition no_failure (it : iteration) : Prop :=
  0 <= select_result it /\ (0 < select_result it -> received it <> None).

(** The reply an iteration receives, when the parser of the specification
    accepts the datagram. *)
Definition parsed_of (it : iteration) : option ParsedReply :=
  match received it with
  | Some buf =>
      match parse_reply buf (Z.of_nat (List.length buf)) (recv_addr it) with
      | inl p => Some p
      | inr _ => None
      end
  | None => None
  end.

Definition no_match (s : session) (it : iteration) : Prop :=
  forall p, parsed_of it = Some p -> ~ matches s p.

(** The clock reaches the deadline, or a wait runs out. *)
Definition time_is_up (d : timeval) (it : iteration) : Prop :=
  usec_of d <= usec_of (now it) \/ select_result it = 0.

(** The clock moves on: every reading is at least [step] after the
    previous one ([prev]). *)
Fixpoint advancing (step : Z) (prev : Z) (its : list iteration) : Prop :=
  match its with
  | [] => True
  | it :: rest =>
      prev + step <= usec_of (now it)
      /\ advancing step (usec_of (now it)) rest
  end.

(** The granularity [g] of the system, on the events of a trace: a reading
    of the clock comes at most [g] after the clock event before it (the
    reading before, or the return of a wait), whose time is [prev]; and a
    wait armed with [timeout] right after a reading [t] comes back at most
    [g] after [t + timeout], the end of the timeout it was armed with. *)
Fixpoint paced (g : Z) (prev reading : option Z) (tr : list event) : Prop :=
  match tr with
  | [] => True
  | Gettimeofday t :: rest =>
      match prev with
      | Some p => usec_of t <= p + g
      | None => True
      end
      /\ paced g (Some (usec_of t)) (Some (usec_of t)) rest
  | Select _ timeout _ woke :: rest =>
      match reading with
      | Some t => usec_of woke <= t + usec_of timeout + g
      | None => True
      end
      /\ paced g (Some (usec_of woke)) None rest
  | _ :: rest => paced g prev None rest
  end.

(** ** A run to try the statements on *)

Module Example.

(** An echo reply from 127.0.0.1 with TTL 64, identifier [hi:lo] and
    sequence 1, behind a 20-byte IP header. *)
Definition reply (hi lo : byte) : list byte :=
  [x45; x00; x00; x1c; x00; x00; x00; x00; x40; x01; x00; x00;
   x7f; x00; x00; x01; x7f; x00; x00; x01;
   x00; x00; xed; xca; hi; lo; x00; x01].

Definition localhost : Z := 16777343.

(** 50 microseconds after the start: two bytes, too short for a header. *)
Definition short : iteration :=
  {| now := {| tv_sec := 100; tv_usec := 900050 |};
     select_result := 1;
     woke := {| tv_sec := 100; tv_usec := 950000 |};
     received := Some [x45; x00];
     recv_addr := localhost;
     end_time := {| tv_sec := 100; tv_usec := 950010 |} |}.

(** Then the reply to another process. *)
Definition foreign : iteration :=
  {| now := {| tv_sec := 100; tv_usec := 950060 |};
     select_result := 1;
     woke := {| tv_sec := 101; tv_usec := 20000 |};
     received := Some (reply x99 x99);
     recv_addr := localhost;
     end_time := {| tv_sec := 101; tv_usec := 20010 |} |}.

(** Then nothing: the wait runs out, 80 microseconds late. *)
Definition quiet : iteration :=
  {| now := {| tv_sec := 101; tv_usec := 20040 |};
     select_result := 0;
     woke := {| tv_sec := 101; tv_usec := 100080 |};
     received := None;
     recv_addr := 0;
     end_time := {| tv_sec := 0; tv_usec := 0 |} |}.

(** Or else the reply to this process. *)
Definition answered : iteration :=
  {| now := {| tv_sec := 101; tv_usec := 20040 |};
     select_result := 1;
     woke := {| tv_sec := 101; tv_usec := 30000 |};
     received := Some (reply x12 x34);
     recv_addr := localhost;
     end_time := {| tv_sec := 101; tv_usec := 30020 |} |}.

Definition number (v : Z) : strtol_result :=
  {| value := v; endptr_at_start := false; endptr_at_nul := true;
     erange := false |}.

(** [ping_helper 127.0.0.1 200] as process 0x1234, started at 100.9 s. *)
Definition world_with (status : Z) (its : list iteration) : world :=
  {| host_order := LittleEndian;
     argc := 3;
     timeout_arg := number 200;
     seq_arg := number 0;
     getaddrinfo_status := status;
     dest_addr := localhost;
     socket_result := 3;
     connect_result := 0;
     rcvbuf_result := 0;
     icmp_filter_result := None;
     pid := 4660;
     start_time := {| tv_sec := 100; tv_usec := 900000 |};
     sendto_result := 64;
     arrivals := its |}.

Definition silent : world := world_with 0 [short; foreign; quiet].
Definition unresolved : world := world_with (-2) [].

End Example.

(** ** Notions used for the further properties of the checksum *)

(** The sums of the bytes at even and at odd offsets. *)
Fixpoint even_bytes_total (buf : list byte) : Z :=
  match buf with
  | b0 :: _ :: rest => u8 b0 + even_bytes_total rest
  | [b] => u8 b
  | [] => 0
  end.

Fixpoint odd_bytes_total (buf : list byte) : Z :=
  match buf with
  | _ :: b1 :: rest => u8 b1 + odd_bytes_total rest
  | _ => 0
  end.

(** The two bytes of a 16-bit value, exchanged. *)
Definition swab (x : Z) : Z := (x mod 256) * 256 + x / 256.

(** ** Notions used for the further properties of the receive path *)

(** The echo reply a target sends back: the request with its type set to
    Echo Reply.  (Its checksum would differ; the helper does not read it.) *)
Definition echo_reply_to (request : list byte) : list byte :=
  poke8 0 ICMP_ECHOREPLY request.

(** Two datagrams agree on the bytes the loop looks at: the first byte, the
    TTL, the protocol, and type, code, identifier and sequence of the ICMP
    header. *)
Definition same_inspected_bytes (buf1 buf2 : list byte) : Prop :=
  List.length buf1 = List.length buf2
  /\ byte_at buf1 0 = byte_at buf2 0
  /\ byte_at buf1 8 = byte_at buf2 8
  /\ byte_at buf1 9 = byte_at buf2 9
  /\ forall k, In k [0; 1; 4; 5; 6; 7] ->
               byte_at buf1 (header_length_of buf1 + k)
               = byte_at buf2 (header_length_of buf1 + k).

(** ** Notions used for the further properties of main *)

(** The first check of the arguments that fails (lines 52-96), with the
    [return] it leads to, its code and its message; [None] when the
    arguments are accepted. *)
Definition argument_exit (w : world) : option (exit_site * Z * string) :=
  let t := timeout_arg w in
  let q := seq_arg w in
  if (argc w <? 3) || (4 <? argc w)
  then Some (AtUsage, 1, "Usage: <host> <timeout_ms> [icmp_seq]"%string)
  else if endptr_at_start t || negb (endptr_at_nul t)
  then Some (AtTimeoutNotInteger, 2,
             "Error: timeout_ms must be an integer value"%string)
  else if erange t
  then Some (AtTimeoutRange, 2, "Error: timeout_ms is out of range"%string)
  else if value t <=? 0
  then Some (AtTimeoutNotPositive, 2,
             "Error: timeout_ms must be positive"%string)
  else if 60000 <? value t
  then Some (AtTimeoutTooLarge, 2,
             "Error: timeout_ms must be 60000ms or less"%string)
  else if argc w =? 4
  then if endptr_at_start q || negb (endptr_at_nul q)
       then Some (AtSeqNotInteger, 2,
                  "Error: icmp_seq must be an integer"%string)
       else if erange q || (value q <? 0) || (65535 <? value q)
       then Some (AtSeqRange, 2,
                  "Error: icmp_seq must be between 0 and 65535"%string)
       else None
  else None.

(** What a [return] inside the loop does before it returns. *)
Definition leave_events (s : session) (site : exit_site) : list event :=
  match site with
  | AtSelectError =>
      [Stderr "Error: select failed"; Close (sockfd s); Freeaddrinfo]
  | AtRecvfrom =>
      [Stderr "Error: recvfrom failed"; Close (sockfd s); Freeaddrinfo]
  | _ => [Close (sockfd s); Freeaddrinfo]
  end.

(** An observation of events that the plain steps of the loop (reading the
    clock, waiting, receiving, reading a byte) do not show. *)
Definition loop_blind {X} (pick : event -> list X) : Prop :=
  (forall t, pick (Gettimeofday t) = [])
  /\ (forall fd timeout result woke, pick (Select fd timeout result woke) = [])
  /\ (forall fd len, pick (Recvfrom fd len) = [])
  /\ (forall off, pick (Load off) = []).

(** How far the setup got. *)
Inductive stage : Type :=
| BadArguments | Unresolved | NoSocket | NotConnected | NotSent | Probing.

Definition stage_of (w : world) : stage :=
  match argument_exit w with
  | Some _ => BadArguments
  | None =>
      if negb (getaddrinfo_status w =? 0) then Unresolved
      else if socket_result w <? 0 then NoSocket
      else if connect_result w <? 0 then NotConnected
      else if sendto_result w <? 0 then NotSent
      else Probing
  end.
(** How often [freeaddrinfo] is called. *)
Definition frees (tr : list event) : nat :=
  List.length
    (flat_map (fun ev => match ev with Freeaddrinfo => [tt] | _ => [] end) tr).

(** Whether [getaddrinfo] gave an address list. *)
Definition resolved (tr : list event) : bool :=
  existsb (fun ev => match ev with Getaddrinfo st => st =? 0 | _ => false end)
    tr.

(** The packets handed to [sendto], with the descriptor. *)
Definition sends (tr : list event) : list (Z * list byte) :=
  flat_map (fun ev => match ev with Sendto fd p => [(fd, p)] | _ => [] end) tr.

(** The setup gets as far as [sendto]. *)
Definition connected (w : world) : bool :=
  args_ok w
  && (getaddrinfo_status w =? 0)
  && negb (socket_result w <? 0)
  && negb (connect_result w <? 0).

(** The lines written to the standard output: round-trip time and TTL. *)
Definition prints (tr : list event) : list (Z * Z) :=
  flat_map (fun ev => match ev with Printf rtt ttl => [(rtt, ttl)] | _ => [] end)
    tr.

(** The [fprintf] calls on the standard error other than the two warnings
    of [setsockopt], counted.  A [Stderr] event stands for one call and
    carries the constant start of its format, by which a warning is told
    from the rest; what the call goes on to print (the name of the
    program, the host, the text of the error) is not modelled. *)
Definition complaints (tr : list event) : nat :=
  List.length
    (flat_map (fun ev => match ev with
                         | Stderr msg =>
                             if prefix "Warning:" msg then [] else [tt]
                         | _ => []
                         end) tr).

(** How many such calls come before each [return] of [main]. *)
Definition error_lines (site : exit_site) : nat :=
  match site with
  | AtDeadlinePassed | AtSelectTimeout | AtSuccess => 0
  | AtSocket => 2
  | _ => 1
  end%nat.

(** The same world with other answers of the two [setsockopt] calls. *)
Definition with_sockopts (w : world) (rcvbuf : Z) (filter : option Z) : world :=
  {| host_order := host_order w;
     argc := argc w;
     timeout_arg := timeout_arg w;
     seq_arg := seq_arg w;
     getaddrinfo_status := getaddrinfo_status w;
     dest_addr := dest_addr w;
     socket_result := socket_result w;
     connect_result := connect_result w;
     rcvbuf_result := rcvbuf;
     icmp_filter_result := filter;
     pid := pid w;
     start_time := start_time w;
     sendto_result := sendto_result w;
     arrivals := arrivals w |}.

(** A trace without the [setsockopt] calls and their warnings. *)
Definition essential (tr : list event) : list event :=
  filter (fun ev => match ev with
                    | Setsockopt _ => false
                    | Stderr msg => negb (prefix "Warning:" msg)
                    | _ => true
                    end) tr.

(** ** Notions used for the properties of a run as a whole *)

(** The same world on a host of byte order [e]. *)
Definition with_host_order (w : world) (e : endian) : world :=
  {| host_order := e;
     argc := argc w;
     timeout_arg := timeout_arg w;
     seq_arg := seq_arg w;
     getaddrinfo_status := getaddrinfo_status w;
     dest_addr := dest_addr w;
     socket_result := socket_result w;
     connect_result := connect_result w;
     rcvbuf_result := rcvbuf_result w;
     icmp_filter_result := icmp_filter_result w;
     pid := pid w;
     start_time := start_time w;
     sendto_result := sendto_result w;
     arrivals := arrivals w |}.

(** The same world with [getpid] giving [p]. *)
Definition with_pid (w : world) (p : Z) : world :=
  {| host_order := host_order w;
     argc := argc w;
     timeout_arg := timeout_arg w;
     seq_arg := seq_arg w;
     getaddrinfo_status := getaddrinfo_status w;
     dest_addr := dest_addr w;
     socket_result := socket_result w;
     connect_result := connect_result w;
     rcvbuf_result := rcvbuf_result w;
     icmp_filter_result := icmp_filter_result w;
     pid := p;
     start_time := start_time w;
     sendto_result := sendto_result w;
     arrivals := arrivals w |}.

(** Two sessions that differ at most in the byte order of the host. *)
Definition same_expectations (s1 s2 : session) : Prop :=
  sockfd s1 = sockfd s2
  /\ deadline s1 = deadline s2
  /\ expected_id s1 = expected_id s2
  /\ expected_seq s1 = expected_seq s2
  /\ expected_addr s1 = expected_addr s2.

(** Every [recvfrom] of a trace comes right after a [select] that reported
    the socket readable; [ready] tells whether the event before was such a
    [select]. *)
Fixpoint receives_when_ready (ready : bool) (tr : list event) : Prop :=
  match tr with
  | [] => True
  | Select _ _ result _ :: rest => receives_when_ready (0 <? result) rest
  | Recvfrom _ _ :: rest => ready = true /\ receives_when_ready false rest
  | _ :: rest => receives_when_ready false rest
  end.

(** * The earlier helper (src/ping_helper.c)

    The helper at the top of the source tree is the earlier form of the
    same program: the same [checksum], a request with the fixed sequence
    number 1, and a receive loop with fewer checks, which records no TTL.
    Its run up to the end of the loop is embedded here, over the events,
    the environment and the [session] of the helper above; the line numbers
    in this module are those of src/ping_helper.c. *)

Module Legacy.

(** Lines 86-96: the packet is zeroed, then type, code, identifier and the
    sequence number 1 are set, then the checksum is computed over the packet
    with a cleared checksum field and written into the field. *)
Definition echo_request (e : endian) (pid : Z) : list byte :=
  let packet := repeat x00 (Z.to_nat PACKET_SIZE) in
  let packet := poke8 0 ICMP_ECHO packet in
  let packet := poke8 1 0 packet in
  let packet := poke16 e 4 (htons e (Z.land pid 65535)) packet in
  let packet := poke16 e 6 (htons e 1) packet in
  let packet := set_icmp_cksum e 0 packet in
  set_icmp_cksum e (checksum e packet) packet.

(** Lines 151-158: the guard on the remaining time, after the test for a
    passed deadline. *)
Definition clamp (remaining : timeval) : timeval :=
  let remaining :=
    if tv_sec remaining <? 0
    then {| tv_sec := 0; tv_usec := 0 |}
    else remaining in
  if tv_usec remaining <? 0
  then {| tv_sec := tv_sec remaining; tv_usec := 0 |}
  else remaining.

(** Lines 130-192: compute the remaining time, wait, receive. *)
Definition wait_and_receive (s : session) (it : iteration)
  : prog (Z * list byte) :=
  now <- gettimeofday (now it) ;;
  let remaining := time_remaining (deadline s) now in
  when (expired remaining) (leave s AtDeadlinePassed 7) ;;
  let remaining := clamp remaining in
  select_result <- select (sockfd s) remaining it ;;
  when (select_result <? 0)
    (emit (Stderr "Error: select failed") ;; leave s AtSelectError 6) ;;
  when (select_result =? 0) (leave s AtSelectTimeout 7) ;;
  r <- recvfrom (sockfd s) it ;;
  when (fst r <? 0)
    (emit (Stderr "Error: recvfrom failed") ;; leave s AtRecvfrom 8) ;;
  ret r.

(** Lines 194-207: the header length is read from the first byte of the
    buffer whatever was received; then the two checks on it. *)
Definition locate_icmp (recv_len : Z) (recv_buf : list byte) : prog Z :=
  vhl <- load8 recv_buf 0 ;;
  let ip_hl := Z.land vhl 15 in
  let ip_header_len := ip_hl * 4 in
  when ((ip_header_len <? 20) || (60 <? ip_header_len))
    (continue_ SkipIpHeaderLen) ;;
  when (recv_len <? ip_header_len + ICMP_HEADER_SIZE)
    (continue_ SkipShortIcmp) ;;
  ret ip_header_len.

(** Lines 209-237: type, identifier, sequence and sender against the
    expected values.  On a match the end time is taken and the loop is left
    by [break]: the code falls through with [end_time]. *)
Definition match_reply (s : session) (recv_buf : list byte)
  (ip_header_len : Z) (from : Z) (end_time : timeval) : prog timeval :=
  icmp_type <- load8 recv_buf ip_header_len ;;
  when (negb (icmp_type =? ICMP_ECHOREPLY)) (continue_ SkipType) ;;
  icmp_id <- load16_at (host s) recv_buf (ip_header_len + 4) ;;
  when (negb (ntohs (host s) icmp_id =? expected_id s)) (continue_ SkipId) ;;
  icmp_seq <- load16_at (host s) recv_buf (ip_header_len + 6) ;;
  when (negb (ntohs (host s) icmp_seq =? expected_seq s)) (continue_ SkipSeq) ;;
  when (negb (from =? expected_addr s)) (continue_ SkipSource) ;;
  end_time <- gettimeofday end_time ;;
  ret end_time.

Definition inspect (s : session) (recv_len : Z) (recv_buf : list byte)
  (from : Z) (end_time : timeval) : prog timeval :=
  ip_header_len <- locate_icmp recv_len recv_buf ;;
  match_reply s recv_buf ip_header_len from end_time.

Definition loop_body (s : session) (it : iteration) : prog timeval :=
  r <- wait_and_receive s it ;;
  inspect s (fst r) (snd r) (recv_addr it) (end_time it).

(** [while (1)], lines 129-238: a [continue] goes round again, the [break]
    leaves with [end_time]. *)
Fixpoint recv_loop (s : session) (its : list iteration) : prog timeval :=
  match its with
  | [] => (Pending, [])
  | it :: rest =>
      match loop_body s it with
      | (Next end_time, evs) => (Next end_time, evs)
      | (Continue _, evs) =>
          let '(f, evs') := recv_loop s rest in (f, evs ++ evs')
      | (Break t ttl, evs) => (Break t ttl, evs)
      | (Return site code, evs) => (Return site code, evs)
      | (Fault off, evs) => (Fault off, evs)
      | (Pending, evs) => (Pending, evs)
      end
  end.

(** Lines 50-127: the arguments, the address, the socket, the request,
    the start time, [sendto], the deadline and the expected values.  The
    timeout is what [atoi] makes of the second argument: the number
    [strtol] reads, with no report of an error (a number that does not fit
    an [int] is outside what [atoi] defines, and outside this model). *)
Definition setup (w : world) : prog session :=
  when (negb (argc w =? 3))
    (emit (Stderr "Usage: <host> <timeout_ms>") ;;
     return_ AtUsage 1) ;;
  let timeout_ms := value (timeout_arg w) in
  when (timeout_ms <=? 0)
    (emit (Stderr "Error: timeout_ms must be positive") ;;
     return_ AtTimeoutNotPositive 2) ;;
  status <- getaddrinfo w ;;
  when (negb (status =? 0))
    (emit (Stderr "Error: cannot resolve host") ;;
     return_ AtResolve 3) ;;
  sockfd <- socket w ;;
  when (sockfd <? 0)
    (emit (Stderr "Error: cannot create raw socket") ;;
     emit (Stderr "Note: This program requires cap_net_raw capability or root privileges") ;;
     emit Freeaddrinfo ;;
     return_ AtSocket 4) ;;
  let packet := echo_request (host_order w) (pid w) in
  start_time <- gettimeofday (start_time w) ;;
  sent <- sendto sockfd packet w ;;
  when (sent <? 0)
    (emit (Stderr "Error: sendto failed") ;;
     emit (Close sockfd) ;;
     emit Freeaddrinfo ;;
     return_ AtSendto 5) ;;
  let deadline := compute_deadline start_time timeout_ms in
  ret {| host := host_order w;
         sockfd := sockfd;
         deadline := deadline;
         expected_id := wrap16 (Z.land (pid w) 65535);
         expected_seq := 1;
         expected_addr := dest_addr w |}.

(** Lines 50-238: the run up to the end of the loop.  It falls through
    with the end time, from which lines 240-245 compute and print the
    round-trip time. *)
Definition probe (w : world) : prog timeval :=
  s <- setup w ;;
  recv_loop s (arrivals w).

(** The paths through [inspect] on a datagram [d], with the condition under
    which each is taken and the bytes it reads. *)
Inductive inspected (s : session) (d : list byte) (from : Z) (et : timeval)
  : flow timeval -> list event -> Prop :=
| InspectedNothing :
    d = [] ->
    inspected s d from et (Fault 0) []
| InspectedIpHeaderLen :
    d <> [] ->
    header_length_of d < 20 \/ 60 < header_length_of d ->
    inspected s d from et (Continue SkipIpHeaderLen) [Load 0]
| InspectedShortIcmp :
    20 <= header_length_of d <= 60 ->
    0 < Z.of_nat (List.length d) < header_length_of d + 8 ->
    inspected s d from et (Continue SkipShortIcmp) [Load 0]
| InspectedType :
    20 <= header_length_of d <= 60 ->
    header_length_of d + 8 <= Z.of_nat (List.length d) ->
    byte_at d (header_length_of d) <> ICMP_ECHOREPLY ->
    inspected s d from et (Continue SkipType) [Load 0; Load (header_length_of d)]
| InspectedId :
    20 <= header_length_of d <= 60 ->
    header_length_of d + 8 <= Z.of_nat (List.length d) ->
    byte_at d (header_length_of d) = ICMP_ECHOREPLY ->
    be16_at d (header_length_of d + 4) <> expected_id s ->
    inspected s d from et (Continue SkipId)
      [Load 0; Load (header_length_of d); Load (header_length_of d + 4);
       Load (header_length_of d + 4 + 1)]
| InspectedSeq :
    20 <= header_length_of d <= 60 ->
    header_length_of d + 8 <= Z.of_nat (List.length d) ->
    byte_at d (header_length_of d) = ICMP_ECHOREPLY ->
    be16_at d (header_length_of d + 4) = expected_id s ->
    be16_at d (header_length_of d + 6) <> expected_seq s ->
    inspected s d from et (Continue SkipSeq)
      [Load 0; Load (header_length_of d); Load (header_length_of d + 4);
       Load (header_length_of d + 4 + 1); Load (header_length_of d + 6);
       Load (header_length_of d + 6 + 1)]
| InspectedSource :
    20 <= header_length_of d <= 60 ->
    header_length_of d + 8 <= Z.of_nat (List.length d) ->
    byte_at d (header_length_of d) = ICMP_ECHOREPLY ->
    be16_at d (header_length_of d + 4) = expected_id s ->
    be16_at d (header_length_of d + 6) = expected_seq s ->
    from <> expected_addr s ->
    inspected s d from et (Continue SkipSource)
      [Load 0; Load (header_length_of d); Load (header_length_of d + 4);
       Load (header_length_of d + 4 + 1); Load (header_length_of d + 6);
       Load (header_length_of d + 6 + 1)]
| InspectedMatch :
    20 <= header_length_of d <= 60 ->
    header_length_of d + 8 <= Z.of_nat (List.length d) ->
    byte_at d (header_length_of d) = ICMP_ECHOREPLY ->
    be16_at d (header_length_of d + 4) = expected_id s ->
    be16_at d (header_length_of d + 6) = expected_seq s ->
    from = expected_addr s ->
    inspected s d from et (Next et)
      [Load 0; Load (header_length_of d); Load (header_length_of d + 4);
       Load (header_length_of d + 4 + 1); Load (header_length_of d + 6);
       Load (header_length_of d + 6 + 1); Gettimeofday et].

End Legacy.

(** How the two loops end, set side by side: the loop of the helper above
    ends with the end time and a TTL, the earlier one with the end time. *)
Definition without_ttl (f : flow (timeval * Z)) : flow timeval :=
  match f with
  | Next (end_time, _) => Next end_time
  | Continue why => Continue why
  | Break t ttl => Break t ttl
  | Return site code => Return site code
  | Fault off => Fault off
  | Pending => Pending
  end.

(** A datagram that says it is IPv4 carrying ICMP, with code 0 in the ICMP
    header its length field announces. *)
Definition plain_icmp (d : list byte) : Prop :=
  d <> []
  /\ byte_at d 0 / 16 = 4
  /\ byte_at d 9 = 1
  /\ byte_at d (header_length_of d + 1) = 0.

(** Every datagram of an iteration is such a datagram, and the clock gives
    a normalised time. *)
Definition plain_iteration (it : iteration) : Prop :=
  timeval_ok (now it)
  /\ forall d, received it = Some d -> plain_icmp d.
(** One iteration of the two loops, side by side: both go round again,
    or both leave at the same [return], or both end the loop with the same
    end time. *)
Definition same_step (earlier : flow timeval) (later : flow unit) : Prop :=
  match earlier, later with
  | Continue _, Continue _ => True
  | Next t, Break t' _ => t = t'
  | Return site code, Return site' code' => site = site' /\ code = code'
  | _, _ => False
  end.

(** The calls to the system in a trace: everything but the reads of the
    receive buffer. *)
Definition calls (tr : list event) : list event :=
  filter (fun ev => match ev with Load _ => false | _ => true end) tr.

(** * Properties *)

(** ** Bytes and 16-bit words *)

Lemma u8_range (b : byte) : 0 <= u8 b < 256.
Proof.
  unfold u8. pose proof (Byte.to_N_bounded b). lia.
Qed.

Lemma u8_to_byte (x : Z) : u8 (to_byte x) = x mod 256.
Proof.
  unfold u8, to_byte.
  assert (Hr : 0 <= x mod 256 < 256) by (apply Z.mod_pos_bound; lia).
  destruct (Byte.of_N (Z.to_N (x mod 256))) as [b|] eqn:E.
  - apply Byte.to_of_N in E. rewrite E. lia.
  - apply Byte.of_N_None_iff in E. lia.
Qed.

Lemma land_shiftl8_low (hi lo : Z) :
  0 <= lo < 256 -> Z.land (Z.shiftl hi 8) lo = 0.
Proof.
  intros Hlo. apply Z.bits_inj'. intros n Hn.
  rewrite Z.land_spec, Z.bits_0.
  destruct (Z.ltb_spec n 8).
  - rewrite Z.shiftl_spec_low by lia. reflexivity.
  - rewrite (Z.bits_above_log2 lo n); [apply andb_false_r | lia | ].
    destruct (Z.eq_dec lo 0) as [->|]; [simpl; lia|].
    apply Z.log2_lt_pow2; [lia|].
    apply Z.lt_le_trans with (2 ^ 8); [simpl; lia|].
    apply Z.pow_le_mono_r; lia.
Qed.

Lemma lor_shiftl8 (hi lo : Z) :
  0 <= lo < 256 -> Z.lor (Z.shiftl hi 8) lo = hi * 256 + lo.
Proof.
  intros Hlo.
  rewrite <- Z.lxor_lor, <- Z.add_nocarry_lxor by (apply land_shiftl8_low; lia).
  rewrite Z.shiftl_mul_pow2 by lia. reflexivity.
Qed.

(** The number a 16-bit load yields, by byte order. *)
Lemma load16_value (e : endian) (b0 b1 : byte) :
  load16 e b0 b1 =
    match e with
    | LittleEndian => u8 b1 * 256 + u8 b0
    | BigEndian => u8 b0 * 256 + u8 b1
    end.
Proof.
  destruct e; unfold load16.
  - rewrite Z.lor_comm. apply lor_shiftl8, u8_range.
  - apply lor_shiftl8, u8_range.
Qed.

Lemma load16_range (e : endian) (b0 b1 : byte) : 0 <= load16 e b0 b1 < 65536.
Proof.
  rewrite load16_value.
  pose proof (u8_range b0). pose proof (u8_range b1). destruct e; lia.
Qed.

(** A 16-bit value written to memory is read back unchanged. *)
Lemma load16_store16 (e : endian) (v : Z) :
  0 <= v < 65536 ->
  load16 e (fst (store16 e v)) (snd (store16 e v)) = v.
Proof.
  intros Hv. rewrite load16_value.
  assert (Hhi : (Z.shiftr v 8) mod 256 = v / 256).
  { rewrite Z.shiftr_div_pow2 by lia. change (2 ^ 8) with 256.
    apply Z.mod_small. split; [apply Z.div_pos; lia|].
    apply Z.div_lt_upper_bound; lia. }
  pose proof (Z.div_mod v 256 ltac:(lia)).
  destruct e; simpl; rewrite !u8_to_byte, Hhi; lia.
Qed.

(** [ntohs] of a field read from the wire: the first byte is the high one,
    whatever the host. *)
Lemma ntohs_load16 (e : endian) (b0 b1 : byte) :
  ntohs e (load16 e b0 b1) = u8 b0 * 256 + u8 b1.
Proof.
  pose proof (u8_range b0) as H0. pose proof (u8_range b1) as H1.
  unfold ntohs, htons. rewrite load16_value. destruct e.
  - unfold bswap16. change 255 with (Z.ones 8).
    rewrite !Z.land_ones, Z.shiftr_div_pow2 by lia. change (2 ^ 8) with 256.
    replace ((u8 b1 * 256 + u8 b0) mod 256) with (u8 b0)
      by (apply Z.mod_unique with (q := u8 b1); lia).
    replace ((u8 b1 * 256 + u8 b0) / 256) with (u8 b1)
      by (apply Z.div_unique with (r := u8 b0); lia).
    rewrite (Z.mod_small (u8 b1)) by lia.
    apply lor_shiftl8. lia.
  - unfold wrap16. apply Z.mod_small. lia.
Qed.

(** ** The checksum: sum of words *)

(** Lists are consumed two bytes at a time. *)
Lemma list_pair_ind {A} (P : list A -> Prop) :
  P [] -> (forall a, P [a]) -> (forall a b l, P l -> P (a :: b :: l)) ->
  forall l, P l.
Proof.
  intros H0 H1 H2.
  assert (H : forall l, P l /\ forall a, P (a :: l)).
  { induction l as [|x l [IH1 IH2]]; split; auto. }
  intro l. apply H.
Qed.

Lemma checksum_sum_total (e : endian) (buf : list byte) :
  forall sum, 0 <= sum < 4294967296 ->
  checksum_sum e buf sum = wrap32 (sum + words_total e buf).
Proof.
  induction buf as [| b | b0 b1 rest IH] using list_pair_ind; intros sum Hs.
  - cbn [checksum_sum words_total].
    unfold wrap32. rewrite Z.add_0_r, Z.mod_small; lia.
  - cbn [checksum_sum words_total].
    rewrite Z.shiftl_mul_pow2 by lia. reflexivity.
  - cbn [checksum_sum words_total].
    rewrite IH by (apply Z.mod_pos_bound; lia).
    unfold wrap32. rewrite Z.add_mod_idemp_l by lia. f_equal. lia.
Qed.

Lemma checksum_sum_range (e : endian) (buf : list byte) :
  0 <= checksum_sum e buf 0 < 4294967296.
Proof.
  rewrite checksum_sum_total by lia. apply Z.mod_pos_bound. lia.
Qed.

Lemma words_total_app_even (e : endian) (pre tail : list byte) :
  Nat.even (List.length pre) = true ->
  words_total e (pre ++ tail) = words_total e pre + words_total e tail.
Proof.
  induction pre as [| b | b0 b1 rest IH] using list_pair_ind; intros Hev.
  - reflexivity.
  - discriminate.
  - cbn [app words_total]. rewrite IH by exact Hev. lia.
Qed.

(** ** The checksum: folding and complement *)

Lemma checksum_fold_arith (s : Z) :
  checksum_fold s =
    (let s1 := (s / 65536 + s mod 65536) mod 4294967296 in
     let s2 := (s1 + s1 / 65536) mod 4294967296 in
     ((- s2 - 1) mod 4294967296) mod 65536).
Proof.
  unfold checksum_fold, wrap32, wrap16, Z.lnot.
  change 65535 with (Z.ones 16). rewrite Z.land_ones by lia.
  rewrite !Z.shiftr_div_pow2 by lia. change (2 ^ 16) with 65536.
  cbv zeta. rewrite <- Z.sub_1_r. reflexivity.
Qed.

Lemma checksum_fold_residue (s : Z) :
  0 <= s < 4294967296 -> checksum_fold s = 65535 - residue s.
Proof.
  intros Hs. rewrite checksum_fold_arith. cbv zeta.
  pose proof (Z.div_mod s 65536 ltac:(lia)) as Hdm.
  pose proof (Z.mod_pos_bound s 65536 ltac:(lia)) as Hlo.
  assert (Hhi : 0 <= s / 65536 < 65536).
  { split; [apply Z.div_pos; lia | apply Z.div_lt_upper_bound; lia]. }
  set (hi := s / 65536) in *. set (lo := s mod 65536) in *.
  rewrite (Z.mod_small (hi + lo)) by lia.
  unfold residue.
  destruct (Z_lt_le_dec (hi + lo) 65536) as [Hsmall | Hbig].
  - rewrite (Z.div_small (hi + lo)) by lia.
    rewrite Z.add_0_r, (Z.mod_small (hi + lo)) by lia.
    replace ((- (hi + lo) - 1) mod 4294967296) with (4294967295 - (hi + lo))
      by (apply Z.mod_unique with (q := -1); lia).
    replace ((4294967295 - (hi + lo)) mod 65536) with (65535 - (hi + lo))
      by (apply Z.mod_unique with (q := 65535); lia).
    destruct (Z.eqb_spec s 0) as [E | E]; [lia|].
    replace ((s - 1) mod 65535) with (hi + lo - 1)
      by (apply Z.mod_unique with (q := hi); lia).
    lia.
  - replace ((hi + lo) / 65536) with 1
      by (apply Z.div_unique with (r := hi + lo - 65536); lia).
    rewrite (Z.mod_small (hi + lo + 1)) by lia.
    replace ((- (hi + lo + 1) - 1) mod 4294967296) with (4294967294 - (hi + lo))
      by (apply Z.mod_unique with (q := -1); lia).
    replace ((4294967294 - (hi + lo)) mod 65536) with (131070 - (hi + lo))
      by (apply Z.mod_unique with (q := 65534); lia).
    destruct (Z.eqb_spec s 0) as [E | E]; [lia|].
    replace ((s - 1) mod 65535) with (hi + lo - 65536)
      by (apply Z.mod_unique with (q := hi + 1); lia).
    lia.
Qed.

Lemma residue_range (s : Z) : 0 <= residue s <= 65535.
Proof.
  unfold residue. destruct (s =? 0); [lia|].
  pose proof (Z.mod_pos_bound (s - 1) 65535 ltac:(lia)). lia.
Qed.

Lemma checksum_fold_range (s : Z) :
  0 <= s < 4294967296 -> 0 <= checksum_fold s < 65536.
Proof.
  intros Hs. rewrite checksum_fold_residue by exact Hs.
  pose proof (residue_range s). lia.
Qed.

(** Adding the complement of the residue reaches a positive multiple of
    65535 without leaving 32 bits. *)
Lemma complement_multiple (s : Z) :
  0 <= s < 4294967296 ->
  exists k, 1 <= k <= 65537 /\ s + (65535 - residue s) = 65535 * k.
Proof.
  intros Hs. unfold residue.
  destruct (Z.eqb_spec s 0) as [E | E].
  - exists 1. lia.
  - pose proof (Z.div_mod (s - 1) 65535 ltac:(lia)) as Hdm.
    pose proof (Z.mod_pos_bound (s - 1) 65535 ltac:(lia)) as Hr.
    assert (Hq : 0 <= (s - 1) / 65535 <= 65536).
    { split; [apply Z.div_pos; lia | ].
      apply Z.lt_succ_r, Z.div_lt_upper_bound; lia. }
    exists ((s - 1) / 65535 + 1). lia.
Qed.

Lemma residue_multiple (k : Z) : 1 <= k -> residue (65535 * k) = 65535.
Proof.
  intros Hk. unfold residue.
  destruct (Z.eqb_spec (65535 * k) 0) as [E | E]; [lia|].
  replace ((65535 * k - 1) mod 65535) with 65534
    by (apply Z.mod_unique with (q := k - 1); lia).
  reflexivity.
Qed.

Lemma checksum_fold_verifies (s : Z) :
  0 <= s < 4294967296 -> checksum_fold (wrap32 (s + checksum_fold s)) = 0.
Proof.
  intros Hs. rewrite (checksum_fold_residue s Hs).
  destruct (complement_multiple s Hs) as (k & Hk & Ht).
  rewrite Ht. unfold wrap32. rewrite Z.mod_small by lia.
  rewrite checksum_fold_residue by lia.
  rewrite residue_multiple by lia. reflexivity.
Qed.

(** ** The checksum field *)

Lemma set_icmp_cksum_cons (e : endian) (v : Z) (b0 b1 c0 c1 : byte)
  (rest : list byte) :
  set_icmp_cksum e v (b0 :: b1 :: c0 :: c1 :: rest) =
    b0 :: b1 :: fst (store16 e v) :: snd (store16 e v) :: rest.
Proof.
  unfold set_icmp_cksum, poke16. destruct (store16 e v). reflexivity.
Qed.

(** With the field holding [v], the sum is the sum of the other words
    plus [v]. *)
Lemma checksum_sum_with_field (e : endian) (v : Z) (b0 b1 c0 c1 : byte)
  (rest : list byte) :
  0 <= v < 65536 ->
  checksum_sum e (set_icmp_cksum e v (b0 :: b1 :: c0 :: c1 :: rest)) 0 =
    wrap32 (load16 e b0 b1 + words_total e rest + v).
Proof.
  intros Hv. rewrite set_icmp_cksum_cons, checksum_sum_total by lia.
  cbn [words_total]. rewrite load16_store16 by exact Hv. f_equal. lia.
Qed.

Lemma length_poke8 (off : nat) (v : Z) (buf : list byte) :
  (off + 1 <= List.length buf)%nat ->
  List.length (poke8 off v buf) = List.length buf.
Proof.
  intros H. unfold poke8.
  rewrite length_app. cbn [List.length].
  rewrite length_firstn, length_skipn. lia.
Qed.

Lemma length_poke16 (e : endian) (off : nat) (v : Z) (buf : list byte) :
  (off + 2 <= List.length buf)%nat ->
  List.length (poke16 e off v buf) = List.length buf.
Proof.
  intros H. unfold poke16. destruct (store16 e v).
  rewrite length_app. cbn [List.length].
  rewrite length_firstn, length_skipn. lia.
Qed.

Lemma length_echo_request_fields (e : endian) (pid seq : Z) :
  List.length (echo_request_fields e pid seq) = 64%nat.
Proof.
  unfold echo_request_fields.
  set (p0 := repeat x00 (Z.to_nat PACKET_SIZE)).
  assert (H0 : List.length p0 = 64%nat) by apply repeat_length.
  set (p1 := poke8 0 ICMP_ECHO p0).
  assert (H1 : List.length p1 = 64%nat)
    by (unfold p1; rewrite length_poke8; lia).
  set (p2 := poke8 1 0 p1).
  assert (H2 : List.length p2 = 64%nat)
    by (unfold p2; rewrite length_poke8; lia).
  set (p3 := poke16 e 4 _ p2).
  assert (H3 : List.length p3 = 64%nat)
    by (unfold p3; rewrite length_poke16; lia).
  rewrite length_poke16; lia.
Qed.

Lemma length_echo_request (e : endian) (pid seq : Z) :
  List.length (echo_request e pid seq) = 64%nat.
Proof.
  pose proof (length_echo_request_fields e pid seq) as Hf.
  unfold echo_request, set_icmp_cksum.
  set (p := poke16 e 2 0 _).
  assert (Hp : List.length p = 64%nat)
    by (unfold p; rewrite length_poke16; lia).
  rewrite length_poke16; lia.
Qed.

(** C6.  A buffer whose checksum field (the 16-bit field at offset 2) was
    cleared, summed and then filled with that checksum sums to 0: this holds
    for every buffer that contains the field, on either byte order and also
    when the 32-bit accumulator wraps.  In particular the 64-byte echo
    request that [main] sends has checksum 0. *)
Theorem checksum_of_filled_buffer_is_zero (e : endian) :
  (forall buf : list byte,
      (4 <= List.length buf)%nat ->
      let cleared := set_icmp_cksum e 0 buf in
      checksum e (set_icmp_cksum e (checksum e cleared) cleared) = 0)
  /\ (forall pid seq : Z,
         List.length (echo_request e pid seq) = Z.to_nat PACKET_SIZE
         /\ checksum e (echo_request e pid seq) = 0).
Proof.
  assert (Hbuf : forall buf : list byte,
             (4 <= List.length buf)%nat ->
             checksum e (set_icmp_cksum e (checksum e (set_icmp_cksum e 0 buf))
                           (set_icmp_cksum e 0 buf)) = 0).
  { intros buf Hlen.
    destruct buf as [|b0 [|b1 [|c0 [|c1 rest]]]]; cbn [List.length] in Hlen;
      try lia.
    rewrite (set_icmp_cksum_cons e 0).
    set (cleared := b0 :: b1 :: fst (store16 e 0) :: snd (store16 e 0) :: rest).
    assert (Hsum : checksum_sum e cleared 0 =
                   wrap32 (load16 e b0 b1 + words_total e rest)).
    { unfold cleared. rewrite <- (set_icmp_cksum_cons e 0 b0 b1 c0 c1).
      rewrite checksum_sum_with_field by lia. f_equal. lia. }
    pose proof (checksum_sum_range e cleared) as Hrange.
    unfold checksum at 1. unfold cleared at 2.
    rewrite checksum_sum_with_field
      by (apply checksum_fold_range; exact Hrange).
    unfold checksum. rewrite Hsum in *.
    set (t := load16 e b0 b1 + words_total e rest) in *.
    replace (wrap32 (t + checksum_fold (wrap32 t)))
      with (wrap32 (wrap32 t + checksum_fold (wrap32 t)))
      by (unfold wrap32; rewrite Z.add_mod_idemp_l by lia; reflexivity).
    apply checksum_fold_verifies. exact Hrange. }
  split.
  - intros buf Hlen cleared. subst cleared. apply Hbuf, Hlen.
  - intros pid seq. split.
    + apply length_echo_request.
    + unfold echo_request. apply Hbuf.
      rewrite length_echo_request_fields. lia.
Qed.

Lemma checksum_of_filled_buffer_is_zero_witness :
  (4 <= List.length [x08; x00; xff; xff; x12; x34; x00; x01; x61])%nat
  /\ checksum LittleEndian
       (set_icmp_cksum LittleEndian
          (checksum LittleEndian
             (set_icmp_cksum LittleEndian 0
                [x08; x00; xff; xff; x12; x34; x00; x01; x61]))
          (set_icmp_cksum LittleEndian 0
             [x08; x00; xff; xff; x12; x34; x00; x01; x61])) = 0.
Proof.
  split.
  - simpl. lia.
  - apply (proj1 (checksum_of_filled_buffer_is_zero LittleEndian)
             [x08; x00; xff; xff; x12; x34; x00; x01; x61]).
    simpl. lia.
Defined.

(** ** The last byte of an odd-length buffer *)

Lemma odd_length_split (buf : list byte) :
  Nat.odd (List.length buf) = true ->
  buf = removelast buf ++ [last buf x00]
  /\ Nat.even (List.length (removelast buf)) = true.
Proof.
  intros Hodd.
  assert (Hne : buf <> []) by (intros ->; discriminate).
  pose proof (app_removelast_last x00 Hne) as Hsplit.
  split; [exact Hsplit|].
  rewrite Hsplit, length_app, Nat.add_1_r, Nat.odd_succ in Hodd.
  exact Hodd.
Qed.




(** On a little-endian host the sum is that of the buffer with a zero byte
    put before the last byte. *)
Lemma checksum_odd_length_little_endian (buf : list byte) :
  Nat.odd (List.length buf) = true ->
  checksum LittleEndian buf
  = checksum LittleEndian (removelast buf ++ [x00; last buf x00]).
Proof.
  intros Hodd. destruct (odd_length_split buf Hodd) as [Hsplit Heven].
  unfold checksum. f_equal. rewrite Hsplit at 1.
  rewrite !checksum_sum_total by lia.
  rewrite !words_total_app_even by exact Heven.
  cbn [words_total]. rewrite load16_value. change (u8 x00) with 0.
  f_equal. lia.
Qed.

(** ** Running a piece of code *)

Lemma outcome_bind {A B} (m : prog A) (k : A -> prog B) :
  outcome (bind m k) =
    match outcome m with
    | Next a => outcome (k a)
    | Continue why => Continue why
    | Break t ttl => Break t ttl
    | Return site code => Return site code
    | Fault off => Fault off
    | Pending => Pending
    end.
Proof.
  destruct m as [[a | why | t ttl | site code | off |] evs]; cbn;
    try reflexivity.
  destruct (k a); reflexivity.
Qed.

Lemma trace_bind {A B} (m : prog A) (k : A -> prog B) :
  trace (bind m k) =
    trace m ++ match outcome m with
               | Next a => trace (k a)
               | _ => []
               end.
Proof.
  destruct m as [[a | why | t ttl | site code | off |] evs]; cbn;
    rewrite ?app_nil_r; try reflexivity.
  destruct (k a); reflexivity.
Qed.

(** One step of a run: split a sequence, then compute what the first part
    gives. *)
Ltac run :=
  repeat (rewrite ?outcome_bind, ?trace_bind;
          cbn [outcome trace fst snd app ret emit continue_ break_ return_
                 gettimeofday]).

Ltac branch H :=
  run; unfold when at 1 2;
  match goal with
  | |- context [if ?c then _ else _] => destruct c eqn:H
  end; run.

Lemma load8_ok (buf : list byte) (off : Z) :
  0 <= off < Z.of_nat (List.length buf) ->
  load8 buf off = (Next (byte_at buf off), [Load off]).
Proof.
  intros H. unfold load8, byte_at.
  destruct (Z.ltb_spec off 0); [lia|].
  destruct (nth_error buf (Z.to_nat off)) as [b|] eqn:E.
  - rewrite (nth_error_nth _ _ _ E). reflexivity.
  - apply nth_error_None in E. lia.
Qed.

Lemma load16_at_ok (e : endian) (buf : list byte) (off : Z) :
  0 <= off -> off + 1 < Z.of_nat (List.length buf) ->
  exists w, load16_at e buf off = (Next w, [Load off; Load (off + 1)])
            /\ ntohs e w = be16_at buf off.
Proof.
  intros H0 H1. unfold load16_at, be16_at, byte_at.
  destruct (Z.ltb_spec off 0); [lia|].
  destruct (nth_error buf (Z.to_nat off)) as [b0|] eqn:E0.
  2:{ apply nth_error_None in E0. lia. }
  destruct (nth_error buf (Z.to_nat (off + 1))) as [b1|] eqn:E1.
  2:{ apply nth_error_None in E1. lia. }
  rewrite (nth_error_nth _ _ _ E0), (nth_error_nth _ _ _ E1).
  eexists. split; [reflexivity | apply ntohs_load16].
Qed.

Lemma header_length_code (buf : list byte) :
  Z.land (byte_at buf 0) 15 * 4 = header_length_of buf.
Proof.
  unfold header_length_of. change 15 with (Z.ones 4).
  rewrite Z.land_ones by lia. reflexivity.
Qed.

Lemma version_code (buf : list byte) :
  Z.shiftr (byte_at buf 0) 4 = byte_at buf 0 / 16.
Proof.
  rewrite Z.shiftr_div_pow2 by lia. reflexivity.
Qed.

(** ** The paths through the inspection of a datagram *)

Lemma locate_icmp_located (buf : list byte) :
  let recv_len := Z.of_nat (List.length buf) in
  located recv_len buf (outcome (locate_icmp recv_len buf))
    (trace (locate_icmp recv_len buf)).
Proof.
  intros recv_len. unfold locate_icmp, IPPROTO_ICMP, ICMP_HEADER_SIZE.
  branch Hlen; [constructor; lia|].
  rewrite load8_ok by (fold recv_len; lia). run.
  rewrite header_length_code, version_code.
  branch Hhl; [constructor; lia|].
  branch Hv; [apply LocatedIpVersion; lia|].
  rewrite load8_ok by (fold recv_len; lia). run.
  branch Hp; [apply LocatedProtocol; lia|].
  branch Hicmp; [apply LocatedShortIcmp; lia|].
  apply LocatedIcmp; lia.
Qed.

Lemma match_reply_compared (s : session) (buf : list byte) (hl from : Z)
  (et : timeval) :
  20 <= hl -> hl + 8 <= Z.of_nat (List.length buf) ->
  compared s buf hl from et (outcome (match_reply s buf hl from et))
    (trace (match_reply s buf hl from et)).
Proof.
  intros Hhl Hlen. unfold match_reply.
  destruct (load16_at_ok (host s) buf (hl + 4)) as (wid & Hid & Nid); try lia.
  destruct (load16_at_ok (host s) buf (hl + 6)) as (wseq & Hseq & Nseq); try lia.
  run. rewrite load8_ok by lia.
  branch Ht; [constructor; lia|].
  rewrite load8_ok by lia.
  branch Hc; [constructor; lia|].
  rewrite Hid. run. rewrite Nid.
  branch Hi; [constructor; lia|].
  rewrite Hseq. run. rewrite Nseq.
  branch Hs; [constructor; lia|].
  branch Ha; [constructor; lia|].
  rewrite load8_ok by lia. run.
  constructor; lia.
Qed.

Lemma wait_and_receive_waited (s : session) (it : iteration) :
  waited s it (outcome (wait_and_receive s it)) (trace (wait_and_receive s it)).
Proof.
  unfold wait_and_receive, leave, select.
  branch Hexp; [constructor; assumption|].
  branch Herr; [constructor; [assumption | lia]|].
  branch Hzero; [constructor; [assumption | lia]|].
  unfold recvfrom. destruct (received it) as [d|] eqn:Hrecv; run.
  - branch Hneg; [lia|]. constructor; [assumption | lia | assumption].
  - branch Hneg; [|lia]. constructor; [assumption | lia | assumption].
Qed.

Lemma loop_body_stepped (s : session) (it : iteration) :
  stepped s it (outcome (loop_body s it)) (trace (loop_body s it)).
Proof.
  unfold loop_body. run.
  pose proof (wait_and_receive_waited s it) as Hw.
  destruct Hw; cbn [fst snd].
  1-4: rewrite app_nil_r; constructor; constructor; assumption.
  unfold inspect. run.
  pose proof (locate_icmp_located datagram) as Hl. cbv zeta in Hl.
  remember (outcome (locate_icmp (Z.of_nat (List.length datagram)) datagram))
    as fl eqn:Efl.
  remember (trace (locate_icmp (Z.of_nat (List.length datagram)) datagram))
    as el eqn:Eel.
  assert (Hw : waited s it (Next (Z.of_nat (List.length datagram), datagram))
                 [Gettimeofday (now it);
                  Select (sockfd s) (time_remaining (deadline s) (now it))
                    (select_result it) (woke it);
                  Recvfrom (sockfd s) (Z.of_nat (List.length datagram))])
    by (constructor; assumption).
  destruct Hl.
  1-5: rewrite app_nil_r;
       match goal with
       | |- stepped _ _ _ (?a :: ?b :: ?c :: ?l) =>
           change (a :: b :: c :: l) with ([a; b; c] ++ l)
       end;
       eapply SteppedRejected; [exact Hw | constructor; assumption].
  match goal with
  | |- stepped _ _ _ (?a :: ?b :: ?c :: ?l) =>
      change (a :: b :: c :: l) with ([a; b; c] ++ l)
  end.
  eapply SteppedCompared; [exact Hw | constructor; assumption |].
  apply match_reply_compared; lia.
Qed.

Lemma stepped_outcome (s : session) (it : iteration) (f : flow unit)
  (evs : list event) :
  stepped s it f evs ->
  (exists why, f = Continue why) \/ (exists t ttl, f = Break t ttl)
  \/ (exists site code, f = Return site code).
Proof.
  intros H. destruct H as [site code evs Hw | d why evs1 evs2 Hw Hl
                          | d f evs1 evs2 evs3 Hw Hl Hc].
  - right; right; eauto.
  - left; eauto.
  - destruct Hc; [left; eauto .. | right; left; eauto].
Qed.

Lemma recv_loop_looped (s : session) (its : list iteration) :
  looped s its (outcome (recv_loop s its)) (trace (recv_loop s its)).
Proof.
  induction its as [|it rest IH]; cbn [recv_loop].
  - constructor.
  - pose proof (loop_body_stepped s it) as Hs.
    destruct (stepped_outcome _ _ _ _ Hs) as [(why & E) | [(t & ttl & E) | (site & code & E)]];
      destruct (loop_body s it) as [f evs]; cbn [outcome trace fst snd] in *; subst f.
    + destruct (recv_loop s rest) as [f' evs']. cbn [outcome trace fst snd] in *.
      econstructor; eassumption.
    + constructor; assumption.
    + constructor; assumption.
Qed.

(** ** One iteration, and the loop around it *)

(** The paths through [inspect]: the header checks, then the comparison. *)
Lemma inspect_paths (s : session) (buf : list byte) (from : Z) (et : timeval) :
  let recv_len := Z.of_nat (List.length buf) in
  let run := inspect s recv_len buf from et in
  (exists why, located recv_len buf (Continue why) (trace run)
               /\ outcome run = Continue why)
  \/ (exists evs,
         located recv_len buf (Next (header_length_of buf)) [Load 0; Load 9]
         /\ compared s buf (header_length_of buf) from et (outcome run) evs
         /\ trace run = [Load 0; Load 9] ++ evs).
Proof.
  intros recv_len run. subst run. unfold inspect. run.
  pose proof (locate_icmp_located buf) as Hl. cbv zeta in Hl.
  fold recv_len in Hl |- *.
  remember (outcome (locate_icmp recv_len buf)) as fl eqn:Efl.
  remember (trace (locate_icmp recv_len buf)) as el eqn:Eel.
  destruct Hl.
  1-5: left; eexists; rewrite app_nil_r; split;
       [constructor; assumption | reflexivity].
  right. eexists. split; [constructor; assumption|].
  split; [|reflexivity].
  apply match_reply_compared; lia.
Qed.

Lemma loop_body_on_datagram (s : session) (it : iteration) (d : list byte) :
  expired (time_remaining (deadline s) (now it)) = false ->
  0 < select_result it ->
  received it = Some d ->
  let run := inspect s (Z.of_nat (List.length d)) d (recv_addr it) (end_time it) in
  outcome (loop_body s it) = outcome run
  /\ trace (loop_body s it) =
       [Gettimeofday (now it);
        Select (sockfd s) (time_remaining (deadline s) (now it))
          (select_result it) (woke it);
        Recvfrom (sockfd s) (Z.of_nat (List.length d))] ++ trace run.
Proof.
  intros Hexp Hsel Hrecv run. subst run. unfold loop_body. run.
  pose proof (wait_and_receive_waited s it) as Hw.
  destruct Hw; try congruence; try lia.
  assert (datagram = d) by congruence. subst datagram.
  cbn [fst snd]. split; reflexivity.
Qed.

Lemma recv_loop_continue (s : session) (it : iteration)
  (rest : list iteration) (why : skip) :
  outcome (loop_body s it) = Continue why ->
  outcome (recv_loop s (it :: rest)) = outcome (recv_loop s rest)
  /\ trace (recv_loop s (it :: rest)) =
       trace (loop_body s it) ++ trace (recv_loop s rest).
Proof.
  intros H. cbn [recv_loop].
  destruct (loop_body s it) as [f evs]. cbn [outcome fst] in H. subst f.
  destruct (recv_loop s rest) as [f' evs']. split; reflexivity.
Qed.

Lemma recv_loop_break (s : session) (it : iteration)
  (rest : list iteration) (t : timeval) (ttl : Z) :
  outcome (loop_body s it) = Break t ttl ->
  outcome (recv_loop s (it :: rest)) = Next (t, ttl)
  /\ trace (recv_loop s (it :: rest)) = trace (loop_body s it).
Proof.
  intros H. cbn [recv_loop].
  destruct (loop_body s it) as [f evs]. cbn [outcome fst] in H. subst f.
  split; reflexivity.
Qed.

Lemma recv_loop_return (s : session) (it : iteration)
  (rest : list iteration) (site : exit_site) (code : Z) :
  outcome (loop_body s it) = Return site code ->
  outcome (recv_loop s (it :: rest)) = Return site code
  /\ trace (recv_loop s (it :: rest)) = trace (loop_body s it).
Proof.
  intros H. cbn [recv_loop].
  destruct (loop_body s it) as [f evs]. cbn [outcome fst] in H. subst f.
  split; reflexivity.
Qed.

(** The parser of the specification and the header checks of the code
    decide alike. *)
Lemma parse_reply_located (buf : list byte) (from : Z) (f : flow Z)
  (evs : list event) :
  located (Z.of_nat (List.length buf)) buf f evs ->
  match parse_reply buf (Z.of_nat (List.length buf)) from with
  | inr r => exists why, f = Continue why /\ reject_of why = Some r
  | inl p =>
      f = Next (header_length_of buf)
      /\ p = fields_of buf from
      /\ 20 <= header_length_of buf
      /\ header_length_of buf + 8 <= Z.of_nat (List.length buf)
  end.
Proof.
  intros Hl. unfold parse_reply.
  destruct Hl;
    repeat match goal with
      | |- context [if ?c then _ else _] =>
          let E := fresh "E" in destruct c eqn:E; try lia
      end; try (eexists; split; reflexivity).
  repeat split; try lia.
  unfold fields_of, be16_at.
  replace (header_length_of buf + 4 + 1) with (header_length_of buf + 5) by lia.
  replace (header_length_of buf + 6 + 1) with (header_length_of buf + 7) by lia.
  reflexivity.
Qed.

Lemma compared_matches (s : session) (buf : list byte) (from : Z)
  (et : timeval) (f : flow unit) (evs : list event) :
  compared s buf (header_length_of buf) from et f evs ->
  (matches s (fields_of buf from)
   /\ f = Break et (reply_ttl (fields_of buf from)))
  \/ (~ matches s (fields_of buf from)
      /\ exists why, f = Continue why /\ reject_of why = None).
Proof.
  intros Hc. unfold matches, fields_of.
  cbn [reply_type reply_code reply_identifier reply_sequence reply_source
         reply_ttl].
  destruct Hc.
  1-5: right; split; [tauto | eexists; split; reflexivity].
  left. tauto.
Qed.

(** What [inspect] gives, from what the parser of the specification says
    of the datagram. *)
Lemma inspect_parse_reply (s : session) (buf : list byte) (from : Z)
  (et : timeval) :
  let recv_len := Z.of_nat (List.length buf) in
  match parse_reply buf recv_len from with
  | inr r =>
      exists why,
        outcome (locate_icmp recv_len buf) = Continue why
        /\ outcome (inspect s recv_len buf from et) = Continue why
        /\ reject_of why = Some r
  | inl p =>
      outcome (locate_icmp recv_len buf) = Next (header_length_of buf)
      /\ ((matches s p
           /\ outcome (inspect s recv_len buf from et) = Break et (reply_ttl p))
          \/ (~ matches s p
              /\ exists why,
                  outcome (inspect s recv_len buf from et) = Continue why
                  /\ reject_of why = None))
  end.
Proof.
  intros recv_len.
  pose proof (locate_icmp_located buf) as Hl. cbv zeta in Hl.
  pose proof (parse_reply_located buf from _ _ Hl) as Hp.
  fold recv_len in Hl, Hp.
  unfold inspect. rewrite outcome_bind.
  destruct (parse_reply buf recv_len from) as [p | r].
  - destruct Hp as (Ho & -> & Hhl & Hlen). rewrite Ho.
    split; [reflexivity|].
    apply compared_matches with (evs := trace (match_reply s buf
      (header_length_of buf) from et)).
    apply match_reply_compared; assumption.
  - destruct Hp as (why & Ho & Hr). rewrite Ho.
    exists why. repeat split; assumption.
Qed.

(** C5.  The header checks of the loop reject a datagram exactly where the
    parser of the specification does, each [continue] standing for the
    rejection the specification names: fewer than 20 bytes, a header length
    (low nibble of the first byte times 4) outside 20..60, a version other
    than 4, a protocol other than 1, fewer than header length + 8 bytes.
    Otherwise the ICMP header is located and the fields of the reply are
    those the code goes on to compare.  A rejection is a [continue]: the
    loop goes round again with the next answer of the system. *)
Theorem malformed_datagrams_are_skipped (s : session) (buf : list byte)
  (from : Z) (et : timeval) :
  let recv_len := Z.of_nat (List.length buf) in
  match parse_reply buf recv_len from with
  | inr r =>
      exists why,
        outcome (locate_icmp recv_len buf) = Continue why
        /\ outcome (inspect s recv_len buf from et) = Continue why
        /\ reject_of why = Some r
  | inl p =>
      outcome (locate_icmp recv_len buf) = Next (header_length_of buf)
      /\ header_length_of buf = Z.land (byte_at buf 0) 15 * 4
      /\ p = fields_of buf from
      /\ ((matches s p
           /\ outcome (inspect s recv_len buf from et) = Break et (reply_ttl p))
          \/ (~ matches s p
              /\ exists why,
                  outcome (inspect s recv_len buf from et) = Continue why
                  /\ reject_of why = None))
  end
  /\ (forall it rest why,
         outcome (loop_body s it) = Continue why ->
         outcome (recv_loop s (it :: rest)) = outcome (recv_loop s rest)).
Proof.
  intros recv_len. split.
  2:{ intros it rest why H. apply (recv_loop_continue s it rest why H). }
  pose proof (inspect_parse_reply s buf from et) as H. cbv zeta in H.
  pose proof (locate_icmp_located buf) as Hl. cbv zeta in Hl.
  pose proof (parse_reply_located buf from _ _ Hl) as Hp.
  fold recv_len in H, Hp.
  destruct (parse_reply buf recv_len from) as [p | r]; [|exact H].
  destruct H as [Ho Hm]. destruct Hp as (_ & Hf & _).
  repeat split; try assumption.
  symmetry. apply header_length_code.
Qed.

(** C1.  A datagram that passes the parser is accepted exactly when its
    type is Echo Reply, its code 0, its identifier (big-endian on the wire)
    the process id masked to 16 bits, its sequence the requested one and
    its sender the resolved target.  Accepted, the iteration breaks out of
    the loop with the end time and the TTL of the IP header and the loop
    stops; with any of the five different, the iteration is a [continue]
    and the loop goes on with the next answer of the system. *)
Theorem reply_accepted_iff_all_five_match (s : session) (it : iteration)
  (rest : list iteration) (buf : list byte) (p : ParsedReply) :
  expired (time_remaining (deadline s) (now it)) = false ->
  0 < select_result it ->
  received it = Some buf ->
  parse_reply buf (Z.of_nat (List.length buf)) (recv_addr it) = inl p ->
  (outcome (loop_body s it) = Break (end_time it) (reply_ttl p)
   <-> reply_type p = ICMP_ECHOREPLY
       /\ reply_code p = 0
       /\ reply_identifier p = expected_id s
       /\ reply_sequence p = expected_seq s
       /\ reply_source p = expected_addr s)
  /\ (outcome (loop_body s it) = Break (end_time it) (reply_ttl p) ->
      outcome (recv_loop s (it :: rest)) = Next (end_time it, reply_ttl p))
  /\ (outcome (loop_body s it) <> Break (end_time it) (reply_ttl p) ->
      (exists why, outcome (loop_body s it) = Continue why)
      /\ outcome (recv_loop s (it :: rest)) = outcome (recv_loop s rest))
  /\ (forall w, expected_id (session_of w) = Z.land (pid w) 65535).
Proof.
  intros Hexp Hsel Hrecv Hparse.
  destruct (loop_body_on_datagram s it buf Hexp Hsel Hrecv) as [Ho _].
  pose proof (inspect_parse_reply s buf (recv_addr it) (end_time it)) as H.
  cbv zeta in H. rewrite Hparse in H. destruct H as [_ Hm].
  rewrite <- Ho in Hm. fold (matches s p).
  split; [split | split; [| split]].
  - intros Hb. destruct Hm as [[Hm _] | [_ (why & E & _)]]; [exact Hm|].
    congruence.
  - intros Hyes. destruct Hm as [[_ Hb] | [Hno _]]; [exact Hb | contradiction].
  - intros Hb. apply (recv_loop_break s it rest _ _ Hb).
  - intros Hnb. destruct Hm as [[_ Hb] | [_ (why & E & _)]]; [contradiction|].
    split; [eauto|]. apply (recv_loop_continue s it rest why E).
  - intros w. unfold session_of. cbn [expected_id]. unfold wrap16.
    apply Z.mod_small. change 65535 with (Z.ones 16).
    rewrite Z.land_ones by lia. apply Z.mod_pos_bound. lia.
Qed.

(** C10.  Whatever bytes arrive and however many, inspecting the datagram
    reads only inside it: every offset read is below the received length;
    nothing is read of a datagram shorter than 20 bytes; the offsets read
    are 0, 9 and 8 of the IP header, and offsets of the 8-byte ICMP header
    at the header length, these only when the received length is at least
    header length + 8.  The inspection always ends in a [continue] or in
    the [break] of a match: a read outside the datagram does not occur. *)
Theorem reads_stay_inside_datagram (s : session) (buf : list byte)
  (from : Z) (et : timeval) :
  let recv_len := Z.of_nat (List.length buf) in
  let run := inspect s recv_len buf from et in
  ((exists why, outcome run = Continue why)
   \/ (exists ttl, outcome run = Break et ttl))
  /\ (forall off, outcome run <> Fault off)
  /\ (forall off,
         In (Load off) (trace run) ->
         0 <= off < recv_len
         /\ 20 <= recv_len
         /\ (off = 0 \/ off = 8 \/ off = 9
             \/ (let ip_header_len := Z.land (byte_at buf 0) 15 * 4 in
                 20 <= ip_header_len <= off
                 /\ off < ip_header_len + 8
                 /\ ip_header_len + 8 <= recv_len))).
Proof.
  intros recv_len run.
  assert (Hends : (exists why, outcome run = Continue why)
                  \/ (exists ttl, outcome run = Break et ttl)).
  { destruct (inspect_paths s buf from et) as [(why & _ & Ho) | (evs & _ & Hc & _)].
    - left. eauto.
    - fold recv_len run in Hc. destruct Hc; eauto. }
  split; [exact Hends|]. split.
  { intros off E. destruct Hends as [[why H] | [ttl H]]; congruence. }
  intros off Hin. cbv zeta. rewrite header_length_code.
  destruct (inspect_paths s buf from et) as [(why & Hl & _) | (evs & Hl & Hc & Ht)];
    fold recv_len run in Hl.
  - inversion Hl as [Hc E1 E2 | Hc1 Hc2 E1 E2 | Hc1 Hc2 Hc3 E1 E2
                    | Hc1 Hc2 Hc3 Hc4 E1 E2 | Hc1 Hc2 Hc3 Hc4 Hc5 E1 E2
                    | Hc1 Hc2 Hc3 Hc4 Hc5 E1 E2];
      rewrite <- E2 in Hin; cbn [In] in Hin;
      repeat match goal with
        | H : _ \/ _ |- _ => destruct H
        | H : Load _ = Load _ |- _ => injection H as <-
        | H : False |- _ => contradiction
        end; lia.
  - fold recv_len run in Hc, Ht. rewrite Ht in Hin.
    inversion Hl as [ | | | | | Hc1 Hc2 Hc3 Hc4 Hc5 E1 E2].
    destruct Hc; cbn [In app] in Hin;
      repeat match goal with
        | H : _ \/ _ |- _ => destruct H
        | H : Load _ = Load _ |- _ => injection H as <-
        | H : _ = Load _ |- _ => discriminate H
        | H : False |- _ => contradiction
        end; lia.
Qed.

(** ** The paths through main *)

Lemma parse_icmp_seq_paths (w : world) :
  let seq_ok :=
    if argc w =? 4
    then negb (endptr_at_start (seq_arg w) || negb (endptr_at_nul (seq_arg w)))
         && negb (erange (seq_arg w) || (value (seq_arg w) <? 0)
                  || (65535 <? value (seq_arg w)))
    else true in
  (exists site code msg,
      In (site, code) [(AtSeqNotInteger, 2); (AtSeqRange, 2)]
      /\ seq_ok = false
      /\ outcome (parse_icmp_seq w) = Return site code
      /\ trace (parse_icmp_seq w) = [Stderr msg])
  \/ (seq_ok = true
      /\ outcome (parse_icmp_seq w) = Next (expected_seq (session_of w))
      /\ trace (parse_icmp_seq w) = []).
Proof.
  unfold parse_icmp_seq, session_of. cbn [expected_seq].
  destruct (argc w =? 4) eqn:Hargc; cbv zeta.
  - branch Hint.
    { left. exists AtSeqNotInteger, 2. eexists. split; [cbn; auto|].
      split; [reflexivity | split; reflexivity]. }
    branch Hrange.
    { left. exists AtSeqRange, 2. eexists. split; [cbn; auto|].
      split; [apply andb_false_r | split; reflexivity]. }
    right. split; [reflexivity | split; reflexivity].
  - right. split; [reflexivity | split; reflexivity].
Qed.

(** A condition of the setup that fails makes [setup_ok] false. *)
Ltac setup_fails :=
  unfold setup_ok, args_ok;
  repeat match goal with
    | H : _ = true |- _ => rewrite H
    | H : _ = false |- _ => rewrite H
    end;
  cbn [andb negb orb]; rewrite ?andb_false_r; reflexivity.

Lemma main_ran (w : world) : ran w (outcome (main w)) (trace (main w)).
Proof.
  unfold main.
  branch Hargc. { eapply RanArguments; [setup_fails | cbn; auto]. }
  branch Hint. { eapply RanArguments; [setup_fails | cbn; auto 10]. }
  branch Herange. { eapply RanArguments; [setup_fails | cbn; auto 10]. }
  branch Hpos. { eapply RanArguments; [setup_fails | cbn; auto 10]. }
  branch Hlarge. { eapply RanArguments; [setup_fails | cbn; auto 10]. }
  destruct (parse_icmp_seq_paths w)
    as [(site & code & msg & Hin & Hseq & Ho & Ht) | (Hseq & Ho & Ht)];
    cbv zeta in Hseq; rewrite Ho, Ht.
  { cbn [app]. eapply RanArguments; [setup_fails|].
    cbn in Hin |- *. intuition auto 10. }
  unfold getaddrinfo, socket, connect, setsockopt, sendto. cbn [app].
  branch Hres. { apply RanResolve. apply negb_true_iff in Hres. setup_fails. }
  apply negb_false_iff in Hres.
  branch Hsock. { apply RanSocket; [setup_fails | lia]. }
  branch Hconn. { apply RanConnect; [setup_fails | lia]. }
  assert (Hsetup : setup_ok w = true ->
    ran w (outcome (finish w (outcome (recv_loop (session_of w) (arrivals w)))))
      (setup_trace w
       ++ trace (recv_loop (session_of w) (arrivals w))
       ++ trace (finish w (outcome (recv_loop (session_of w) (arrivals w))))))
    by apply RanLoop.
  assert (Hsend : (sendto_result w <? 0) = true ->
    ran w (Return AtSendto 5)
      (setup_trace w
       ++ [Stderr "Error: sendto failed"; Close (socket_result w); Freeaddrinfo])).
  { intros Hsent. apply RanSendto; [setup_fails | lia]. }
  unfold setup_ok, args_ok in Hsetup.
  rewrite Hargc, Hint, Herange, Hpos, Hlarge, Hseq, Hres, Hsock, Hconn in Hsetup.
  cbn [negb andb] in Hsetup.
  unfold setup_trace in *.
  destruct (rcvbuf_result w <? 0) eqn:Hbuf;
    destruct (icmp_filter_result w) as [result|] eqn:Hfilter;
    try destruct (result <? 0) eqn:Hfiltered;
    destruct (sendto_result w <? 0) eqn:Hsent;
    unfold when; run; unfold when; run;
    rewrite ?Hsent, ?Hfiltered; run; cbn [app] in Hsend, Hsetup.
  all: try exact (Hsend eq_refl).
  all: specialize (Hsetup eq_refl).
  all: unfold finish in Hsetup.
  all: change (session_of w) with
         {| host := host_order w;
            sockfd := socket_result w;
            deadline := compute_deadline (start_time w) (value (timeout_arg w));
            expected_id := wrap16 (Z.land (pid w) 65535);
            expected_seq := expected_seq (session_of w);
            expected_addr := dest_addr w |} in Hsetup.
  all: destruct (recv_loop _ (arrivals w))
         as [[[t ttl] | why | t ttl | site code | off |] evs];
    cbn [outcome trace fst snd] in *; run;
    rewrite ?app_nil_r; rewrite ?app_nil_r in Hsetup; exact Hsetup.
Qed.

(** ** Exit codes *)

Lemma looped_exit (s : session) (its : list iteration)
  (f : flow (timeval * Z)) (evs : list event) :
  looped s its f evs ->
  match f with
  | Return site code =>
      In (site, code)
        [(AtDeadlinePassed, 7); (AtSelectError, 6); (AtSelectTimeout, 7);
         (AtRecvfrom, 8)]
  | Next _ | Pending => True
  | _ => False
  end.
Proof.
  induction 1 as [| it rest why evs f evs' Hs Hl IH | it rest t ttl evs Hs
                  | it rest site code evs Hs]; try exact I; try exact IH.
  inversion Hs as [site' code' evs' Hw | | d f evs1 evs2 evs3 Hw Hl Hc];
    subst.
  - inversion Hw; cbn; auto.
  - inversion Hc.
Qed.

Lemma main_exit_code (w : world) (site : exit_site) (code : Z) :
  outcome (main w) = Return site code -> code = exit_code site.
Proof.
  intros Ho. pose proof (main_ran w) as Hr. rewrite Ho in Hr.
  inversion Hr as [site' code' msg Hno Hin | | | | | Hok Hf Ht]; subst;
    try reflexivity.
  - cbn in Hin.
    repeat match goal with
      | H : _ \/ _ |- _ => destruct H
      | H : (_, _) = (_, _) |- _ => injection H as <- <-
      | H : False |- _ => contradiction
      end; reflexivity.
  - pose proof (looped_exit _ _ _ _ (recv_loop_looped (session_of w) (arrivals w)))
      as Hloop.
    destruct (outcome (recv_loop (session_of w) (arrivals w)))
      as [[t ttl] | why | t ttl | site' code' | off |];
      cbn in Hf; try discriminate; try contradiction.
    + injection Hf as <- <-. reflexivity.
    + injection Hf as <- <-. cbn in Hloop.
      repeat match goal with
        | H : _ \/ _ |- _ => destruct H
        | H : (_, _) = (_, _) |- _ => injection H as <- <-
        | H : False |- _ => contradiction
        end; reflexivity.
Qed.

(** C8.  Two runs that fail with different kinds among bad arguments,
    resolution failure, socket-create failure, send failure, wait failure,
    receive failure and timeout exit with different codes, and neither code
    is the 0 of success.  The failure of [connect], which is none of these
    kinds, exits with 4 like the failure of [socket], and so with a code
    that differs from those of the six other kinds. *)
Theorem failure_kinds_have_distinct_exit_codes (w1 w2 : world)
  (site1 site2 : exit_site) (code1 code2 : Z) (kind2 : failure) :
  outcome (main w1) = Return site1 code1 ->
  outcome (main w2) = Return site2 code2 ->
  failure_of site2 = Some kind2 ->
  (forall kind1,
      failure_of site1 = Some kind1 ->
      kind1 <> kind2 ->
      code1 <> code2 /\ code1 <> 0 /\ code2 <> 0)
  /\ (site1 = AtConnect ->
      code1 = 4 /\ (kind2 <> SocketCreateFailed -> code1 <> code2)).
Proof.
  intros H1 H2 K2.
  apply main_exit_code in H1, H2. subst code1 code2.
  split.
  - intros kind1 K1 Hne.
    destruct site1, site2; cbn in K1, K2 |- *;
      try discriminate; injection K1 as <-; injection K2 as <-;
      try (exfalso; apply Hne; reflexivity); lia.
  - intros ->. split; [reflexivity|]. intros Hne.
    destruct site2; cbn in K2 |- *; try discriminate; injection K2 as <-;
      try (exfalso; apply Hne; reflexivity); lia.
Qed.

(** ** The socket is closed once *)

Lemma closes_app (a b : list event) : closes (a ++ b) = closes a ++ closes b.
Proof. apply flat_map_app. Qed.

Lemma socket_opened_app (a b : list event) :
  socket_opened (a ++ b) = socket_opened a || socket_opened b.
Proof. apply existsb_app. Qed.

(** An iteration that leaves closes the socket as its last act on it; one
    that goes on or matches closes nothing. *)
Lemma stepped_closes (s : session) (it : iteration) (f : flow unit)
  (evs : list event) :
  stepped s it f evs ->
  match f with
  | Return _ _ =>
      exists pre, evs = pre ++ [Close (sockfd s); Freeaddrinfo]
                  /\ closes pre = []
  | _ => closes evs = []
  end.
Proof.
  intros Hs.
  destruct Hs as [site code evs Hw | d why evs1 evs2 Hw Hl
                 | d f evs1 evs2 evs3 Hw Hl Hc].
  - inversion Hw; subst.
    + exists [Gettimeofday (now it)]. split; reflexivity.
    + eexists [_; _; _]. split; reflexivity.
    + eexists [_; _]. split; reflexivity.
    + eexists [_; _; _; _]. split; reflexivity.
  - inversion Hw; subst. inversion Hl; subst; reflexivity.
  - inversion Hw; subst. inversion Hl; subst. destruct Hc; reflexivity.
Qed.

Lemma looped_closes (s : session) (its : list iteration)
  (f : flow (timeval * Z)) (evs : list event) :
  looped s its f evs ->
  match f with
  | Return _ _ =>
      exists pre, evs = pre ++ [Close (sockfd s); Freeaddrinfo]
                  /\ closes pre = []
  | _ => closes evs = []
  end.
Proof.
  induction 1 as [| it rest why evs f evs' Hs Hl IH | it rest t ttl evs Hs
                  | it rest site code evs Hs].
  - reflexivity.
  - pose proof (stepped_closes _ _ _ _ Hs) as Hc. cbn in Hc.
    destruct f as [a | why' | t ttl | site code | off |];
      try (rewrite closes_app, Hc, IH; reflexivity).
    destruct IH as (pre & -> & Hpre).
    exists (evs ++ pre). rewrite closes_app, Hc, Hpre, app_assoc.
    split; reflexivity.
  - apply (stepped_closes _ _ _ _ Hs).
  - apply (stepped_closes _ _ _ _ Hs).
Qed.

Lemma closes_setup_trace (w : world) : closes (setup_trace w) = [].
Proof.
  unfold setup_trace.
  destruct (rcvbuf_result w <? 0); destruct (icmp_filter_result w) as [r|];
    try destruct (r <? 0); reflexivity.
Qed.

Lemma socket_opened_setup_trace (w : world) :
  socket_opened (setup_trace w) = (0 <=? socket_result w).
Proof.
  unfold setup_trace.
  destruct (rcvbuf_result w <? 0); destruct (icmp_filter_result w) as [r|];
    try destruct (r <? 0); cbn; rewrite ?orb_false_r; reflexivity.
Qed.

(** C9.  A run that ends after [socket] gave a descriptor ends at the
    failure of [connect] or [sendto], at a timeout (before the wait or by
    it), at the failure of [select] or [recvfrom], or at success; on each of
    these the descriptor is closed exactly once, by the last call made on
    it.  A run that ends without a descriptor closes nothing. *)
Theorem socket_closed_exactly_once (w : world) (site : exit_site) (code : Z) :
  outcome (main w) = Return site code ->
  if socket_opened (trace (main w))
  then In site [AtConnect; AtSendto; AtDeadlinePassed; AtSelectError;
                AtSelectTimeout; AtRecvfrom; AtSuccess]
       /\ closes (trace (main w)) = [socket_result w]
       /\ exists pre,
           trace (main w) = pre ++ [Close (socket_result w); Freeaddrinfo]
           /\ closes pre = []
  else closes (trace (main w)) = [].
Proof.
  assert (Hlast : forall pre tr,
             tr = pre ++ [Close (socket_result w); Freeaddrinfo] ->
             closes pre = [] -> closes tr = [socket_result w])
    by (intros pre tr -> Hpre; rewrite closes_app, Hpre; reflexivity).
  destruct (main_ran w) as [site' code' msg Hno Hin | msg Hno | msg note Hno Hs
                           | msg Hno Hs | msg Hno Hs | Hok]; intros Ho.
  - reflexivity.
  - reflexivity.
  - cbn. replace (0 <=? socket_result w) with false by lia. reflexivity.
  - injection Ho as <- <-.
    cbn [socket_opened existsb]. replace (0 <=? socket_result w) with true by lia.
    cbn [orb]. split; [cbn; auto|]. split; [reflexivity|].
    eexists [_; _; _; _]. split; reflexivity.
  - injection Ho as <- <-.
    rewrite socket_opened_app, socket_opened_setup_trace.
    replace (0 <=? socket_result w) with true by lia. cbn [orb].
    split; [cbn; auto|].
    assert (Hpre : closes (setup_trace w ++ [Stderr msg]) = [])
      by (rewrite closes_app, closes_setup_trace; reflexivity).
    split.
    + eapply Hlast; [|exact Hpre]. rewrite <- app_assoc. reflexivity.
    + eexists. split; [|exact Hpre]. rewrite <- app_assoc. reflexivity.
  - rename Ho into Hf.
    rewrite socket_opened_app, socket_opened_setup_trace.
    unfold setup_ok in Hok.
    replace (0 <=? socket_result w) with true by lia. cbn [orb].
    pose proof (recv_loop_looped (session_of w) (arrivals w)) as Hloop.
    pose proof (looped_exit _ _ _ _ Hloop) as Hexit.
    pose proof (looped_closes _ _ _ _ Hloop) as Hcl.
    destruct (outcome (recv_loop (session_of w) (arrivals w)))
      as [[t ttl] | why | t ttl | site' code' | off |];
      cbn in Hf; try discriminate; try contradiction.
    + injection Hf as <- <-. cbn [finish trace snd].
      split; [cbn; auto 10|].
      set (pre := setup_trace w ++ trace (recv_loop (session_of w) (arrivals w))
                  ++ [Printf (rtt_usec_of (start_time w) t) ttl]).
      assert (Hpre : closes pre = []).
      { unfold pre. rewrite !closes_app, closes_setup_trace, Hcl. reflexivity. }
      assert (Heq : setup_trace w ++ trace (recv_loop (session_of w) (arrivals w))
                    ++ [Printf (rtt_usec_of (start_time w) t) ttl;
                        Close (socket_result w); Freeaddrinfo]
                    = pre ++ [Close (socket_result w); Freeaddrinfo]).
      { unfold pre. rewrite <- !app_assoc. reflexivity. }
      split; [exact (Hlast _ _ Heq Hpre) | exists pre; split; assumption].
    + injection Hf as <- <-. cbn [finish trace snd]. rewrite app_nil_r.
      split.
      { cbn in Hexit |- *.
        repeat match goal with
          | H : _ \/ _ |- _ => destruct H
          | H : (_, _) = (_, _) |- _ => injection H as <- <-
          | H : False |- _ => contradiction
          end; auto 10. }
      destruct Hcl as (pre & Hpre & Hnone). cbn [sockfd session_of] in Hpre.
      assert (Hpre' : closes (setup_trace w ++ pre) = [])
        by (rewrite closes_app, closes_setup_trace, Hnone; reflexivity).
      assert (Heq : setup_trace w ++ trace (recv_loop (session_of w) (arrivals w))
                    = (setup_trace w ++ pre)
                        ++ [Close (socket_result w); Freeaddrinfo])
        by (rewrite Hpre, app_assoc; reflexivity).
      split; [exact (Hlast _ _ Heq Hpre') | eexists; split; eassumption].
Qed.

(** ** Deadline and remaining time *)

Lemma compute_deadline_usec (start : timeval) (timeout_ms : Z) :
  timeval_ok start -> 0 <= timeout_ms ->
  usec_of (compute_deadline start timeout_ms)
  = usec_of start + 1000 * timeout_ms
  /\ timeval_ok (compute_deadline start timeout_ms).
Proof.
  unfold timeval_ok, compute_deadline, usec_of. intros Hs Ht.
  rewrite Z.quot_div_nonneg, Z.rem_mod_nonneg by lia.
  pose proof (Z.div_mod timeout_ms 1000 ltac:(lia)) as Hdm.
  pose proof (Z.mod_pos_bound timeout_ms 1000 ltac:(lia)) as Hm.
  destruct (1000000 <=? _) eqn:E; cbn [tv_sec tv_usec]; lia.
Qed.

Section Remaining.

Variables d n : timeval.
Hypothesis d_ok : timeval_ok d.
Hypothesis n_ok : timeval_ok n.

Lemma time_remaining_usec :
  usec_of (time_remaining d n) = usec_of d - usec_of n
  /\ timeval_ok (time_remaining d n).
Proof.
  unfold timeval_ok, time_remaining, usec_of in *.
  destruct (_ <? 0) eqn:E; cbn [tv_sec tv_usec]; lia.
Qed.

Lemma expired_iff :
  expired (time_remaining d n) = true <-> usec_of d <= usec_of n.
Proof.
  destruct time_remaining_usec as [Hu Hok].
  unfold expired. unfold usec_of, timeval_ok in *. lia.
Qed.

Lemma not_expired_positive :
  expired (time_remaining d n) = false ->
  usec_of n + usec_of (time_remaining d n) = usec_of d
  /\ 0 <= tv_sec (time_remaining d n)
  /\ 0 <= tv_usec (time_remaining d n) < 1000000
  /\ 0 < usec_of (time_remaining d n).
Proof.
  intros He. destruct time_remaining_usec as [Hu Hok].
  unfold expired in He. unfold usec_of, timeval_ok in *. lia.
Qed.

End Remaining.

(** C4.  For a deadline and a reading of the clock, both normalised, the
    loop leaves with a timeout before waiting exactly when the reading is
    at or past the deadline; otherwise the remaining time is the deadline
    minus the reading, with a second borrowed when the microseconds of the
    deadline are below those of the reading, and the duration given to
    [select] has no negative field. *)
Theorem remaining_time_is_deadline_minus_now (s : session) (it : iteration) :
  timeval_ok (deadline s) ->
  timeval_ok (now it) ->
  let remaining := time_remaining (deadline s) (now it) in
  (expired remaining = true <-> usec_of (deadline s) <= usec_of (now it))
  /\ (outcome (loop_body s it) = Return AtDeadlinePassed 7
      <-> expired remaining = true)
  /\ (expired remaining = false ->
      usec_of remaining = usec_of (deadline s) - usec_of (now it)
      /\ 0 <= tv_sec remaining)
  /\ 0 <= tv_usec remaining < 1000000
  /\ (tv_usec (deadline s) < tv_usec (now it) ->
      tv_sec remaining = tv_sec (deadline s) - tv_sec (now it) - 1
      /\ tv_usec remaining
         = tv_usec (deadline s) - tv_usec (now it) + 1000000)
  /\ (tv_usec (now it) <= tv_usec (deadline s) ->
      tv_sec remaining = tv_sec (deadline s) - tv_sec (now it)
      /\ tv_usec remaining = tv_usec (deadline s) - tv_usec (now it))
  /\ (forall fd timeout result woke,
         In (Select fd timeout result woke) (trace (loop_body s it)) ->
         timeout = remaining
         /\ expired remaining = false
         /\ 0 <= tv_sec timeout
         /\ 0 <= tv_usec timeout < 1000000).
Proof.
  intros Hd Hn remaining. subst remaining.
  destruct (time_remaining_usec _ _ Hd Hn) as [Hu Hok].
  pose proof (not_expired_positive _ _ Hd Hn) as Hpos.
  split; [apply expired_iff; assumption|].
  split.
  { pose proof (loop_body_stepped s it) as Hs.
    remember (outcome (loop_body s it)) as f eqn:Ef.
    destruct Hs as [site code evs Hw | d why evs1 evs2 Hw Hl
                   | d f evs1 evs2 evs3 Hw Hl Hc].
    - inversion Hw; subst;
        split; congruence.
    - inversion Hw; subst. split; congruence.
    - inversion Hw; subst.
      split; [intros E; rewrite E in Hc; inversion Hc | congruence]. }
  split; [intros He; destruct (Hpos He) as (? & ? & ? & ?); split; lia|].
  split; [exact Hok|].
  split; [| split].
  - intros Hb. unfold time_remaining.
    destruct (_ <? 0) eqn:E; cbn [tv_sec tv_usec]; lia.
  - intros Hb. unfold time_remaining.
    destruct (_ <? 0) eqn:E; cbn [tv_sec tv_usec]; lia.
  - intros fd timeout result wk Hin.
    assert (Hsel : forall evs,
               In (Select fd timeout result wk)
                 (Gettimeofday (now it)
                  :: Select (sockfd s) (time_remaining (deadline s) (now it)) (select_result it) (woke it)
                  :: evs) ->
               (forall ev, In ev evs ->
                           match ev with Select _ _ _ _ => False | _ => True end) ->
               expired (time_remaining (deadline s) (now it)) = false ->
               timeout = time_remaining (deadline s) (now it)
               /\ expired (time_remaining (deadline s) (now it)) = false
               /\ 0 <= tv_sec timeout /\ 0 <= tv_usec timeout < 1000000).
    { intros evs [E | [E | Hrest]] Hnone He.
      - discriminate.
      - injection E as <- <- <- <-. destruct (Hpos He) as (? & ? & ? & ?).
        repeat split; assumption || lia.
      - destruct (Hnone _ Hrest). }
    pose proof (loop_body_stepped s it) as Hs.
    remember (trace (loop_body s it)) as tr eqn:Etr. clear Etr.
    destruct Hs as [site code evs Hw | d why evs1 evs2 Hw Hl
                   | d f evs1 evs2 evs3 Hw Hl Hc].
    + inversion Hw; subst evs.
      * cbn [In] in Hin.
        repeat match goal with
          | H : _ \/ _ |- _ => destruct H
          | H : _ = Select _ _ _ _ |- _ => discriminate H
          | H : False |- _ => contradiction
          end.
      * apply (Hsel _ Hin); [|assumption].
        intros ev Hev. cbn [In] in Hev.
        repeat match goal with
          | H : _ \/ _ |- _ => destruct H
          | H : False |- _ => contradiction
          end; subst ev; exact I.
      * apply (Hsel _ Hin); [|assumption].
        intros ev Hev. cbn [In] in Hev.
        repeat match goal with
          | H : _ \/ _ |- _ => destruct H
          | H : False |- _ => contradiction
          end; subst ev; exact I.
      * apply (Hsel _ Hin); [|assumption].
        intros ev Hev. cbn [In] in Hev.
        repeat match goal with
          | H : _ \/ _ |- _ => destruct H
          | H : False |- _ => contradiction
          end; subst ev; exact I.
    + inversion Hw; subst evs1.
      cbn [app] in Hin. apply (Hsel _ Hin); [|assumption].
      intros ev Hev. cbn [In] in Hev. destruct Hev as [<- | Hev]; [exact I|].
      inversion Hl; subst evs2; cbn [In] in Hev;
        repeat match goal with
          | H : _ \/ _ |- _ => destruct H
          | H : False |- _ => contradiction
          end; subst ev; exact I.
    + inversion Hw; subst evs1.
      cbn [app] in Hin. apply (Hsel _ Hin); [|assumption].
      intros ev Hev. cbn [In] in Hev. destruct Hev as [<- | Hev]; [exact I|].
      apply in_app_or in Hev. destruct Hev as [Hev | Hev].
      * inversion Hl; subst evs2; cbn [In] in Hev;
          repeat match goal with
            | H : _ \/ _ |- _ => destruct H
            | H : False |- _ => contradiction
            end; subst ev; exact I.
      * destruct Hc; cbn [In] in Hev;
          repeat match goal with
            | H : _ \/ _ |- _ => destruct H
            | H : False |- _ => contradiction
            end; subst ev; exact I.
Qed.

(** ** Every wait ends at the deadline *)

Lemma waits_until_any_reading (d : Z) (tr : list event) (r : option Z) :
  waits_until d None tr -> waits_until d r tr.
Proof.
  destruct tr as [|ev tr]; [trivial|].
  destruct ev; cbn [waits_until]; try trivial. intros [[] _].
Qed.

Lemma waits_until_app (d : Z) (a b : list event) :
  forall r, waits_until d r a -> waits_until d None b ->
            waits_until d r (a ++ b).
Proof.
  induction a as [|ev a IH]; intros r Ha Hb; cbn [app].
  - apply waits_until_any_reading, Hb.
  - destruct ev; cbn [waits_until] in *; try (apply IH; assumption).
    destruct Ha as [Hr Ha]. split; [exact Hr | apply IH; assumption].
Qed.

Lemma stepped_waits (s : session) (it : iteration) (f : flow unit)
  (evs : list event) :
  timeval_ok (deadline s) -> timeval_ok (now it) ->
  stepped s it f evs ->
  waits_until (usec_of (deadline s)) None evs.
Proof.
  intros Hd Hn Hs.
  pose proof (not_expired_positive (deadline s) (now it) Hd Hn) as Hpos.
  destruct Hs as [site code evs Hw | d why evs1 evs2 Hw Hl
                 | d f evs1 evs2 evs3 Hw Hl Hc].
  - inversion Hw; subst; cbn [waits_until]; auto.
  - inversion Hw; subst. inversion Hl; subst; cbn [waits_until app]; auto.
  - inversion Hw; subst. inversion Hl; subst.
    destruct Hc; cbn [waits_until app]; auto.
Qed.

Lemma looped_waits (s : session) (its : list iteration)
  (f : flow (timeval * Z)) (evs : list event) :
  timeval_ok (deadline s) ->
  looped s its f evs ->
  Forall (fun it => timeval_ok (now it)) its ->
  waits_until (usec_of (deadline s)) None evs.
Proof.
  intros Hd Hl.
  induction Hl as [| it rest why evs f evs' Hs Hl IH | it rest t ttl evs Hs
                  | it rest site code evs Hs]; intros Hok.
  - exact I.
  - inversion Hok; subst. apply waits_until_app.
    + eapply stepped_waits; eassumption.
    + apply IH; assumption.
  - inversion Hok; subst. eapply stepped_waits; eassumption.
  - inversion Hok; subst. eapply stepped_waits; eassumption.
Qed.

Lemma setup_trace_waits (w : world) (d : Z) (tail : list event) :
  waits_until d None tail ->
  waits_until d None (setup_trace w ++ tail).
Proof.
  intros Ht. unfold setup_trace.
  destruct (rcvbuf_result w <? 0); destruct (icmp_filter_result w) as [r|];
    try destruct (r <? 0); cbn [app waits_until]; exact Ht.
Qed.

Lemma setup_ok_timeout (w : world) :
  setup_ok w = true -> 0 < value (timeout_arg w) <= 60000.
Proof.
  unfold setup_ok, args_ok. lia.
Qed.

Lemma setup_ok_outcome (w : world) :
  setup_ok w = true ->
  outcome (main w)
  = outcome (finish w (outcome (recv_loop (session_of w) (arrivals w))))
  /\ trace (main w)
     = setup_trace w
       ++ trace (recv_loop (session_of w) (arrivals w))
       ++ trace (finish w (outcome (recv_loop (session_of w) (arrivals w)))).
Proof.
  intros Hok. destruct (main_ran w); try congruence.
  split; reflexivity.
Qed.

(** A run that reaches the loop and ends does so as the loop ends, or with
    success after a match. *)
Lemma setup_ok_return (w : world) (site : exit_site) (code : Z) :
  setup_ok w = true ->
  outcome (main w) = Return site code ->
  (site = AtSuccess /\ code = 0
   /\ exists t ttl,
       outcome (recv_loop (session_of w) (arrivals w)) = Next (t, ttl))
  \/ (outcome (recv_loop (session_of w) (arrivals w)) = Return site code
      /\ trace (main w)
         = setup_trace w ++ trace (recv_loop (session_of w) (arrivals w))).
Proof.
  intros Hok Ho. destruct (setup_ok_outcome w Hok) as [Eo Et].
  rewrite Eo in Ho. rewrite Et.
  destruct (outcome (recv_loop (session_of w) (arrivals w)))
    as [[t ttl] | why | t ttl | site' code' | off |];
    cbn in Ho |- *; try discriminate.
  - injection Ho as <- <-. left. eauto.
  - injection Ho as <- <-. right. rewrite app_nil_r. split; reflexivity.
Qed.

Lemma deadline_of_session (w : world) :
  setup_ok w = true -> timeval_ok (start_time w) ->
  usec_of (deadline (session_of w))
  = usec_of (start_time w) + 1000 * value (timeout_arg w)
  /\ timeval_ok (deadline (session_of w)).
Proof.
  intros Hok Hs. apply compute_deadline_usec; [exact Hs|].
  pose proof (setup_ok_timeout w Hok). lia.
Qed.

Lemma waits_within_any_reading (start limit : Z) (tr : list event)
  (r : option Z) :
  waits_within start limit None tr -> waits_within start limit r tr.
Proof.
  destruct tr as [|ev tr]; [trivial|].
  destruct ev; cbn [waits_within]; try trivial. intros [[] _].
Qed.

Lemma waits_within_app (start limit : Z) (a b : list event) :
  forall r, waits_within start limit r a -> waits_within start limit None b ->
            waits_within start limit r (a ++ b).
Proof.
  induction a as [|ev a IH]; intros r Ha Hb; cbn [app].
  - apply waits_within_any_reading, Hb.
  - destruct ev; cbn [waits_within] in *; try (apply IH; assumption).
    destruct Ha as [Hr Ha]. split; [exact Hr | apply IH; assumption].
Qed.

(** The waits of one iteration, for a reading that is not before the
    start. *)
Lemma stepped_within (start limit : Z) (s : session) (it : iteration)
  (f : flow unit) (evs : list event) :
  timeval_ok (deadline s) -> timeval_ok (now it) ->
  usec_of (deadline s) = start + limit ->
  start <= usec_of (now it) ->
  stepped s it f evs ->
  waits_within start limit None evs.
Proof.
  intros Hd Hn Hlimit Hfrom Hs.
  pose proof (not_expired_positive (deadline s) (now it) Hd Hn) as Hpos.
  assert (Hwait : expired (time_remaining (deadline s) (now it)) = false ->
                  0 <= usec_of (now it) - start
                  /\ usec_of (now it) - start
                     + usec_of (time_remaining (deadline s) (now it)) = limit
                  /\ 0 < usec_of (time_remaining (deadline s) (now it))
                     <= limit).
  { intros He. destruct (Hpos He) as (Hsum & _ & _ & Hp). lia. }
  destruct Hs as [site code evs Hw | d why evs1 evs2 Hw Hl
                 | d f evs1 evs2 evs3 Hw Hl Hc].
  - inversion Hw; subst; cbn [waits_within]; auto.
  - inversion Hw; subst. inversion Hl; subst; cbn [waits_within app]; auto.
  - inversion Hw; subst. inversion Hl; subst.
    destruct Hc; cbn [waits_within app]; auto.
Qed.

Lemma looped_within (start limit : Z) (s : session) (its : list iteration)
  (f : flow (timeval * Z)) (evs : list event) :
  timeval_ok (deadline s) ->
  usec_of (deadline s) = start + limit ->
  looped s its f evs ->
  Forall (fun it => timeval_ok (now it)) its ->
  Forall (fun it => start <= usec_of (now it)) its ->
  waits_within start limit None evs.
Proof.
  intros Hd Hlimit Hl.
  induction Hl as [| it rest why evs f evs' Hs Hl IH | it rest t ttl evs Hs
                  | it rest site code evs Hs]; intros Hok Hfrom.
  - exact I.
  - inversion Hok; subst. inversion Hfrom; subst. apply waits_within_app.
    + eapply stepped_within; eassumption.
    + apply IH; assumption.
  - inversion Hok; subst. inversion Hfrom; subst.
    eapply stepped_within; eassumption.
  - inversion Hok; subst. inversion Hfrom; subst.
    eapply stepped_within; eassumption.
Qed.

Lemma setup_trace_within (w : world) (start limit : Z) (tail : list event) :
  waits_within start limit None tail ->
  waits_within start limit None (setup_trace w ++ tail).
Proof.
  intros Ht. unfold setup_trace.
  destruct (rcvbuf_result w <? 0); destruct (icmp_filter_result w) as [r|];
    try destruct (r <? 0); cbn [app waits_within]; exact Ht.
Qed.

(** C3.  The deadline is the start time plus the timeout, computed once in
    whole seconds and microseconds; whatever the loop meets, every wait of
    the run is armed right after a fresh reading of the clock, with the
    positive time left from that reading to this one deadline.  With a
    clock that is not set back behind the start, the time gone by since the
    start plus the wait armed is the original timeout at every wait: no
    wait is longer than the original timeout, and reading plus wait never
    goes beyond start + timeout, after any number of discarded
    datagrams. *)
Theorem every_wait_ends_at_the_one_deadline (w : world) :
  setup_ok w = true ->
  clocks_ok w ->
  clock_from_start w ->
  let timeout_ms := value (timeout_arg w) in
  deadline (session_of w) = compute_deadline (start_time w) timeout_ms
  /\ usec_of (deadline (session_of w))
     = usec_of (start_time w) + 1000 * timeout_ms
  /\ timeval_ok (deadline (session_of w))
  /\ waits_until (usec_of (start_time w) + 1000 * timeout_ms) None
       (trace (main w))
  /\ waits_within (usec_of (start_time w)) (1000 * timeout_ms) None
       (trace (main w)).
Proof.
  intros Hok [Hstart Hnows] Hfrom timeout_ms. subst timeout_ms.
  destruct (deadline_of_session w Hok Hstart) as [Hd Hdok].
  split; [reflexivity|]. split; [exact Hd|]. split; [exact Hdok|].
  destruct (setup_ok_outcome w Hok) as [_ ->].
  split.
  - rewrite <- Hd.
    apply setup_trace_waits, waits_until_app.
    + eapply looped_waits; [exact Hdok | apply recv_loop_looped | exact Hnows].
    + destruct (outcome (recv_loop (session_of w) (arrivals w)))
        as [[t ttl] | | | | |]; exact I.
  - apply setup_trace_within, waits_within_app.
    + eapply looped_within;
        [exact Hdok | exact Hd | apply recv_loop_looped | exact Hnows
        | exact Hfrom].
    + destruct (outcome (recv_loop (session_of w) (arrivals w)))
        as [[t ttl] | | | | |]; exact I.
Qed.

(** ** The time of a timeout *)

Lemma last_clock_app (a b : list event) :
  forall t, last_clock (a ++ b) t = last_clock b (last_clock a t).
Proof.
  induction a as [|ev a IH]; intros t; [reflexivity|].
  destruct ev; cbn [app last_clock]; apply IH.
Qed.

(** An iteration that goes round again has read the clock, waited with
    the remaining time, received, and read bytes of the datagram. *)
Lemma stepped_continue_shape (s : session) (it : iteration) (why : skip)
  (evs : list event) :
  stepped s it (Continue why) evs ->
  expired (time_remaining (deadline s) (now it)) = false
  /\ exists len loads,
      evs = [Gettimeofday (now it);
             Select (sockfd s) (time_remaining (deadline s) (now it))
               (select_result it) (woke it);
             Recvfrom (sockfd s) len] ++ loads
      /\ Forall (fun ev => exists off, ev = Load off) loads.
Proof.
  intros Hs.
  inversion Hs as [| d why' evs1 evs2 Hw Hl | d f' evs1 evs2 evs3 Hw Hl Hc];
    subst.
  - inversion Hw as [ | | | | datagram Hexp Hsel Hrecv E1 E2]; subst.
    split; [exact Hexp|]. eexists. exists evs2. split; [reflexivity|].
    inversion Hl; subst; repeat constructor; eauto.
  - inversion Hw as [ | | | | datagram Hexp Hsel Hrecv E1 E2]; subst.
    split; [exact Hexp|]. eexists. exists (evs2 ++ evs3).
    split; [reflexivity|].
    apply Forall_app. split.
    + inversion Hl; subst; repeat constructor; eauto.
    + inversion Hc; subst; repeat constructor; eauto.
Qed.

Lemma select_waits_loads (loads tail : list event) :
  Forall (fun ev => exists off, ev = Load off) loads ->
  select_waits None (loads ++ tail) -> select_waits None tail.
Proof.
  induction 1 as [|ev loads [off ->] _ IH]; [trivial|].
  cbn [app select_waits]. exact IH.
Qed.

Lemma paced_loads (g : Z) (prev : option Z) (loads tail : list event) :
  Forall (fun ev => exists off, ev = Load off) loads ->
  paced g prev None (loads ++ tail) -> paced g prev None tail.
Proof.
  induction 1 as [|ev loads [off ->] _ IH]; [trivial|].
  cbn [app paced]. exact IH.
Qed.

Lemma setup_trace_select_waits (w : world) (tail : list event) :
  select_waits None (setup_trace w ++ tail) -> select_waits None tail.
Proof.
  unfold setup_trace.
  destruct (rcvbuf_result w <? 0); destruct (icmp_filter_result w) as [r|];
    try destruct (r <? 0); cbn [app select_waits]; trivial.
Qed.

Lemma setup_trace_paced (g : Z) (w : world) (tail : list event) :
  paced g None None (setup_trace w ++ tail) ->
  paced g (Some (usec_of (start_time w))) None tail.
Proof.
  unfold setup_trace.
  destruct (rcvbuf_result w <? 0); destruct (icmp_filter_result w) as [r|];
    try destruct (r <? 0); cbn [app paced]; intros [_ H]; exact H.
Qed.

(** A loop that ends with code 7 ends at or after the deadline, when each
    wait that gave 0 lasted as long as the timeout it was armed with. *)
Lemma looped_timeout_not_early (s : session) (its : list iteration)
  (f : flow (timeval * Z)) (evs : list event) :
  timeval_ok (deadline s) ->
  looped s its f evs ->
  Forall (fun it => timeval_ok (now it)) its ->
  select_waits None evs ->
  forall site t, f = Return site 7 ->
                 usec_of (deadline s) <= last_clock evs t.
Proof.
  intros Hd Hl.
  induction Hl as [| it rest why evs f evs' Hs Hl IH | it rest t' ttl evs Hs
                  | it rest site' code evs Hs];
    intros Hok Hsel site t Hf; try discriminate.
  - inversion Hok; subst.
    destruct (stepped_continue_shape _ _ _ _ Hs)
      as (_ & len & loads & -> & Hloads).
    rewrite last_clock_app. eapply IH; eauto.
    rewrite <- app_assoc in Hsel. cbn [app select_waits] in Hsel.
    destruct Hsel as [_ Hsel].
    apply (select_waits_loads loads evs' Hloads Hsel).
  - injection Hf as -> ->.
    inversion Hok as [|? ? Hn _]; subst.
    inversion Hs as [site' code' evs' Hwaited | | d f' evs1 evs2 evs3 Hw' Hl' Hc];
      subst; [| inversion Hc].
    inversion Hwaited as [Hexp | | Hexp Hzero | |]; subst;
      cbn [last_clock select_waits] in *.
    + apply expired_iff in Hexp; assumption.
    + destruct (not_expired_positive _ _ Hd Hn Hexp) as [Hsum _].
      destruct Hsel as [Hw _]. specialize (Hw Hzero). lia.
Qed.

(** With the granularity [g], it ends at most [2 * g] after it. *)
Lemma looped_timeout_not_late (g : Z) (s : session) (its : list iteration)
  (f : flow (timeval * Z)) (evs : list event) :
  0 <= g ->
  timeval_ok (deadline s) ->
  looped s its f evs ->
  Forall (fun it => timeval_ok (now it)) its ->
  forall prev, paced g (Some prev) None evs ->
  prev <= usec_of (deadline s) + g ->
  forall site t, f = Return site 7 ->
                 last_clock evs t <= usec_of (deadline s) + 2 * g.
Proof.
  intros Hg Hd Hl.
  induction Hl as [| it rest why evs f evs' Hs Hl IH | it rest t' ttl evs Hs
                  | it rest site' code evs Hs];
    intros Hok prev Hp Hprev site t Hf; try discriminate.
  - inversion Hok as [|? ? Hn Hrest]; subst.
    destruct (stepped_continue_shape _ _ _ _ Hs)
      as (Hexp & len & loads & -> & Hloads).
    rewrite <- app_assoc in Hp. cbn [app paced] in Hp.
    destruct Hp as (Hnow & Hwoke & Hp).
    rewrite last_clock_app.
    apply (IH Hrest (usec_of (woke it))) with (site := site);
      try assumption; try reflexivity.
    + apply (paced_loads g _ loads evs' Hloads Hp).
    + destruct (not_expired_positive _ _ Hd Hn Hexp) as [Hsum _]. lia.
  - injection Hf as -> ->.
    inversion Hok as [|? ? Hn _]; subst.
    inversion Hs as [site' code' evs' Hwaited | | d f' evs1 evs2 evs3 Hw' Hl' Hc];
      subst; [| inversion Hc].
    inversion Hwaited as [Hexp | | Hexp Hzero | |]; subst;
      cbn [last_clock paced] in *.
    + lia.
    + destruct (not_expired_positive _ _ Hd Hn Hexp) as [Hsum _]. lia.
Qed.

(** Without failure and without a match, the loop ends with a timeout as
    soon as the time is up. *)
Lemma recv_loop_times_out (s : session) (its : list iteration) :
  timeval_ok (deadline s) ->
  Forall (fun it => timeval_ok (now it)) its ->
  Forall no_failure its ->
  Forall (no_match s) its ->
  Exists (time_is_up (deadline s)) its ->
  exists site,
    outcome (recv_loop s its) = Return site 7
    /\ (site = AtDeadlinePassed \/ site = AtSelectTimeout).
Proof.
  intros Hd. induction its as [|it rest IH]; intros Hok Hnf Hnm Hup.
  { inversion Hup. }
  inversion Hok as [|? ? Hn Hok']; subst.
  inversion Hnf as [|? ? [Hsel Hrecv] Hnf']; subst.
  inversion Hnm as [|? ? Hno Hnm']; subst.
  assert (Hrest : forall why, outcome (loop_body s it) = Continue why ->
            expired (time_remaining (deadline s) (now it)) = false ->
            0 < select_result it ->
            exists site,
              outcome (recv_loop s (it :: rest)) = Return site 7
              /\ (site = AtDeadlinePassed \/ site = AtSelectTimeout)).
  { intros why Hc Hexp Hpos.
    destruct (recv_loop_continue s it rest why Hc) as [-> _].
    apply IH; try assumption.
    inversion Hup as [? ? [Hlate | Hzero] | ]; subst; [| lia | assumption].
    apply (expired_iff _ _ Hd Hn) in Hlate. congruence. }
  pose proof (loop_body_stepped s it) as Hs.
  remember (outcome (loop_body s it)) as f eqn:Ef.
  remember (trace (loop_body s it)) as evs eqn:Eevs.
  destruct Hs as [site code evs Hw | d why evs1 evs2 Hw Hl
                 | d f evs1 evs2 evs3 Hw Hl Hc].
  - symmetry in Ef.
    destruct (recv_loop_return s it rest _ _ Ef) as [-> _].
    inversion Hw; subst; try lia; eauto.
    exfalso. apply Hrecv; assumption.
  - inversion Hw; subst. eapply Hrest; eauto.
  - inversion Hw as [ | | | | d' Hexp Hpos Hd' E1 E2]; subst.
    destruct Hc; try (eapply Hrest; eauto; fail).
    exfalso. apply (Hno (fields_of d (recv_addr it))).
    + unfold parsed_of. rewrite Hd'.
      pose proof (parse_reply_located d (recv_addr it) _ _ Hl) as Hp.
      destruct (parse_reply d (Z.of_nat (List.length d)) (recv_addr it))
        as [p | r].
      * destruct Hp as (_ & -> & _). reflexivity.
      * destruct Hp as (why & E & _). discriminate.
    + unfold matches, fields_of. cbn [reply_type reply_code reply_identifier
        reply_sequence reply_source]. tauto.
Qed.

(** A clock that moves on reaches any instant within enough readings. *)
Lemma advancing_is_up (step : Z) (d : timeval) (its : list iteration) :
  0 < step ->
  forall prev,
    advancing step prev its ->
    usec_of d <= prev + step * Z.of_nat (List.length its) ->
    prev < usec_of d ->
    Exists (time_is_up d) its.
Proof.
  intros Hstep. induction its as [|it rest IH]; intros prev Hadv Hlen Hprev.
  - cbn [List.length] in Hlen. lia.
  - destruct Hadv as [Hnow Hadv].
    destruct (Z_le_gt_dec (usec_of d) (usec_of (now it))) as [Hup | Hnot].
    + apply Exists_cons_hd. left. exact Hup.
    + apply Exists_cons_tl. apply (IH (usec_of (now it))); [exact Hadv | | lia].
      cbn [List.length] in Hlen. rewrite Nat2Z.inj_succ, Z.mul_succ_r in Hlen.
      lia.
Qed.

(** C2.  In a run that got its request out, with a clock that gives
    normalised times and a [select] that gives 0 only when the timeout it
    was armed with has run out: a timeout (exit code 7) is reported no
    earlier than start + timeout; when neither [select] nor [recvfrom]
    fails, no reply matches and the time is up at some point, the run does
    end, with exit code 7, as it does within enough iterations when each
    reading of the clock is at least [step] after the previous one; and
    when the system is never more than [g] late (from one clock event to
    the next reading, from the end of the timeout a wait was armed with to
    its return) the timeout is reported at most [2 * g] after
    start + timeout, however many datagrams were discarded. *)
Theorem timeout_reported_at_the_deadline (w : world) (g step : Z) :
  setup_ok w = true ->
  clocks_ok w ->
  select_waits None (trace (main w)) ->
  let timeout_ms := value (timeout_arg w) in
  let ended := last_clock (trace (main w)) (usec_of (start_time w)) in
  (forall site,
      outcome (main w) = Return site 7 ->
      usec_of (start_time w) + 1000 * timeout_ms <= ended)
  /\ (Forall no_failure (arrivals w) ->
      Forall (no_match (session_of w)) (arrivals w) ->
      Exists (time_is_up (deadline (session_of w))) (arrivals w) ->
      exists site,
        outcome (main w) = Return site 7
        /\ failure_of site = Some TimedOut)
  /\ (Forall no_failure (arrivals w) ->
      Forall (no_match (session_of w)) (arrivals w) ->
      0 < step ->
      advancing step (usec_of (start_time w)) (arrivals w) ->
      1000 * timeout_ms <= step * Z.of_nat (List.length (arrivals w)) ->
      exists site,
        outcome (main w) = Return site 7
        /\ failure_of site = Some TimedOut)
  /\ (0 <= g ->
      paced g None None (trace (main w)) ->
      forall site,
        outcome (main w) = Return site 7 ->
        ended <= usec_of (start_time w) + 1000 * timeout_ms + 2 * g).
Proof.
  intros Hok [Hstart Hnows] Hsel timeout_ms ended. subst timeout_ms ended.
  destruct (deadline_of_session w Hok Hstart) as [Hd Hdok].
  pose proof (setup_ok_timeout w Hok) as Htimeout.
  pose proof (recv_loop_looped (session_of w) (arrivals w)) as Hloop.
  rewrite <- Hd.
  assert (Hseven : forall site,
             outcome (main w) = Return site 7 ->
             outcome (recv_loop (session_of w) (arrivals w)) = Return site 7
             /\ trace (main w)
                = setup_trace w ++ trace (recv_loop (session_of w) (arrivals w))).
  { intros site Ho.
    destruct (setup_ok_return w site 7 Hok Ho) as [(_ & E & _) | H];
      [discriminate | exact H]. }
  assert (Hends : Forall no_failure (arrivals w) ->
                  Forall (no_match (session_of w)) (arrivals w) ->
                  Exists (time_is_up (deadline (session_of w))) (arrivals w) ->
                  exists site,
                    outcome (main w) = Return site 7
                    /\ failure_of site = Some TimedOut).
  { intros Hnf Hnm Hup.
    destruct (recv_loop_times_out (session_of w) (arrivals w) Hdok Hnows
                Hnf Hnm Hup) as (site & Ho & Hsite).
    exists site. destruct (setup_ok_outcome w Hok) as [-> _].
    rewrite Ho. split; [reflexivity|].
    destruct Hsite as [-> | ->]; reflexivity. }
  split; [| split; [| split]].
  - intros site Ho. destruct (Hseven site Ho) as [Hl Ht].
    rewrite Ht in Hsel |- *. apply setup_trace_select_waits in Hsel.
    rewrite last_clock_app.
    eapply looped_timeout_not_early; eauto.
  - exact Hends.
  - intros Hnf Hnm Hstep Hadv Hlen. apply Hends; try assumption.
    apply (advancing_is_up step _ _ Hstep (usec_of (start_time w)));
      [exact Hadv | lia | lia].
  - intros Hg Hp site Ho. destruct (Hseven site Ho) as [Hl Ht].
    rewrite Ht in Hp |- *. apply setup_trace_paced in Hp.
    rewrite last_clock_app.
    eapply looped_timeout_not_late with (prev := usec_of (start_time w));
      eauto.
    lia.
Qed.

(** ** The statements on the example run *)

(** The request of process 0x1234 with sequence 1 and the run that meets
    only silence. *)
Lemma checksum_example :
  checksum LittleEndian (echo_request LittleEndian 4660 1) = 0
  /\ firstn 8 (echo_request LittleEndian 4660 1)
     = [x08; x00; xe5; xca; x12; x34; x00; x01].
Proof. vm_compute. split; reflexivity. Qed.

Lemma silent_run :
  outcome (main Example.silent) = Return AtSelectTimeout 7.
Proof. vm_compute. reflexivity. Qed.

Lemma reply_accepted_iff_all_five_match_witness :
  outcome (loop_body (session_of Example.silent) Example.answered)
  = Break (end_time Example.answered) 64
  /\ outcome (recv_loop (session_of Example.silent)
                [Example.answered; Example.quiet])
     = Next (end_time Example.answered, 64).
Proof.
  pose proof (reply_accepted_iff_all_five_match
                (session_of Example.silent) Example.answered [Example.quiet]
                (Example.reply x12 x34)
                (fields_of (Example.reply x12 x34) Example.localhost)
                eq_refl eq_refl eq_refl eq_refl) as (Hiff & Hstop & _).
  assert (Hb : outcome (loop_body (session_of Example.silent) Example.answered)
               = Break (end_time Example.answered) 64).
  { apply Hiff. vm_compute. repeat split. }
  split; [exact Hb | exact (Hstop Hb)].
Defined.

Lemma remaining_time_is_deadline_minus_now_witness :
  timeval_ok (deadline (session_of Example.silent))
  /\ timeval_ok (now Example.foreign)
  /\ tv_sec (time_remaining (deadline (session_of Example.silent))
               (now Example.foreign)) = 0
  /\ tv_usec (time_remaining (deadline (session_of Example.silent))
                (now Example.foreign)) = 149940.
Proof.
  assert (Hd : timeval_ok (deadline (session_of Example.silent)))
    by (vm_compute; split; [discriminate | reflexivity]).
  assert (Hn : timeval_ok (now Example.foreign))
    by (vm_compute; split; [discriminate | reflexivity]).
  split; [exact Hd|]. split; [exact Hn|].
  pose proof (remaining_time_is_deadline_minus_now
                (session_of Example.silent) Example.foreign Hd Hn)
    as (_ & _ & _ & _ & Hborrow & _).
  apply Hborrow. vm_compute. reflexivity.
Defined.

Lemma failure_kinds_have_distinct_exit_codes_witness :
  outcome (main Example.silent) = Return AtSelectTimeout 7
  /\ outcome (main Example.unresolved) = Return AtResolve 3
  /\ 7 <> 3.
Proof.
  assert (H1 : outcome (main Example.silent) = Return AtSelectTimeout 7)
    by (vm_compute; reflexivity).
  assert (H2 : outcome (main Example.unresolved) = Return AtResolve 3)
    by (vm_compute; reflexivity).
  split; [exact H1|]. split; [exact H2|].
  apply (proj1 (failure_kinds_have_distinct_exit_codes Example.silent
                  Example.unresolved AtSelectTimeout AtResolve 7 3
                  ResolveFailed H1 H2 eq_refl) TimedOut eq_refl).
  discriminate.
Defined.

Lemma socket_closed_exactly_once_witness :
  outcome (main Example.silent) = Return AtSelectTimeout 7
  /\ closes (trace (main Example.silent)) = [3].
Proof.
  assert (H : outcome (main Example.silent) = Return AtSelectTimeout 7)
    by (vm_compute; reflexivity).
  split; [exact H|].
  pose proof (socket_closed_exactly_once Example.silent AtSelectTimeout 7 H)
    as Hc.
  assert (Hopen : socket_opened (trace (main Example.silent)) = true)
    by (vm_compute; reflexivity).
  rewrite Hopen in Hc. apply Hc.
Defined.

Lemma every_wait_ends_at_the_one_deadline_witness :
  setup_ok Example.silent = true
  /\ clocks_ok Example.silent
  /\ clock_from_start Example.silent
  /\ waits_until 101100000 None (trace (main Example.silent))
  /\ waits_within 100900000 200000 None (trace (main Example.silent)).
Proof.
  assert (Hok : setup_ok Example.silent = true) by (vm_compute; reflexivity).
  assert (Hclocks : clocks_ok Example.silent).
  { split; [| repeat apply Forall_cons; try apply Forall_nil];
      unfold timeval_ok; cbn; lia. }
  assert (Hfrom : clock_from_start Example.silent).
  { repeat apply Forall_cons; try apply Forall_nil; cbn; lia. }
  split; [exact Hok|]. split; [exact Hclocks|]. split; [exact Hfrom|].
  exact (proj2 (proj2 (proj2 (every_wait_ends_at_the_one_deadline
                                Example.silent Hok Hclocks Hfrom)))).
Defined.

Lemma timeout_reported_at_the_deadline_witness :
  setup_ok Example.silent = true
  /\ clocks_ok Example.silent
  /\ select_waits None (trace (main Example.silent))
  /\ (exists site, outcome (main Example.silent) = Return site 7
                   /\ failure_of site = Some TimedOut)
  /\ 101100000
     <= last_clock (trace (main Example.silent))
          (usec_of (start_time Example.silent))
     <= 101100200.
Proof.
  assert (Hok : setup_ok Example.silent = true) by (vm_compute; reflexivity).
  assert (Hclocks : clocks_ok Example.silent).
  { split; [| repeat apply Forall_cons; try apply Forall_nil];
      unfold timeval_ok; cbn; lia. }
  assert (Hsel : select_waits None (trace (main Example.silent))).
  { vm_compute. repeat split; intros H; discriminate. }
  split; [exact Hok|]. split; [exact Hclocks|]. split; [exact Hsel|].
  pose proof (timeout_reported_at_the_deadline Example.silent 100 1
                Hok Hclocks Hsel) as (Hearly & Hends & _ & Hlate).
  assert (Hrun : outcome (main Example.silent) = Return AtSelectTimeout 7)
    by (vm_compute; reflexivity).
  split; [| split].
  - apply Hends.
    + repeat apply Forall_cons; try apply Forall_nil;
        (split; [cbn; lia | intros Hpos; cbn in Hpos |- *; try lia;
                            discriminate]).
    + repeat apply Forall_cons; try apply Forall_nil;
        intros p Hp; vm_compute in Hp;
        try discriminate; injection Hp as <-;
        intros (_ & _ & Hid & _); vm_compute in Hid; discriminate.
    + apply Exists_cons_tl, Exists_cons_tl, Exists_cons_hd.
      right. reflexivity.
  - apply (Hearly AtSelectTimeout Hrun).
  - assert (Hg : 0 <= 100) by discriminate.
    assert (Hp : paced 100 None None (trace (main Example.silent)))
      by (vm_compute; repeat split; intros H; discriminate).
    apply (Hlate Hg Hp AtSelectTimeout Hrun).
Defined.

Lemma malformed_datagrams_are_skipped_witness :
  outcome (loop_body (session_of Example.silent) Example.short)
  = Continue SkipShortIp
  /\ outcome (recv_loop (session_of Example.silent)
                [Example.short; Example.quiet])
     = outcome (recv_loop (session_of Example.silent) [Example.quiet]).
Proof.
  assert (H : outcome (loop_body (session_of Example.silent) Example.short)
              = Continue SkipShortIp) by (vm_compute; reflexivity).
  split; [exact H|].
  exact (proj2 (malformed_datagrams_are_skipped (session_of Example.silent)
                  [x45; x00] Example.localhost (end_time Example.short))
           Example.short [Example.quiet] SkipShortIp H).
Defined.

Lemma reads_stay_inside_datagram_witness :
  In (Load 27)
    (trace (inspect (session_of Example.silent) 28 (Example.reply x12 x34)
              Example.localhost (end_time Example.answered)))
  /\ 0 <= 27 < 28.
Proof.
  assert (H : In (Load 27)
                (trace (inspect (session_of Example.silent) 28
                          (Example.reply x12 x34) Example.localhost
                          (end_time Example.answered)))).
  { vm_compute. do 7 right. left. reflexivity. }
  split; [exact H|].
  destruct (reads_stay_inside_datagram (session_of Example.silent)
              (Example.reply x12 x34) Example.localhost
              (end_time Example.answered)) as (_ & _ & Hreads).
  exact (proj1 (Hreads 27 H)).
Defined.

(** ** The checksum does not depend on the byte order of the host *)

Lemma to_byte_mod (x y : Z) : x mod 256 = y mod 256 -> to_byte x = to_byte y.
Proof. unfold to_byte. intros ->. reflexivity. Qed.

Lemma words_total_little_endian (buf : list byte) :
  Nat.even (List.length buf) = true ->
  words_total LittleEndian buf
  = 256 * odd_bytes_total buf + even_bytes_total buf.
Proof.
  induction buf as [| b | b0 b1 rest IH] using list_pair_ind; intros Hev.
  - reflexivity.
  - discriminate.
  - cbn [words_total even_bytes_total odd_bytes_total].
    rewrite load16_value, IH by exact Hev. lia.
Qed.

Lemma words_total_big_endian (buf : list byte) :
  Nat.even (List.length buf) = true ->
  words_total BigEndian buf
  = 256 * even_bytes_total buf + odd_bytes_total buf.
Proof.
  induction buf as [| b | b0 b1 rest IH] using list_pair_ind; intros Hev.
  - reflexivity.
  - discriminate.
  - cbn [words_total even_bytes_total odd_bytes_total].
    rewrite load16_value, IH by exact Hev. lia.
Qed.

Lemma bytes_total_bounds (buf : list byte) :
  0 <= even_bytes_total buf /\ 0 <= odd_bytes_total buf
  /\ 2 * even_bytes_total buf <= 255 * (Z.of_nat (List.length buf) + 1)
  /\ 2 * odd_bytes_total buf <= 255 * Z.of_nat (List.length buf).
Proof.
  induction buf as [| b | b0 b1 rest IH] using list_pair_ind;
    cbn [even_bytes_total odd_bytes_total List.length].
  - lia.
  - pose proof (u8_range b). lia.
  - pose proof (u8_range b0). pose proof (u8_range b1). lia.
Qed.

(** Up to 128 KiB the 32-bit accumulator does not wrap. *)
Lemma words_total_no_wrap (e : endian) (buf : list byte) :
  Nat.even (List.length buf) = true ->
  Z.of_nat (List.length buf) <= 131072 ->
  0 <= words_total e buf < 4294967296.
Proof.
  intros Hev Hlen. pose proof (bytes_total_bounds buf) as (H0 & H1 & H2 & H3).
  destruct e;
    [rewrite words_total_little_endian | rewrite words_total_big_endian];
    try assumption; lia.
Qed.

Lemma residue_spec (t : Z) :
  0 < t -> 1 <= residue t <= 65535 /\ exists q, t = 65535 * q + residue t.
Proof.
  intros Ht. unfold residue. destruct (Z.eqb_spec t 0) as [E | E]; [lia|].
  pose proof (Z.div_mod (t - 1) 65535 ltac:(lia)) as Hdm.
  pose proof (Z.mod_pos_bound (t - 1) 65535 ltac:(lia)) as Hr.
  split; [lia|]. exists ((t - 1) / 65535). lia.
Qed.

Lemma swab_spec (x : Z) :
  0 <= x < 65536 ->
  0 <= swab x < 65536
  /\ (x = 0 <-> swab x = 0)
  /\ swab x = 256 * x - 65535 * (x / 256)
  /\ swab (65535 - x) = 65535 - swab x.
Proof.
  intros Hx. unfold swab.
  pose proof (Z.div_mod x 256 ltac:(lia)) as Hdm.
  pose proof (Z.mod_pos_bound x 256 ltac:(lia)) as Hm.
  assert (Hd : 0 <= x / 256 < 256)
    by (split; [apply Z.div_pos; lia | apply Z.div_lt_upper_bound; lia]).
  assert (Hc : (65535 - x) mod 256 = 255 - x mod 256)
    by (symmetry; apply Z.mod_unique with (q := 255 - x / 256); lia).
  assert (Hq : (65535 - x) / 256 = 255 - x / 256)
    by (symmetry; apply Z.div_unique with (r := 255 - x mod 256); lia).
  rewrite Hc, Hq. lia.
Qed.

(** The residue of the big-endian sum is the residue of the little-endian
    sum with its bytes exchanged. *)
Lemma residue_swab (tl tb k : Z) :
  0 <= tl -> 0 <= tb -> 0 <= k ->
  256 * tl - tb = 65535 * k ->
  (tl = 0 <-> tb = 0) ->
  residue tb = swab (residue tl).
Proof.
  intros Hl Hb Hk Hrel Hzero.
  destruct (Z.eq_dec tl 0) as [E | E].
  - assert (tb = 0) by (apply Hzero; exact E). subst. reflexivity.
  - assert (Hbpos : 0 < tb) by lia.
    destruct (residue_spec tl ltac:(lia)) as (Hrl & ql & Hql).
    destruct (residue_spec tb Hbpos) as (Hrb & qb & Hqb).
    destruct (swab_spec (residue tl) ltac:(lia)) as (Hs & Hs0 & Hs1 & _).
    set (h := residue tl / 256) in *.
    assert (Hne : swab (residue tl) <> 0) by (intros E0; apply Hs0 in E0; lia).
    assert (Hdiff : swab (residue tl) - residue tb
                    = 65535 * (k - 256 * ql - h + qb)) by lia.
    lia.
Qed.

Lemma store16_swab (c : Z) :
  0 <= c < 65536 -> store16 BigEndian (swab c) = store16 LittleEndian c.
Proof.
  intros Hc. unfold store16, swab.
  pose proof (Z.mod_pos_bound c 256 ltac:(lia)) as Hm.
  assert (Hd : 0 <= c / 256 < 256)
    by (split; [apply Z.div_pos; lia | apply Z.div_lt_upper_bound; lia]).
  rewrite !Z.shiftr_div_pow2 by lia. change (2 ^ 8) with 256.
  f_equal; apply to_byte_mod.
  - replace ((c mod 256 * 256 + c / 256) / 256) with (c mod 256)
      by (apply Z.div_unique with (r := c / 256); lia).
    apply Z.mod_mod. lia.
  - replace ((c mod 256 * 256 + c / 256) mod 256) with (c / 256)
      by (apply Z.mod_unique with (q := c mod 256); lia).
    symmetry. apply Z.mod_small. exact Hd.
Qed.

(** The checksum a big-endian host computes is that of a little-endian
    host with its bytes exchanged. *)
Lemma checksum_swab (buf : list byte) :
  Nat.even (List.length buf) = true ->
  Z.of_nat (List.length buf) <= 131072 ->
  checksum BigEndian buf = swab (checksum LittleEndian buf).
Proof.
  intros Hev Hlen. unfold checksum.
  pose proof (words_total_no_wrap LittleEndian buf Hev Hlen) as Hl.
  pose proof (words_total_no_wrap BigEndian buf Hev Hlen) as Hb.
  rewrite !checksum_sum_total by lia. cbn [Z.add]. unfold wrap32.
  rewrite !Z.mod_small by assumption.
  rewrite !checksum_fold_residue by assumption.
  pose proof (bytes_total_bounds buf) as (H0 & H1 & _).
  rewrite (residue_swab (words_total LittleEndian buf)
             (words_total BigEndian buf) (odd_bytes_total buf)); try lia.
  - pose proof (residue_range (words_total LittleEndian buf)).
    destruct (swab_spec (residue (words_total LittleEndian buf)))
      as (_ & _ & _ & Hcompl); lia.
  - rewrite words_total_little_endian, words_total_big_endian by exact Hev. lia.
  - rewrite words_total_little_endian, words_total_big_endian by exact Hev. lia.
Qed.

(** [htons] then a 16-bit store lays the value out high byte first. *)
Lemma store16_htons (e : endian) (v : Z) :
  store16 e (htons e v) = (to_byte (v / 256), to_byte v).
Proof.
  pose proof (Z.div_mod v 256 ltac:(lia)) as Hdm.
  pose proof (Z.mod_pos_bound v 256 ltac:(lia)) as Hm.
  pose proof (Z.mod_pos_bound (v / 256) 256 ltac:(lia)) as Hm'.
  destruct e; unfold store16, htons.
  - unfold bswap16. change 255 with (Z.ones 8).
    rewrite !Z.land_ones, !Z.shiftr_div_pow2 by lia. change (2 ^ 8) with 256.
    rewrite lor_shiftl8 by lia.
    f_equal; apply to_byte_mod.
    + replace ((v mod 256 * 256 + (v / 256) mod 256) mod 256)
        with ((v / 256) mod 256)
        by (apply Z.mod_unique with (q := v mod 256); lia).
      reflexivity.
    + replace ((v mod 256 * 256 + (v / 256) mod 256) / 256) with (v mod 256)
        by (apply Z.div_unique with (r := (v / 256) mod 256); lia).
      apply Z.mod_mod. lia.
  - unfold wrap16. rewrite Z.shiftr_div_pow2 by lia. change (2 ^ 8) with 256.
    pose proof (Z.div_mod v 65536 ltac:(lia)) as Hdm2.
    pose proof (Z.mod_pos_bound v 65536 ltac:(lia)) as Hm2.
    f_equal; apply to_byte_mod.
    + pose proof (Z.div_mod (v mod 65536) 256 ltac:(lia)) as Hdm3.
      pose proof (Z.mod_pos_bound (v mod 65536) 256 ltac:(lia)) as Hm3.
      assert (Hq : v / 256 = 256 * (v / 65536) + (v mod 65536) / 256).
      { symmetry. apply Z.div_unique with (r := (v mod 65536) mod 256); lia. }
      rewrite Hq. symmetry.
      rewrite Z.add_comm, Z.mul_comm, Z.mod_add by lia. reflexivity.
    + pose proof (Z.div_mod (v mod 65536) 256 ltac:(lia)) as Hdm3.
      pose proof (Z.mod_pos_bound (v mod 65536) 256 ltac:(lia)) as Hm3.
      apply Z.mod_unique with (q := 256 * (v / 65536) + (v mod 65536) / 256);
        lia.
Qed.

Lemma poke16_htons (e : endian) (off : nat) (v : Z) (buf : list byte) :
  poke16 e off (htons e v) buf
  = firstn off buf ++ to_byte (v / 256) :: to_byte v :: skipn (off + 2) buf.
Proof.
  unfold poke16. rewrite store16_htons. reflexivity.
Qed.

Lemma echo_request_fields_layout (e : endian) (pid seq : Z) :
  echo_request_fields e pid seq
  = [x08; x00; x00; x00;
     to_byte (Z.land pid 65535 / 256); to_byte (Z.land pid 65535);
     to_byte (seq / 256); to_byte seq]
    ++ repeat x00 56.
Proof.
  unfold echo_request_fields. rewrite !poke16_htons. reflexivity.
Qed.

Lemma set_icmp_cksum_zero (e : endian) (b0 b1 c0 c1 : byte)
  (rest : list byte) :
  set_icmp_cksum e 0 (b0 :: b1 :: c0 :: c1 :: rest)
  = b0 :: b1 :: x00 :: x00 :: rest.
Proof.
  rewrite set_icmp_cksum_cons. destruct e; reflexivity.
Qed.

(** Clearing the field, summing and filling it gives the same bytes on
    either host, for an even number of bytes that cannot wrap the sum. *)
Lemma filled_order_independent (buf : list byte) :
  (4 <= List.length buf)%nat ->
  Nat.even (List.length buf) = true ->
  Z.of_nat (List.length buf) <= 131072 ->
  set_icmp_cksum LittleEndian
    (checksum LittleEndian (set_icmp_cksum LittleEndian 0 buf))
    (set_icmp_cksum LittleEndian 0 buf)
  = set_icmp_cksum BigEndian
      (checksum BigEndian (set_icmp_cksum BigEndian 0 buf))
      (set_icmp_cksum BigEndian 0 buf).
Proof.
  intros Hlen Hev Hmax.
  destruct buf as [|b0 [|b1 [|c0 [|c1 rest]]]]; cbn [List.length] in Hlen;
    try lia.
  rewrite !set_icmp_cksum_zero.
  set (z := b0 :: b1 :: x00 :: x00 :: rest).
  assert (Hz : List.length z = List.length (b0 :: b1 :: c0 :: c1 :: rest))
    by reflexivity.
  rewrite <- Hz in Hev, Hmax.
  rewrite (checksum_swab z Hev Hmax).
  assert (Hc : 0 <= checksum LittleEndian z < 65536)
    by (apply checksum_fold_range, checksum_sum_range).
  unfold z at 2 4. rewrite !set_icmp_cksum_cons, store16_swab by exact Hc.
  reflexivity.
Qed.

Lemma echo_request_order_independent (pid seq : Z) :
  echo_request LittleEndian pid seq = echo_request BigEndian pid seq.
Proof.
  unfold echo_request.
  rewrite (echo_request_fields_layout LittleEndian),
    (echo_request_fields_layout BigEndian).
  apply filled_order_independent.
  - cbn [List.length app]. lia.
  - reflexivity.
  - cbn. lia.
Qed.

Lemma u8_be16_bytes (v : Z) :
  u8 (to_byte (v / 256)) * 256 + u8 (to_byte v) = v mod 65536.
Proof.
  rewrite !u8_to_byte.
  pose proof (Z.div_mod v 256 ltac:(lia)) as H1.
  pose proof (Z.mod_pos_bound v 256 ltac:(lia)) as H2.
  pose proof (Z.div_mod (v / 256) 256 ltac:(lia)) as H3.
  pose proof (Z.mod_pos_bound (v / 256) 256 ltac:(lia)) as H4.
  apply Z.mod_unique with (q := v / 256 / 256); lia.
Qed.

Lemma words_total_zeros (e : endian) (n : nat) :
  words_total e (repeat x00 n) = 0.
Proof.
  assert (H : forall m, words_total e (repeat x00 m) = 0
                        /\ words_total e (x00 :: repeat x00 m) = 0).
  { induction m as [|m [IH1 IH2]]; split; try reflexivity; try exact IH2.
    cbn [repeat words_total]. rewrite IH1. destruct e; reflexivity. }
  apply H.
Qed.

(** The sum of the request before its checksum is filled in. *)
Lemma echo_request_sum (pid seq : Z) :
  checksum_sum BigEndian
    (set_icmp_cksum BigEndian 0 (echo_request_fields BigEndian pid seq)) 0
  = 2048 + Z.land pid 65535 + seq mod 65536.
Proof.
  rewrite echo_request_fields_layout. cbn [app].
  rewrite set_icmp_cksum_zero, checksum_sum_total by lia.
  cbn [words_total]. rewrite words_total_zeros, !load16_value.
  rewrite !u8_be16_bytes.
  assert (Hid : 0 <= Z.land pid 65535 < 65536).
  { change 65535 with (Z.ones 16). rewrite Z.land_ones by lia.
    apply Z.mod_pos_bound. lia. }
  pose proof (Z.mod_pos_bound seq 65536 ltac:(lia)) as Hseq.
  rewrite (Z.mod_small (Z.land pid 65535)) by lia.
  change (u8 x08) with 8. change (u8 x00) with 0.
  unfold wrap32. rewrite Z.mod_small; lia.
Qed.

(** ** The checksum of a buffer in pieces *)

Lemma words_total_bound (e : endian) (buf : list byte) :
  0 <= 2 * words_total e buf <= 65535 * (Z.of_nat (List.length buf) + 1).
Proof.
  induction buf as [| b | b0 b1 rest IH] using list_pair_ind;
    cbn [words_total List.length].
  - lia.
  - pose proof (u8_range b). lia.
  - pose proof (load16_range e b0 b1). lia.
Qed.

Lemma checksum_residue (e : endian) (buf : list byte) :
  Z.of_nat (List.length buf) <= 131071 ->
  checksum e buf = 65535 - residue (words_total e buf)
  /\ 0 <= words_total e buf < 4294967296.
Proof.
  intros Hlen. pose proof (words_total_bound e buf) as Hb.
  assert (Hr : 0 <= words_total e buf < 4294967296) by lia.
  split; [|exact Hr]. unfold checksum.
  rewrite checksum_sum_total by lia. cbn [Z.add]. unfold wrap32.
  rewrite Z.mod_small by exact Hr. apply checksum_fold_residue, Hr.
Qed.

Lemma residue_small (r : Z) : 0 <= r <= 65535 -> residue r = r.
Proof.
  intros Hr. unfold residue. destruct (Z.eqb_spec r 0) as [E | E]; [lia|].
  rewrite Z.mod_small; lia.
Qed.

Lemma residue_add (x y : Z) :
  0 <= x -> 0 <= y -> residue (x + y) = residue (residue x + residue y).
Proof.
  intros Hx Hy.
  destruct (Z.eq_dec x 0) as [-> | Ex].
  { cbn [Z.add]. change (residue 0) with 0. cbn [Z.add].
    symmetry. apply residue_small, residue_range. }
  destruct (Z.eq_dec y 0) as [-> | Ey].
  { rewrite Z.add_0_r. change (residue 0) with 0. rewrite Z.add_0_r.
    symmetry. apply residue_small, residue_range. }
  destruct (residue_spec x ltac:(lia)) as (Hrx & qx & Hqx).
  destruct (residue_spec y ltac:(lia)) as (Hry & qy & Hqy).
  destruct (residue_spec (x + y) ltac:(lia)) as (Hr & q & Hq).
  destruct (residue_spec (residue x + residue y) ltac:(lia))
    as (Hr' & q' & Hq').
  assert (Hd : residue (x + y) - residue (residue x + residue y)
               = 65535 * (qx + qy - q + q')) by lia.
  lia.
Qed.

Lemma words_total_app_zeros (e : endian) (a : list byte) (n : nat) :
  Nat.even (List.length a) = true ->
  words_total e (a ++ repeat x00 n) = words_total e a.
Proof.
  intros Hev. rewrite words_total_app_even by exact Hev.
  rewrite words_total_zeros. lia.
Qed.

(** X1.  The filled buffer does not depend on the byte order of the host:
    for an even number of bytes, at most 128 KiB, clearing the checksum
    field, summing and writing the checksum back gives the same bytes on a
    little-endian and on a big-endian host.  The echo request is the same
    64 bytes on both. *)
Theorem request_bytes_same_on_both_byte_orders :
  (forall buf : list byte,
      (4 <= List.length buf)%nat ->
      Nat.even (List.length buf) = true ->
      Z.of_nat (List.length buf) <= 131072 ->
      set_icmp_cksum LittleEndian
        (checksum LittleEndian (set_icmp_cksum LittleEndian 0 buf))
        (set_icmp_cksum LittleEndian 0 buf)
      = set_icmp_cksum BigEndian
          (checksum BigEndian (set_icmp_cksum BigEndian 0 buf))
          (set_icmp_cksum BigEndian 0 buf))
  /\ (forall e pid seq,
         echo_request e pid seq = echo_request BigEndian pid seq).
Proof.
  split.
  - exact filled_order_independent.
  - intros [|] pid seq; [apply echo_request_order_independent | reflexivity].
Qed.

Lemma request_bytes_same_on_both_byte_orders_witness :
  (4 <= List.length [x08; x00; xff; xff; x12; x34])%nat
  /\ Nat.even (List.length [x08; x00; xff; xff; x12; x34]) = true
  /\ set_icmp_cksum LittleEndian
       (checksum LittleEndian
          (set_icmp_cksum LittleEndian 0 [x08; x00; xff; xff; x12; x34]))
       (set_icmp_cksum LittleEndian 0 [x08; x00; xff; xff; x12; x34])
     = [x08; x00; xe5; xcb; x12; x34].
Proof.
  assert (H4 : (4 <= List.length [x08; x00; xff; xff; x12; x34])%nat)
    by (cbn; lia).
  assert (Hev : Nat.even (List.length [x08; x00; xff; xff; x12; x34]) = true)
    by reflexivity.
  split; [exact H4|]. split; [exact Hev|].
  rewrite (proj1 request_bytes_same_on_both_byte_orders
             [x08; x00; xff; xff; x12; x34] H4 Hev ltac:(cbn; lia)).
  vm_compute. reflexivity.
Defined.

(** X2.  The wire image of the echo request, whatever the host: type 8,
    code 0, the checksum high byte first, the identifier (the process id
    masked to 16 bits) high byte first, the sequence number high byte
    first, and 56 zero bytes.  The checksum is the complement of the
    end-around-carry sum 0x0800 + identifier + sequence. *)
Theorem echo_request_wire_image (e : endian) (pid seq : Z) :
  let id := Z.land pid 65535 in
  let c := checksum_fold (2048 + id + seq mod 65536) in
  echo_request e pid seq
  = [x08; x00; to_byte (c / 256); to_byte c;
     to_byte (id / 256); to_byte id;
     to_byte (seq / 256); to_byte seq]
    ++ repeat x00 56.
Proof.
  intros id c.
  assert (He : echo_request e pid seq = echo_request BigEndian pid seq)
    by (destruct e; [apply echo_request_order_independent | reflexivity]).
  rewrite He. unfold echo_request, checksum.
  rewrite echo_request_sum. fold id. fold c.
  rewrite echo_request_fields_layout. cbn [app].
  rewrite set_icmp_cksum_zero, set_icmp_cksum_cons.
  unfold store16. rewrite Z.shiftr_div_pow2 by lia. reflexivity.
Qed.

(** X3.  The checksum can be taken in pieces.  For a first piece of even
    length (and at most 128 KiB in all) the checksum of the concatenation
    is the folded complement of the sum of the complements of the two
    checksums.  Zero bytes appended to a buffer of even length, however
    many, leave its checksum as it is, and a buffer of zero bytes only, the
    empty one included, has checksum 0xFFFF. *)
Theorem checksum_in_pieces (e : endian) (a b : list byte) :
  Nat.even (List.length a) = true ->
  (Z.of_nat (List.length (a ++ b)) <= 131071 ->
   checksum e (a ++ b)
   = checksum_fold ((65535 - checksum e a) + (65535 - checksum e b)))
  /\ (forall n, checksum e (a ++ repeat x00 n) = checksum e a)
  /\ (forall n, checksum e (repeat x00 n) = 65535).
Proof.
  intros Hev. split; [| split].
  - intros Hlen. rewrite length_app, Nat2Z.inj_add in Hlen.
    destruct (checksum_residue e (a ++ b)) as [-> Hab];
      [rewrite length_app, Nat2Z.inj_add; lia|].
    destruct (checksum_residue e a) as [-> Ha]; [lia|].
    destruct (checksum_residue e b) as [-> Hb]; [lia|].
    pose proof (residue_range (words_total e a)).
    pose proof (residue_range (words_total e b)).
    rewrite checksum_fold_residue by lia.
    rewrite words_total_app_even by exact Hev.
    rewrite residue_add by lia. f_equal. f_equal. lia.
  - intros n. unfold checksum. rewrite !checksum_sum_total by lia.
    rewrite words_total_app_zeros by exact Hev. reflexivity.
  - intros n. unfold checksum. rewrite checksum_sum_total by lia.
    rewrite words_total_zeros. reflexivity.
Qed.

Lemma checksum_in_pieces_witness :
  Nat.even (List.length [x08; x00]) = true
  /\ checksum LittleEndian ([x08; x00] ++ [x12; x34; x00])
     = checksum_fold ((65535 - checksum LittleEndian [x08; x00])
                      + (65535 - checksum LittleEndian [x12; x34; x00])).
Proof.
  split; [reflexivity|].
  apply (proj1 (checksum_in_pieces LittleEndian [x08; x00] [x12; x34; x00]
                  eq_refl)).
  cbn. lia.
Defined.

(** ** The reply to the request *)

Lemma byte_at_app_l (a b : list byte) (i : Z) :
  0 <= i < Z.of_nat (List.length a) -> byte_at (a ++ b) i = byte_at a i.
Proof.
  intros Hi. unfold byte_at. rewrite app_nth1 by lia. reflexivity.
Qed.

Lemma byte_at_app_r (a b : list byte) (k : Z) :
  0 <= k -> byte_at (a ++ b) (Z.of_nat (List.length a) + k) = byte_at b k.
Proof.
  intros Hk. unfold byte_at. rewrite app_nth2 by lia.
  f_equal. f_equal. lia.
Qed.

(** The request up to its checksum bytes. *)
Lemma echo_request_shape (e : endian) (pid seq : Z) :
  exists c0 c1,
    echo_request e pid seq
    = [x08; x00; c0; c1;
       to_byte (Z.land pid 65535 / 256); to_byte (Z.land pid 65535);
       to_byte (seq / 256); to_byte seq]
      ++ repeat x00 56.
Proof.
  unfold echo_request. rewrite echo_request_fields_layout. cbn [app].
  rewrite set_icmp_cksum_zero, set_icmp_cksum_cons.
  eexists. eexists. reflexivity.
Qed.

Lemma byte_at_icmp_header (a0 a1 a2 a3 a4 a5 a6 a7 : byte)
  (rest : list byte) :
  let l := [a0; a1; a2; a3; a4; a5; a6; a7] ++ rest in
  byte_at l 0 = u8 a0 /\ byte_at l 1 = u8 a1
  /\ byte_at l 4 = u8 a4 /\ byte_at l 5 = u8 a5
  /\ byte_at l 6 = u8 a6 /\ byte_at l 7 = u8 a7.
Proof.
  repeat split; reflexivity.
Qed.

Lemma expected_seq_range (w : world) :
  0 <= expected_seq (session_of w) < 65536.
Proof.
  unfold session_of. cbn [expected_seq].
  destruct (argc w =? 4); [apply Z.mod_pos_bound|]; lia.
Qed.

Lemma expected_id_range (w : world) :
  expected_id (session_of w) = Z.land (pid w) 65535
  /\ 0 <= Z.land (pid w) 65535 < 65536.
Proof.
  assert (H : 0 <= Z.land (pid w) 65535 < 65536).
  { change 65535 with (Z.ones 16). rewrite Z.land_ones by lia.
    apply Z.mod_pos_bound. lia. }
  split; [|exact H]. unfold session_of. cbn [expected_id].
  apply Z.mod_small, H.
Qed.

(** ** The bytes the loop looks at *)

Lemma located_agree (buf1 buf2 : list byte) (f : flow Z) (evs : list event) :
  same_inspected_bytes buf1 buf2 ->
  located (Z.of_nat (List.length buf1)) buf1 f evs ->
  located (Z.of_nat (List.length buf2)) buf2 f evs
  /\ header_length_of buf2 = header_length_of buf1.
Proof.
  intros (Hlen & H0 & H8 & H9 & Hicmp) Hl.
  assert (Hhl : header_length_of buf2 = header_length_of buf1)
    by (unfold header_length_of; rewrite H0; reflexivity).
  split; [|exact Hhl]. rewrite <- Hlen.
  destruct Hl; rewrite <- ?Hhl; constructor;
    rewrite ?Hhl, <- ?H0, <- ?H9; assumption.
Qed.

Lemma located_functional (len : Z) (buf : list byte) (f f' : flow Z)
  (evs evs' : list event) :
  located len buf f evs -> located len buf f' evs' -> f = f' /\ evs = evs'.
Proof.
  intros H H'. destruct H; destruct H'; try (split; reflexivity); lia.
Qed.

Lemma compared_agree (s : session) (buf1 buf2 : list byte) (from : Z)
  (et : timeval) (f : flow unit) (evs : list event) :
  same_inspected_bytes buf1 buf2 ->
  compared s buf1 (header_length_of buf1) from et f evs ->
  compared s buf2 (header_length_of buf1) from et f evs.
Proof.
  intros (Hlen & H0 & H8 & H9 & Hicmp) Hc.
  set (hl := header_length_of buf1) in *.
  assert (E0 : byte_at buf1 hl = byte_at buf2 hl).
  { rewrite <- (Z.add_0_r hl). apply Hicmp. cbn; auto. }
  assert (E1 : byte_at buf1 (hl + 1) = byte_at buf2 (hl + 1))
    by (apply Hicmp; cbn; auto).
  assert (Eid : be16_at buf1 (hl + 4) = be16_at buf2 (hl + 4)).
  { unfold be16_at.
    replace (hl + 4 + 1) with (hl + 5) by lia.
    rewrite (Hicmp 4), (Hicmp 5) by (cbn; auto 10). reflexivity. }
  assert (Eseq : be16_at buf1 (hl + 6) = be16_at buf2 (hl + 6)).
  { unfold be16_at.
    replace (hl + 6 + 1) with (hl + 7) by lia.
    rewrite (Hicmp 6), (Hicmp 7) by (cbn; auto 10). reflexivity. }
  destruct Hc; rewrite ?H8; constructor;
    rewrite <- ?E0, <- ?E1, <- ?Eid, <- ?Eseq; assumption.
Qed.

Lemma compared_functional (s : session) (buf : list byte) (hl from : Z)
  (et : timeval) (f f' : flow unit) (evs evs' : list event) :
  compared s buf hl from et f evs -> compared s buf hl from et f' evs' ->
  f = f' /\ evs = evs'.
Proof.
  intros H H'.
  destruct H; destruct H'; try (split; reflexivity); congruence.
Qed.

Lemma prog_eq {A} (p q : prog A) :
  outcome p = outcome q -> trace p = trace q -> p = q.
Proof.
  destruct p, q. cbn. intros -> ->. reflexivity.
Qed.

(** X4.  The reply to the request is accepted.  Take the request [main]
    sends, set its type to Echo Reply, and put it behind any IPv4 header
    that carries protocol 1 and whose length is the one its first byte
    announces (20 to 60 bytes): coming from the resolved address, this
    datagram ends the loop with the TTL of that header, on either byte
    order, for every process id and every accepted sequence number. *)
Theorem own_reply_is_accepted (w : world) (header : list byte)
  (et : timeval) :
  20 <= Z.of_nat (List.length header) ->
  header_length_of header = Z.of_nat (List.length header) ->
  byte_at header 0 / 16 = 4 ->
  byte_at header 9 = 1 ->
  let request :=
    echo_request (host_order w) (pid w) (expected_seq (session_of w)) in
  let datagram := header ++ echo_reply_to request in
  outcome (inspect (session_of w) (Z.of_nat (List.length datagram)) datagram
             (dest_addr w) et)
  = Break et (byte_at header 8).
Proof.
  intros Hlen Hhl Hv Hp request datagram.
  destruct (echo_request_shape (host_order w) (pid w)
              (expected_seq (session_of w))) as (c0 & c1 & Hreq).
  fold request in Hreq.
  set (hl := Z.of_nat (List.length header)) in *.
  assert (Hreply : echo_reply_to request
                   = [x00; x00; c0; c1;
                      to_byte (Z.land (pid w) 65535 / 256);
                      to_byte (Z.land (pid w) 65535);
                      to_byte (expected_seq (session_of w) / 256);
                      to_byte (expected_seq (session_of w))]
                     ++ repeat x00 56)
    by (rewrite Hreq; reflexivity).
  assert (Hdlen : Z.of_nat (List.length datagram) = hl + 64).
  { unfold datagram. rewrite length_app, Hreply, length_app, repeat_length.
    cbn [List.length]. lia. }
  assert (H0 : byte_at datagram 0 = byte_at header 0)
    by (apply byte_at_app_l; lia).
  assert (H8 : byte_at datagram 8 = byte_at header 8)
    by (apply byte_at_app_l; lia).
  assert (H9 : byte_at datagram 9 = byte_at header 9)
    by (apply byte_at_app_l; lia).
  assert (Hdhl : header_length_of datagram = hl)
    by (unfold header_length_of; rewrite H0; exact Hhl).
  assert (Hicmp : forall k, 0 <= k ->
            byte_at datagram (hl + k) = byte_at (echo_reply_to request) k)
    by (intros k Hk; apply byte_at_app_r; exact Hk).
  pose proof (locate_icmp_located datagram) as Hl. cbv zeta in Hl.
  pose proof (parse_reply_located datagram (dest_addr w) _ _ Hl) as Hparse.
  pose proof (inspect_parse_reply (session_of w) datagram (dest_addr w) et)
    as Hin. cbv zeta in Hin.
  destruct (parse_reply datagram (Z.of_nat (List.length datagram))
              (dest_addr w)) as [p | r].
  - destruct Hparse as (_ & -> & _). destruct Hin as [_ Hin].
    destruct Hin as [[_ Hb] | [Hno _]].
    + rewrite Hb. unfold fields_of. cbn [reply_ttl]. rewrite H8. reflexivity.
    + exfalso. apply Hno. unfold matches, fields_of.
      cbn [reply_type reply_code reply_identifier reply_sequence reply_source].
      unfold be16_at. rewrite Hdhl.
      replace (hl + 4 + 1) with (hl + 5) by lia.
      replace (hl + 6 + 1) with (hl + 7) by lia.
      rewrite <- (Z.add_0_r hl) at 1.
      rewrite !Hicmp by lia. rewrite Hreply.
      destruct (byte_at_icmp_header x00 x00 c0 c1
                  (to_byte (Z.land (pid w) 65535 / 256))
                  (to_byte (Z.land (pid w) 65535))
                  (to_byte (expected_seq (session_of w) / 256))
                  (to_byte (expected_seq (session_of w)))
                  (repeat x00 56))
        as (-> & -> & -> & -> & -> & ->).
      rewrite !u8_be16_bytes.
      destruct (expected_id_range w) as [-> Hid].
      pose proof (expected_seq_range w) as Hseq.
      rewrite !Z.mod_small by lia.
      repeat split; reflexivity.
  - exfalso. destruct Hparse as (why & Hw & Hr).
    rewrite Hw in Hl.
    assert (Hmax : header_length_of header <= 60).
    { unfold header_length_of.
      pose proof (Z.mod_pos_bound (byte_at header 0) 16 ltac:(lia)). lia. }
    inversion Hl; subst; cbn in Hr; try discriminate;
      try congruence; lia.
Qed.

Lemma own_reply_is_accepted_witness :
  20 <= Z.of_nat (List.length (firstn 20 (Example.reply x00 x00)))
  /\ outcome (inspect (session_of Example.silent) 84
                (firstn 20 (Example.reply x00 x00)
                 ++ echo_reply_to (echo_request LittleEndian 4660 1))
                Example.localhost (end_time Example.answered))
     = Break (end_time Example.answered) 64.
Proof.
  split; [cbn; lia|].
  apply (own_reply_is_accepted Example.silent
           (firstn 20 (Example.reply x00 x00)) (end_time Example.answered)).
  - cbn. lia.
  - reflexivity.
  - reflexivity.
  - reflexivity.
Defined.

(** X5.  Of a datagram the loop looks at its length, its first byte, its
    protocol and TTL bytes, and type, code, identifier and sequence of the
    ICMP header, and at nothing else: two datagrams that agree on these are
    treated alike, read for read.  The checksum of the reply, the other
    fields of the IP header and the payload are never examined. *)
Theorem only_header_fields_are_inspected (s : session)
  (buf1 buf2 : list byte) (from : Z) (et : timeval) :
  same_inspected_bytes buf1 buf2 ->
  inspect s (Z.of_nat (List.length buf1)) buf1 from et
  = inspect s (Z.of_nat (List.length buf2)) buf2 from et.
Proof.
  intros Hsame.
  destruct (inspect_paths s buf1 from et)
    as [(why & Hl1 & Ho1) | (evs1 & Hl1 & Hc1 & Ht1)];
    destruct (inspect_paths s buf2 from et)
      as [(why' & Hl2 & Ho2) | (evs2 & Hl2 & Hc2 & Ht2)];
    destruct (located_agree _ _ _ _ Hsame Hl1) as [Hl1' Hhl].
  - destruct (located_functional _ _ _ _ _ _ Hl1' Hl2) as [E Et].
    apply prog_eq; congruence.
  - destruct (located_functional _ _ _ _ _ _ Hl1' Hl2) as [E _].
    discriminate.
  - destruct (located_functional _ _ _ _ _ _ Hl1' Hl2) as [E _].
    discriminate.
  - pose proof (compared_agree _ _ _ _ _ _ _ Hsame Hc1) as Hc1'.
    rewrite Hhl in Hc2.
    destruct (compared_functional _ _ _ _ _ _ _ _ _ Hc1' Hc2) as [E Et].
    apply prog_eq; congruence.
Qed.

Lemma only_header_fields_are_inspected_witness :
  same_inspected_bytes (Example.reply x12 x34)
    (firstn 22 (Example.reply x12 x34) ++ [xde; xad; x12; x34; x00; x01])
  /\ outcome (inspect (session_of Example.silent) 28
                (firstn 22 (Example.reply x12 x34)
                 ++ [xde; xad; x12; x34; x00; x01])
                Example.localhost (end_time Example.answered))
     = Break (end_time Example.answered) 64.
Proof.
  assert (H : same_inspected_bytes (Example.reply x12 x34)
                (firstn 22 (Example.reply x12 x34)
                 ++ [xde; xad; x12; x34; x00; x01])).
  { repeat split; try reflexivity.
    intros k Hk. cbn [In] in Hk.
    repeat (destruct Hk as [<- | Hk]; [reflexivity|]). contradiction. }
  split; [exact H|].
  change 28 with (Z.of_nat (List.length (firstn 22 (Example.reply x12 x34)
                                         ++ [xde; xad; x12; x34; x00; x01]))).
  rewrite <- (only_header_fields_are_inspected (session_of Example.silent)
                _ _ Example.localhost (end_time Example.answered) H).
  vm_compute. reflexivity.
Defined.

(** ** The whole of main, stage by stage *)

Lemma argument_exit_args_ok (w : world) :
  argument_exit w = None <-> args_ok w = true.
Proof.
  unfold argument_exit, args_ok.
  destruct ((argc w <? 3) || (4 <? argc w));
    destruct (endptr_at_start (timeout_arg w)
              || negb (endptr_at_nul (timeout_arg w)));
    destruct (erange (timeout_arg w));
    destruct (value (timeout_arg w) <=? 0);
    destruct (60000 <? value (timeout_arg w));
    destruct (argc w =? 4);
    destruct (endptr_at_start (seq_arg w) || negb (endptr_at_nul (seq_arg w)));
    destruct (erange (seq_arg w) || (value (seq_arg w) <? 0)
              || (65535 <? value (seq_arg w)));
    cbn; split; congruence.
Qed.

Lemma main_arguments_rejected (w : world) (site : exit_site) (code : Z)
  (msg : string) :
  argument_exit w = Some (site, code, msg) ->
  outcome (main w) = Return site code /\ trace (main w) = [Stderr msg].
Proof.
  unfold argument_exit, main. intros H.
  branch Hargc. { injection H as <- <- <-. split; reflexivity. }
  branch Hint. { injection H as <- <- <-. split; reflexivity. }
  branch Herange. { injection H as <- <- <-. split; reflexivity. }
  branch Hpos. { injection H as <- <- <-. split; reflexivity. }
  branch Hlarge. { injection H as <- <- <-. split; reflexivity. }
  unfold parse_icmp_seq.
  destruct (argc w =? 4) eqn:Hfour; [|discriminate].
  branch Hseq. { injection H as <- <- <-. split; reflexivity. }
  branch Hrange. { injection H as <- <- <-. split; reflexivity. }
  discriminate.
Qed.

(** With the arguments accepted the checks of lines 52-96 fall through. *)
Ltac accepted H :=
  unfold argument_exit in H;
  repeat match type of H with
    | context [if ?c then _ else _] =>
        let E := fresh "E" in destruct c eqn:E; try discriminate H
    end.

Lemma parse_icmp_seq_accepted (w : world) :
  argument_exit w = None ->
  parse_icmp_seq w = (Next (expected_seq (session_of w)), []).
Proof.
  intros H.
  destruct (parse_icmp_seq_paths w)
    as [(site & code & msg & _ & Hseq & _) | (_ & Ho & Ht)];
    cbv zeta in *.
  - accepted H; rewrite ?E4, ?E5, ?E6 in Hseq; discriminate.
  - apply prog_eq; [exact Ho | exact Ht].
Qed.

Lemma main_stages (w : world) :
  match stage_of w with
  | BadArguments =>
      exists site code msg,
        argument_exit w = Some (site, code, msg)
        /\ outcome (main w) = Return site code
        /\ trace (main w) = [Stderr msg]
  | Unresolved =>
      outcome (main w) = Return AtResolve 3
      /\ trace (main w)
         = [Getaddrinfo (getaddrinfo_status w);
            Stderr "Error: cannot resolve host"]
  | NoSocket =>
      outcome (main w) = Return AtSocket 4
      /\ trace (main w)
         = [Getaddrinfo (getaddrinfo_status w); Socket (socket_result w);
            Stderr "Error: cannot create raw socket";
            Stderr "Note: This program requires cap_net_raw capability or root privileges";
            Freeaddrinfo]
  | NotConnected =>
      outcome (main w) = Return AtConnect 4
      /\ trace (main w)
         = [Getaddrinfo (getaddrinfo_status w); Socket (socket_result w);
            Connect (socket_result w); Stderr "Error: connect failed";
            Close (socket_result w); Freeaddrinfo]
  | NotSent =>
      outcome (main w) = Return AtSendto 5
      /\ trace (main w)
         = setup_trace w
           ++ [Stderr "Error: sendto failed"; Close (socket_result w);
               Freeaddrinfo]
  | Probing =>
      outcome (main w)
      = outcome (finish w (outcome (recv_loop (session_of w) (arrivals w))))
      /\ trace (main w)
         = setup_trace w
           ++ trace (recv_loop (session_of w) (arrivals w))
           ++ trace (finish w
                       (outcome (recv_loop (session_of w) (arrivals w))))
  end.
Proof.
  unfold stage_of.
  destruct (argument_exit w) as [[[site code] msg]|] eqn:Hargs.
  { exists site, code, msg. split; [reflexivity|].
    apply main_arguments_rejected, Hargs. }
  pose proof (parse_icmp_seq_accepted w Hargs) as Hseq.
  assert (Hok : args_ok w = true) by (apply argument_exit_args_ok, Hargs).
  destruct (negb (getaddrinfo_status w =? 0)) eqn:Hres;
    [| destruct (socket_result w <? 0) eqn:Hsock;
       [| destruct (connect_result w <? 0) eqn:Hconn;
          [| destruct (sendto_result w <? 0) eqn:Hsent]]].
  5: { apply setup_ok_outcome. unfold setup_ok. rewrite Hok. lia. }
  all: accepted Hargs; unfold main, when.
  all: rewrite Hseq; unfold getaddrinfo, socket, connect, setsockopt, sendto.
  all: run;
    repeat (match goal with
            | H : ?c = _ |- context [if ?c then _ else _] => rewrite H
            end; run).
  all: try (split; reflexivity).
  all: unfold setup_trace;
    destruct (rcvbuf_result w <? 0); destruct (icmp_filter_result w) as [r|];
    try destruct (r <? 0) eqn:Hr; run; rewrite ?Hr; run; split; reflexivity.
Qed.

(** ** What the loop leaves behind *)

Lemma stepped_collect {X} (pick : event -> list X) (s : session)
  (it : iteration) (f : flow unit) (evs : list event) :
  loop_blind pick ->
  stepped s it f evs ->
  flat_map pick evs
  = match f with
    | Return site _ => flat_map pick (leave_events s site)
    | _ => []
    end.
Proof.
  intros (Hg & Hsel & Hrcv & Hld) Hs.
  destruct Hs as [site code evs Hw | d why evs1 evs2 Hw Hl
                 | d f evs1 evs2 evs3 Hw Hl Hc].
  - inversion Hw; subst; cbn [flat_map leave_events app];
      rewrite ?Hg, ?Hsel, ?Hrcv, ?Hld; reflexivity.
  - inversion Hw; subst. inversion Hl; subst;
      cbn [flat_map app]; rewrite ?Hg, ?Hsel, ?Hrcv, ?Hld; reflexivity.
  - inversion Hw; subst. inversion Hl; subst.
    destruct Hc; cbn [flat_map app]; rewrite ?Hg, ?Hsel, ?Hrcv, ?Hld;
      reflexivity.
Qed.

Lemma looped_collect {X} (pick : event -> list X) (s : session)
  (its : list iteration) (f : flow (timeval * Z)) (evs : list event) :
  loop_blind pick ->
  looped s its f evs ->
  flat_map pick evs
  = match f with
    | Return site _ => flat_map pick (leave_events s site)
    | _ => []
    end.
Proof.
  intros Hb.
  induction 1 as [| it rest why evs f evs' Hs Hl IH | it rest t ttl evs Hs
                  | it rest site code evs Hs].
  - reflexivity.
  - rewrite flat_map_app, (stepped_collect pick _ _ _ _ Hb Hs), IH.
    reflexivity.
  - apply (stepped_collect pick _ _ _ _ Hb Hs).
  - apply (stepped_collect pick _ _ _ _ Hb Hs).
Qed.

(** The events of a run that got as far as the loop, seen through [pick]. *)
Lemma probing_collect {X} (pick : event -> list X) (w : world) :
  loop_blind pick ->
  stage_of w = Probing ->
  flat_map pick (trace (main w))
  = flat_map pick (setup_trace w)
    ++ match outcome (recv_loop (session_of w) (arrivals w)) with
       | Next (t, ttl) =>
           flat_map pick
             [Printf (rtt_usec_of (start_time w) t) ttl;
              Close (socket_result w); Freeaddrinfo]
       | Return site _ => flat_map pick (leave_events (session_of w) site)
       | _ => []
       end.
Proof.
  intros Hb Hst. pose proof (main_stages w) as H. rewrite Hst in H.
  destruct H as [_ ->].
  pose proof (recv_loop_looped (session_of w) (arrivals w)) as Hl.
  pose proof (looped_collect pick _ _ _ _ Hb Hl) as Hc.
  rewrite !flat_map_app, Hc.
  destruct (outcome (recv_loop (session_of w) (arrivals w)))
    as [[t ttl] | why | t ttl | site code | off |];
    cbn [finish trace snd flat_map app]; rewrite ?app_nil_r; reflexivity.
Qed.

Lemma probing_outcome (w : world) :
  stage_of w = Probing ->
  outcome (main w)
  = match outcome (recv_loop (session_of w) (arrivals w)) with
    | Next _ => Return AtSuccess 0
    | Return site code => Return site code
    | Pending => Pending
    | Continue why => Continue why
    | Break t ttl => Break t ttl
    | Fault off => Fault off
    end.
Proof.
  intros Hst. pose proof (main_stages w) as H. rewrite Hst in H.
  destruct H as [-> _].
  destruct (outcome (recv_loop (session_of w) (arrivals w)))
    as [[t ttl] | why | t ttl | site code | off |]; reflexivity.
Qed.

Lemma stage_connected (w : world) :
  connected w = match stage_of w with
                | NotSent | Probing => true
                | _ => false
                end.
Proof.
  unfold connected, stage_of.
  pose proof (argument_exit_args_ok w) as Hok.
  destruct (argument_exit w) as [x|].
  - destruct (args_ok w); [|reflexivity].
    destruct Hok as [_ Hok]. discriminate (Hok eq_refl).
  - destruct Hok as [Hok _]. rewrite (Hok eq_refl).
    destruct (getaddrinfo_status w =? 0); cbn [negb andb]; [|reflexivity].
    destruct (socket_result w <? 0); cbn [negb andb]; [reflexivity|].
    destruct (connect_result w <? 0); cbn [negb andb]; [reflexivity|].
    destruct (sendto_result w <? 0); reflexivity.
Qed.

Ltac setup_cases w :=
  unfold setup_trace;
  let r := fresh "r" in
  destruct (rcvbuf_result w <? 0);
  (destruct (icmp_filter_result w) as [r|]; [destruct (r <? 0)|]).

Lemma frees_app (a b : list event) : frees (a ++ b) = (frees a + frees b)%nat.
Proof. unfold frees. rewrite flat_map_app, length_app. reflexivity. Qed.

Lemma blind_frees :
  loop_blind (fun ev => match ev with Freeaddrinfo => [tt] | _ => [] end).
Proof. repeat split. Qed.

Lemma blind_sends :
  loop_blind (fun ev => match ev with Sendto fd p => [(fd, p)] | _ => [] end).
Proof. repeat split. Qed.

Lemma blind_prints :
  loop_blind
    (fun ev => match ev with Printf rtt ttl => [(rtt, ttl)] | _ => [] end).
Proof. repeat split. Qed.

Lemma blind_complaints :
  loop_blind (fun ev => match ev with
                        | Stderr msg =>
                            if prefix "Warning:" msg then [] else [tt]
                        | _ => []
                        end).
Proof. repeat split. Qed.

Lemma argument_exit_message (w : world) (site : exit_site) (code : Z)
  (msg : string) :
  argument_exit w = Some (site, code, msg) ->
  (prefix "Warning:" msg = false /\ error_lines site = 1%nat)
  /\ code = exit_code site /\ (code = 1 \/ code = 2)
  /\ (code = 1 <-> argc w < 3 \/ 4 < argc w).
Proof.
  unfold argument_exit. intros H.
  repeat match type of H with
    | context [if ?c then _ else _] =>
        let E := fresh "E" in destruct c eqn:E
    end; try discriminate H; injection H as <- <- <-;
    (split; [split; reflexivity
            | split; [reflexivity | split; [auto | lia]]]).
Qed.

Lemma stage_conditions (w : world) :
  match stage_of w with
  | BadArguments => args_ok w = false
  | Unresolved => args_ok w = true /\ getaddrinfo_status w <> 0
  | NoSocket =>
      args_ok w = true /\ getaddrinfo_status w = 0 /\ socket_result w < 0
  | NotConnected =>
      args_ok w = true /\ getaddrinfo_status w = 0 /\ 0 <= socket_result w
      /\ connect_result w < 0
  | NotSent =>
      args_ok w = true /\ getaddrinfo_status w = 0 /\ 0 <= socket_result w
      /\ 0 <= connect_result w /\ sendto_result w < 0
  | Probing => setup_ok w = true
  end.
Proof.
  unfold stage_of, setup_ok.
  pose proof (argument_exit_args_ok w) as Hok.
  destruct (argument_exit w) as [x|].
  - destruct (args_ok w); [|reflexivity].
    destruct Hok as [_ Hok]. discriminate (Hok eq_refl).
  - destruct Hok as [Hok _]. rewrite (Hok eq_refl).
    destruct (getaddrinfo_status w =? 0) eqn:Hres; cbn [negb andb]; [|lia].
    destruct (socket_result w <? 0) eqn:Hsock; cbn [negb andb]; [lia|].
    destruct (connect_result w <? 0) eqn:Hconn; cbn [negb andb]; [lia|].
    destruct (sendto_result w <? 0) eqn:Hsent; cbn [negb andb]; lia.
Qed.

(** ** The address list *)

(** X6.  A run that returns has called [freeaddrinfo] exactly once when
    [getaddrinfo] gave an address list, and not at all when the arguments
    were refused or the host was not resolved: on every path out of [main]
    and out of the loop the list is released, and never twice. *)
Theorem address_list_freed_exactly_once (w : world) (site : exit_site)
  (code : Z) :
  outcome (main w) = Return site code ->
  frees (trace (main w)) = if resolved (trace (main w)) then 1%nat else 0%nat.
Proof.
  intros Ho.
  pose proof (main_stages w) as H. pose proof (stage_conditions w) as Hc.
  pose proof (probing_collect _ w blind_frees) as Hp.
  pose proof (probing_outcome w) as Hpo.
  destruct (stage_of w).
  - destruct H as (site' & code' & msg & _ & _ & ->). reflexivity.
  - destruct H as [_ ->]. destruct Hc as [_ Hne].
    unfold resolved. cbn [existsb].
    replace (getaddrinfo_status w =? 0) with false by lia. reflexivity.
  - destruct H as [_ ->]. destruct Hc as (_ & -> & _). reflexivity.
  - destruct H as [_ ->]. destruct Hc as (_ & -> & _). reflexivity.
  - destruct H as [_ ->]. destruct Hc as (_ & Hres & _).
    rewrite frees_app.
    replace (frees (setup_trace w)) with 0%nat
      by (setup_cases w; reflexivity).
    unfold resolved, setup_trace. cbn [app existsb]. rewrite Hres.
    reflexivity.
  - specialize (Hp eq_refl). specialize (Hpo eq_refl).
    destruct H as [_ Ht]. unfold setup_ok in Hc.
    assert (Hres : getaddrinfo_status w = 0) by lia.
    replace (resolved (trace (main w))) with true.
    2:{ rewrite Ht. unfold resolved, setup_trace. cbn [app existsb].
        rewrite Hres. reflexivity. }
    unfold frees. rewrite Hp, length_app.
    replace (List.length (flat_map _ (setup_trace w))) with 0%nat
      by (setup_cases w; reflexivity).
    rewrite Ho in Hpo.
    destruct (outcome (recv_loop (session_of w) (arrivals w)))
      as [[t ttl] | why | t ttl | site' code' | off |]; try discriminate Hpo.
    + reflexivity.
    + destruct site'; reflexivity.
Qed.

Lemma address_list_freed_exactly_once_witness :
  frees (trace (main Example.silent)) = 1%nat
  /\ frees (trace (main Example.unresolved)) = 0%nat.
Proof.
  split.
  - apply (address_list_freed_exactly_once Example.silent AtSelectTimeout 7).
    reflexivity.
  - apply (address_list_freed_exactly_once Example.unresolved AtResolve 3).
    reflexivity.
Defined.

(** ** The request *)

Lemma main_sends (w : world) :
  sends (trace (main w))
  = if connected w
    then [(socket_result w,
           echo_request (host_order w) (pid w) (expected_seq (session_of w)))]
    else [].
Proof.
  rewrite stage_connected.
  pose proof (main_stages w) as H.
  pose proof (probing_collect _ w blind_sends) as Hp.
  destruct (stage_of w).
  - destruct H as (site' & code' & msg & _ & _ & ->). reflexivity.
  - destruct H as [_ ->]. reflexivity.
  - destruct H as [_ ->]. reflexivity.
  - destruct H as [_ ->]. reflexivity.
  - destruct H as [_ ->]. unfold sends. rewrite flat_map_app.
    setup_cases w; reflexivity.
  - unfold sends. rewrite (Hp eq_refl).
    replace (flat_map _ (setup_trace w))
      with [(socket_result w,
             echo_request (host_order w) (pid w) (expected_seq (session_of w)))]
      by (setup_cases w; reflexivity).
    destruct (outcome (recv_loop (session_of w) (arrivals w)))
      as [[t ttl] | why | t ttl | site' code' | off |]; try reflexivity.
    destruct site'; reflexivity.
Qed.

(** X7.  The request is sent at most once.  Whatever the loop receives and
    however long it runs, the only packet handed to [sendto] in a run is
    the 64-byte echo request, on the descriptor [socket] gave, and it is
    sent exactly when the arguments were accepted, the host resolved, the
    socket created and connected; nothing is retransmitted. *)
Theorem request_sent_at_most_once (w : world) :
  sends (trace (main w))
  = (if connected w
     then [(socket_result w,
            echo_request (host_order w) (pid w) (expected_seq (session_of w)))]
     else [])
  /\ List.length
       (echo_request (host_order w) (pid w) (expected_seq (session_of w)))
     = 64%nat.
Proof.
  split; [apply main_sends | apply length_echo_request].
Qed.

(** ** The standard error *)

(** X8.  The standard error is silent exactly on success and on a
    timeout.  The warnings of [setsockopt] apart, a run that returns has
    called [fprintf] on the standard error once before every [return] that
    reports a failure other than a timeout (twice before the one for
    [socket]: the error and the note on privileges), and not at all before
    a timeout or success.  So no error line is written exactly for the exit
    codes 0 and 7. *)
Theorem stderr_silent_on_success_and_timeout (w : world) (site : exit_site)
  (code : Z) :
  outcome (main w) = Return site code ->
  complaints (trace (main w)) = error_lines site
  /\ (complaints (trace (main w)) = 0%nat <-> code = 0 \/ code = 7).
Proof.
  intros Ho.
  assert (Hm : complaints (trace (main w)) = error_lines site).
  { pose proof (main_stages w) as H.
    pose proof (probing_collect _ w blind_complaints) as Hp.
    pose proof (probing_outcome w) as Hpo.
    destruct (stage_of w).
    - destruct H as (site' & code' & msg & Ha & Ho' & ->).
      destruct (argument_exit_message w _ _ _ Ha) as ((Hmsg & Hlines) & _).
      rewrite Ho' in Ho. injection Ho as <- <-. rewrite Hlines.
      unfold complaints. cbn [flat_map app]. rewrite Hmsg. reflexivity.
    - destruct H as [Ho' ->]. rewrite Ho' in Ho. injection Ho as <- <-.
      reflexivity.
    - destruct H as [Ho' ->]. rewrite Ho' in Ho. injection Ho as <- <-.
      reflexivity.
    - destruct H as [Ho' ->]. rewrite Ho' in Ho. injection Ho as <- <-.
      reflexivity.
    - destruct H as [Ho' ->]. rewrite Ho' in Ho. injection Ho as <- <-.
      unfold complaints. rewrite flat_map_app, length_app.
      setup_cases w; reflexivity.
    - unfold complaints. rewrite (Hp eq_refl), length_app.
      replace (List.length (flat_map _ (setup_trace w))) with 0%nat
        by (setup_cases w; reflexivity).
      rewrite (Hpo eq_refl) in Ho.
      pose proof (looped_exit _ _ _ _
                    (recv_loop_looped (session_of w) (arrivals w))) as Hexit.
      destruct (outcome (recv_loop (session_of w) (arrivals w)))
        as [[t ttl] | why | t ttl | site' code' | off |]; try discriminate Ho.
      + injection Ho as <- <-. reflexivity.
      + injection Ho as <- <-. cbn in Hexit.
        repeat match goal with
          | H : _ \/ _ |- _ => destruct H
          | H : (_, _) = (_, _) |- _ => injection H as <- <-
          | H : False |- _ => contradiction
          end; reflexivity. }
  split; [exact Hm|]. rewrite Hm.
  apply main_exit_code in Ho. subst code.
  destruct site; cbn; split; intros H; try discriminate H; try lia; auto.
Qed.

Lemma stderr_silent_on_success_and_timeout_witness :
  (complaints (trace (main Example.unresolved)) = 1%nat
   /\ (complaints (trace (main Example.unresolved)) = 0%nat
       <-> 3 = 0 \/ 3 = 7))
  /\ (complaints (trace (main Example.silent)) = 0%nat
      /\ (complaints (trace (main Example.silent)) = 0%nat
          <-> 7 = 0 \/ 7 = 7)).
Proof.
  split.
  - apply (stderr_silent_on_success_and_timeout Example.unresolved
             AtResolve 3).
    reflexivity.
  - apply (stderr_silent_on_success_and_timeout Example.silent
             AtSelectTimeout 7).
    reflexivity.
Defined.

(** ** The options of the socket *)

Lemma essential_app (a b : list event) :
  essential (a ++ b) = essential a ++ essential b.
Proof. apply filter_app. Qed.

Lemma essential_setup_trace (w : world) :
  essential (setup_trace w)
  = [Getaddrinfo (getaddrinfo_status w); Socket (socket_result w);
     Connect (socket_result w); Gettimeofday (start_time w);
     Sendto (socket_result w)
       (echo_request (host_order w) (pid w) (expected_seq (session_of w)))].
Proof. setup_cases w; reflexivity. Qed.

(** X9.  The two [setsockopt] calls are advisory.  Whatever they answer,
    and whether the filter is compiled in or not, the run ends the same way
    and, the [setsockopt] calls and their warnings apart, makes the same
    calls with the same arguments in the same order. *)
Theorem setsockopt_answers_are_advisory (w : world) (rcvbuf : Z)
  (filter : option Z) :
  outcome (main (with_sockopts w rcvbuf filter)) = outcome (main w)
  /\ essential (trace (main (with_sockopts w rcvbuf filter)))
     = essential (trace (main w)).
Proof.
  pose proof (main_stages w) as H.
  pose proof (main_stages (with_sockopts w rcvbuf filter)) as H'.
  change (stage_of (with_sockopts w rcvbuf filter)) with (stage_of w) in H'.
  destruct (stage_of w).
  - destruct H as (site & code & msg & Ha & -> & ->).
    destruct H' as (site' & code' & msg' & Ha' & -> & ->).
    change (argument_exit (with_sockopts w rcvbuf filter))
      with (argument_exit w) in Ha'.
    rewrite Ha in Ha'. injection Ha' as <- <- <-. split; reflexivity.
  - destruct H as [-> ->]. destruct H' as [-> ->]. split; reflexivity.
  - destruct H as [-> ->]. destruct H' as [-> ->]. split; reflexivity.
  - destruct H as [-> ->]. destruct H' as [-> ->]. split; reflexivity.
  - destruct H as [-> ->]. destruct H' as [-> ->].
    split; [reflexivity|].
    rewrite !essential_app, !essential_setup_trace. reflexivity.
  - destruct H as [-> ->]. destruct H' as [-> ->].
    split; [reflexivity|].
    rewrite !essential_app, !essential_setup_trace. reflexivity.
Qed.

(** ** Success *)





(** ** The arguments *)

(** X11.  The arguments are settled before anything else is done.  With
    fewer than 3 or more than 4 of them the run exits with 1, with a
    timeout or a sequence number that is refused with 2, in both cases
    after one line on the standard error and without a single call to the
    system.  Otherwise the timeout is between 1 and 60000 ms, the sequence
    number is the one given (from 0 to 65535: the cast to 16 bits changes
    nothing) or 1 when none is given, and the first thing the run does is
    resolve the host. *)
Theorem arguments_settled_before_any_call (w : world) :
  if args_ok w
  then 1 <= value (timeout_arg w) <= 60000
       /\ 0 <= expected_seq (session_of w) <= 65535
       /\ (argc w = 3 -> expected_seq (session_of w) = 1)
       /\ (argc w = 4 -> expected_seq (session_of w) = value (seq_arg w))
       /\ exists rest,
           trace (main w) = Getaddrinfo (getaddrinfo_status w) :: rest
  else exists site code msg,
      outcome (main w) = Return site code
      /\ trace (main w) = [Stderr msg]
      /\ (code = 1 \/ code = 2)
      /\ (code = 1 <-> argc w < 3 \/ 4 < argc w).
Proof.
  pose proof (main_stages w) as H. pose proof (stage_conditions w) as Hc.
  destruct (args_ok w) eqn:Hok.
  - split; [unfold args_ok in Hok; lia|].
    split; [pose proof (expected_seq_range w); lia|].
    split; [| split].
    + intros Hargc. unfold session_of. cbn [expected_seq].
      replace (argc w =? 4) with false by lia. reflexivity.
    + intros Hargc. unfold session_of. cbn [expected_seq].
      replace (argc w =? 4) with true by lia.
      apply Z.mod_small. unfold args_ok in Hok.
      replace (argc w =? 4) with true in Hok by lia. lia.
    + destruct (stage_of w).
      * congruence.
      * destruct H as [_ ->]. eexists. reflexivity.
      * destruct H as [_ ->]. eexists. reflexivity.
      * destruct H as [_ ->]. eexists. reflexivity.
      * destruct H as [_ ->]. eexists. reflexivity.
      * destruct H as [_ ->]. eexists. reflexivity.
  - destruct (stage_of w) eqn:Hst.
    2-5: destruct Hc as [Hc _]; congruence.
    2: unfold setup_ok in Hc; rewrite Hok in Hc; discriminate Hc.
    destruct H as (site & code & msg & Ha & Ho & Ht).
    destruct (argument_exit_message w _ _ _ Ha) as (_ & _ & Hcode & Hone).
    exists site, code, msg. repeat split; try assumption; apply Hone.
Qed.

(** ** The loop, one answer after another *)

Lemma recv_loop_more (s : session)
  (its more : list iteration) :
  (match outcome (recv_loop s its) with
   | Pending =>
       outcome (recv_loop s (its ++ more)) = outcome (recv_loop s more)
       /\ trace (recv_loop s (its ++ more))
          = trace (recv_loop s its) ++ trace (recv_loop s more)
   | _ => recv_loop s (its ++ more) = recv_loop s its
   end)
  /\ (outcome (recv_loop s its) = Pending
      <-> Forall (fun it => exists why, outcome (loop_body s it) = Continue why)
            its).
Proof.
  induction its as [|it rest [IH1 IH2]].
  - cbn [recv_loop app outcome trace fst snd].
    split; [split; reflexivity|]. split; [constructor | reflexivity].
  - destruct (stepped_outcome _ _ _ _ (loop_body_stepped s it))
      as [(why & E) | [(t & ttl & E) | (site & code & E)]].
    + destruct (recv_loop_continue s it rest why E) as [Eo Et].
      destruct (recv_loop_continue s it (rest ++ more) why E) as [Eo' Et'].
      rewrite Eo. split.
      * destruct (outcome (recv_loop s rest)) eqn:Er;
          try (apply prog_eq; cbn [app];
               [rewrite Eo', IH1; congruence
               | rewrite Et', Et, IH1; reflexivity]).
        destruct IH1 as [IHo IHt]. cbn [app].
        rewrite Eo', Et', Et, IHo, IHt, app_assoc. split; reflexivity.
      * rewrite IH2. split.
        -- intros Hf. constructor; [eauto | exact Hf].
        -- intros Hf. inversion Hf. assumption.
    + destruct (recv_loop_break s it rest t ttl E) as [Eo Et].
      destruct (recv_loop_break s it (rest ++ more) t ttl E) as [Eo' Et'].
      rewrite Eo. split.
      * apply prog_eq; cbn [app]; congruence.
      * split; [discriminate|]. intros Hf. inversion Hf as [|x l (why & Ew) Hl].
        congruence.
    + destruct (recv_loop_return s it rest site code E) as [Eo Et].
      destruct (recv_loop_return s it (rest ++ more) site code E) as [Eo' Et'].
      rewrite Eo. split.
      * apply prog_eq; cbn [app]; congruence.
      * split; [discriminate|]. intros Hf. inversion Hf as [|x l (why & Ew) Hl].
        congruence.
Qed.

(** X12.  The loop decides at the first answer that is not skipped.  Once
    it has ended, with a match or with a [return], nothing that arrives
    later changes how it ended or what it did; as long as it has not, it
    goes on with what arrives next, and the calls it made so far stay as
    they are.  It is still waiting exactly when every answer so far was a
    [continue]. *)
Theorem loop_decides_at_first_answer_not_skipped (s : session)
  (its more : list iteration) :
  (match outcome (recv_loop s its) with
   | Pending =>
       outcome (recv_loop s (its ++ more)) = outcome (recv_loop s more)
       /\ trace (recv_loop s (its ++ more))
          = trace (recv_loop s its) ++ trace (recv_loop s more)
   | _ => recv_loop s (its ++ more) = recv_loop s its
   end)
  /\ (outcome (recv_loop s its) = Pending
      <-> Forall (fun it => exists why, outcome (loop_body s it) = Continue why)
            its).
Proof.
  exact (recv_loop_more s its more).
Qed.

(** * The earlier helper *)

Lemma legacy_clamp_id (r : timeval) :
  expired r = false -> 0 <= tv_usec r -> Legacy.clamp r = r.
Proof.
  unfold expired, Legacy.clamp. intros He Hu.
  destruct (tv_sec r <? 0) eqn:Hs; [cbn in He; discriminate He|].
  destruct (tv_usec r <? 0) eqn:Hn; [lia | reflexivity].
Qed.

Lemma legacy_wait_and_receive (s : session) (it : iteration) :
  timeval_ok (deadline s) -> timeval_ok (now it) ->
  (expired (time_remaining (deadline s) (now it)) = false ->
   Legacy.clamp (time_remaining (deadline s) (now it))
   = time_remaining (deadline s) (now it))
  /\ Legacy.wait_and_receive s it = wait_and_receive s it.
Proof.
  intros Hd Hn.
  assert (Hc : expired (time_remaining (deadline s) (now it)) = false ->
               Legacy.clamp (time_remaining (deadline s) (now it))
               = time_remaining (deadline s) (now it)).
  { intros He. apply legacy_clamp_id; [exact He|].
    destruct (time_remaining_usec _ _ Hd Hn) as [_ Hok].
    unfold timeval_ok in Hok. lia. }
  split; [exact Hc|].
  unfold Legacy.wait_and_receive, wait_and_receive.
  cbn [bind gettimeofday].
  destruct (expired (time_remaining (deadline s) (now it))) eqn:He.
  - reflexivity.
  - rewrite (Hc eq_refl). reflexivity.
Qed.

(** X13.  The guard of lines 151-158 against a negative remaining time
    never changes anything.  After the test for a passed deadline the
    seconds of the remaining time cannot be negative, and with normalised
    times (microseconds from 0 to 999999, as [gettimeofday] gives them and
    as the deadline is computed) the microseconds cannot be either: the
    earlier helper waits exactly as the helper above does, which has no
    such guard. *)
Theorem legacy_guard_on_remaining_time_is_idle (s : session) (it : iteration) :
  timeval_ok (deadline s) -> timeval_ok (now it) ->
  (expired (time_remaining (deadline s) (now it)) = false ->
   Legacy.clamp (time_remaining (deadline s) (now it))
   = time_remaining (deadline s) (now it))
  /\ Legacy.wait_and_receive s it = wait_and_receive s it.
Proof.
  intros Hd Hn. exact (legacy_wait_and_receive s it Hd Hn).
Qed.

Lemma legacy_guard_on_remaining_time_is_idle_witness :
  Legacy.wait_and_receive (session_of Example.silent) Example.foreign
  = wait_and_receive (session_of Example.silent) Example.foreign.
Proof.
  apply (legacy_guard_on_remaining_time_is_idle
           (session_of Example.silent) Example.foreign);
    unfold timeval_ok; cbn; lia.
Defined.

Lemma legacy_locate_icmp (d : list byte) :
  d <> [] ->
  Legacy.locate_icmp (Z.of_nat (List.length d)) d
  = if (header_length_of d <? 20) || (60 <? header_length_of d)
    then (Continue SkipIpHeaderLen, [Load 0])
    else if Z.of_nat (List.length d) <? header_length_of d + 8
         then (Continue SkipShortIcmp, [Load 0])
         else (Next (header_length_of d), [Load 0]).
Proof.
  intros Hne.
  assert (Hlen : 0 < Z.of_nat (List.length d))
    by (destruct d; [contradiction | cbn [List.length]; lia]).
  unfold Legacy.locate_icmp, ICMP_HEADER_SIZE.
  rewrite load8_ok by lia. cbn [bind]. rewrite header_length_code.
  unfold when.
  destruct ((header_length_of d <? 20) || (60 <? header_length_of d));
    [reflexivity|].
  destruct (Z.of_nat (List.length d) <? header_length_of d + 8); reflexivity.
Qed.

Lemma legacy_match_reply (s : session) (d : list byte) (from : Z)
  (et : timeval) :
  20 <= header_length_of d <= 60 ->
  header_length_of d + 8 <= Z.of_nat (List.length d) ->
  Legacy.inspected s d from et
    (outcome (Legacy.match_reply s d (header_length_of d) from et))
    (Load 0 :: trace (Legacy.match_reply s d (header_length_of d) from et)).
Proof.
  intros Hhl Hlen. unfold Legacy.match_reply.
  set (hl := header_length_of d) in *.
  destruct (load16_at_ok (host s) d (hl + 4)) as (wid & Hid & Nid); try lia.
  destruct (load16_at_ok (host s) d (hl + 6)) as (wseq & Hseq & Nseq); try lia.
  run. rewrite load8_ok by lia.
  branch Ht; [apply Legacy.InspectedType; fold hl; lia|].
  rewrite Hid. run. rewrite Nid.
  branch Hi; [apply Legacy.InspectedId; fold hl; lia|].
  rewrite Hseq. run. rewrite Nseq.
  branch Hs; [apply Legacy.InspectedSeq; fold hl; lia|].
  branch Ha; [apply Legacy.InspectedSource; fold hl; lia|].
  apply Legacy.InspectedMatch; fold hl; lia.
Qed.

Lemma legacy_inspect_inspected (s : session) (d : list byte) (from : Z)
  (et : timeval) :
  Legacy.inspected s d from et
    (outcome (Legacy.inspect s (Z.of_nat (List.length d)) d from et))
    (trace (Legacy.inspect s (Z.of_nat (List.length d)) d from et)).
Proof.
  unfold Legacy.inspect.
  destruct (list_eq_dec Byte.byte_eq_dec d []) as [-> | Hne].
  { cbn. constructor. reflexivity. }
  assert (Hlen : 0 < Z.of_nat (List.length d))
    by (destruct d; [contradiction | cbn [List.length]; lia]).
  rewrite (legacy_locate_icmp d Hne).
  destruct ((header_length_of d <? 20) || (60 <? header_length_of d)) eqn:Hhl.
  { run. constructor; [exact Hne | lia]. }
  destruct (Z.of_nat (List.length d) <? header_length_of d + 8) eqn:Hshort.
  { run. apply Legacy.InspectedShortIcmp; lia. }
  run. apply legacy_match_reply; lia.
Qed.

(** ** What the earlier loop reads and accepts *)

(** X14.  The earlier helper looks at the first byte of the buffer
    before any check of the received length: of an empty datagram, and
    only of an empty one, it reads a byte that was not received (offset 0).
    Every other byte it reads lies inside the datagram, since the header
    length it goes by is at least 20 and the length check that follows
    covers the ICMP header.  The helper above checks the length first and
    skips the empty datagram without reading. *)
Theorem legacy_reads_unreceived_byte_of_empty_datagram (s : session)
  (d : list byte) (from : Z) (et : timeval) :
  let recv_len := Z.of_nat (List.length d) in
  let run := Legacy.inspect s recv_len d from et in
  (forall off, outcome run = Fault off <-> d = [] /\ off = 0)
  /\ (forall off, In (Load off) (trace run) -> 0 <= off < recv_len)
  /\ inspect s 0 [] from et = (Continue SkipShortIp, []).
Proof.
  intros recv_len run.
  pose proof (legacy_inspect_inspected s d from et) as H.
  fold recv_len in H. fold run in H.
  split; [| split; [| reflexivity]].
  - intros off. split.
    + intros E. rewrite E in H. inversion H. split; [assumption | reflexivity].
    + intros [-> ->]. reflexivity.
  - intros off Hin.
    destruct H; cbn [In] in Hin;
      repeat match goal with
        | H : _ \/ _ |- _ => destruct H
        | H : Load _ = Load _ |- _ => injection H as <-
        | H : _ = Load _ |- _ => discriminate H
        | H : False |- _ => contradiction
        end;
      try (destruct d; [contradiction | cbn [List.length] in *; lia]);
      unfold recv_len; lia.
Qed.

(** X15.  The helper above accepts a datagram exactly when the earlier
    helper accepts it and, in addition, the datagram says version 4 and
    protocol 1 in its IP header and code 0 in its ICMP header: the checks
    added to the loop only ever turn a match into a [continue].  Both then
    take the same end time; the helper above also takes the TTL, the byte
    at offset 8. *)
Theorem native_loop_accepts_less (s : session) (d : list byte) (from : Z)
  (et : timeval) :
  let recv_len := Z.of_nat (List.length d) in
  outcome (inspect s recv_len d from et) = Break et (byte_at d 8)
  <-> outcome (Legacy.inspect s recv_len d from et) = Next et
      /\ byte_at d 0 / 16 = 4
      /\ byte_at d 9 = 1
      /\ byte_at d (header_length_of d + 1) = 0.
Proof.
  intros recv_len.
  pose proof (legacy_inspect_inspected s d from et) as Hleg.
  fold recv_len in Hleg.
  destruct (inspect_paths s d from et)
    as [(why & Hl & Ho) | (evs & Hl & Hc & Ht)];
    fold recv_len in Hl |- *.
  - fold recv_len in Ho. rewrite Ho. split; [discriminate|].
    intros (E & Hv & Hp & Hcode). exfalso.
    rewrite E in Hleg.
    inversion Hleg as [ | | | | | | | Hhl Hlen Htype Hid Hseq Hfrom E1 E2].
    inversion Hl; lia.
  - fold recv_len in Hc.
    inversion Hl as [ | | | | | Hlen20 Hhl Hv Hp Hlen E1 E2].
    split.
    + intros E. rewrite E in Hc.
      inversion Hc as [ | | | | | Htype Hcode Hid Hseq Hfrom E3 E4].
      split; [| repeat split; assumption].
      destruct Hleg; try reflexivity; try contradiction; try lia;
        subst d; cbn in Hlen; lia.
    + intros (E & _ & _ & Hcode). rewrite E in Hleg.
      inversion Hleg as [ | | | | | | | Hhl' Hlen' Htype Hid Hseq Hfrom E1' E2'].
      destruct Hc; try reflexivity; try contradiction.
Qed.

(** ** The two loops side by side *)

Lemma calls_app (a b : list event) : calls (a ++ b) = calls a ++ calls b.
Proof. apply filter_app. Qed.

Lemma legacy_inspected_calls (s : session) (d : list byte) (from : Z)
  (et : timeval) (f : flow timeval) (evs : list event) :
  Legacy.inspected s d from et f evs ->
  calls evs = match f with Next _ => [Gettimeofday et] | _ => [] end.
Proof. intros H. destruct H; reflexivity. Qed.

Lemma inspect_calls (s : session) (d : list byte) (from : Z) (et : timeval) :
  calls (trace (inspect s (Z.of_nat (List.length d)) d from et))
  = match outcome (inspect s (Z.of_nat (List.length d)) d from et) with
    | Break _ _ => [Gettimeofday et]
    | _ => []
    end.
Proof.
  destruct (inspect_paths s d from et)
    as [(why & Hl & Ho) | (evs & Hl & Hc & Ht)].
  - rewrite Ho. inversion Hl; reflexivity.
  - rewrite Ht. destruct Hc; reflexivity.
Qed.

(** On a datagram that says IPv4, ICMP and code 0 the two inspections
    decide alike. *)
Lemma inspections_agree (s : session) (d : list byte) (from : Z)
  (et : timeval) :
  plain_icmp d ->
  same_step (outcome (Legacy.inspect s (Z.of_nat (List.length d)) d from et))
    (outcome (inspect s (Z.of_nat (List.length d)) d from et)).
Proof.
  intros (Hne & Hv & Hp & Hcode).
  pose proof (legacy_inspect_inspected s d from et) as Hleg.
  destruct (inspect_paths s d from et)
    as [(why & Hl & Ho) | (evs & Hl & Hc & Ht)].
  - rewrite Ho.
    destruct Hleg; try exact I; try contradiction;
      exfalso; inversion Hl; lia.
  - inversion Hl as [ | | | | | Hlen20 Hhl Hv' Hp' Hlen E1 E2].
    destruct Hc; destruct Hleg; cbn [same_step];
      try exact I; try reflexivity; try contradiction; try lia.
Qed.

Lemma bodies_agree (s : session) (it : iteration) :
  timeval_ok (deadline s) -> plain_iteration it ->
  same_step (outcome (Legacy.loop_body s it)) (outcome (loop_body s it))
  /\ calls (trace (Legacy.loop_body s it)) = calls (trace (loop_body s it)).
Proof.
  intros Hd [Hn Hplain].
  destruct (legacy_wait_and_receive s it Hd Hn) as [_ Hw].
  unfold Legacy.loop_body, loop_body. rewrite Hw. run.
  pose proof (wait_and_receive_waited s it) as Hwait.
  destruct Hwait as [ | | | | d Hexp Hsel Hrecv]; cbn [fst snd same_step];
    try (split; [split; reflexivity | reflexivity]).
  specialize (Hplain d Hrecv).
  split; [apply inspections_agree, Hplain|].
  rewrite !calls_app. f_equal.
  rewrite inspect_calls.
  rewrite (legacy_inspected_calls _ _ _ _ _ _
             (legacy_inspect_inspected s d (recv_addr it) (end_time it))).
  pose proof (inspections_agree s d (recv_addr it) (end_time it) Hplain) as Ha.
  destruct (outcome (Legacy.inspect _ _ _ _ _));
    destruct (outcome (inspect _ _ _ _ _)); cbn [same_step] in Ha;
    try contradiction; reflexivity.
Qed.

Lemma legacy_recv_loop_cons (s : session) (it : iteration)
  (rest : list iteration) :
  match outcome (Legacy.loop_body s it) with
  | Continue _ =>
      outcome (Legacy.recv_loop s (it :: rest))
      = outcome (Legacy.recv_loop s rest)
      /\ trace (Legacy.recv_loop s (it :: rest))
         = trace (Legacy.loop_body s it) ++ trace (Legacy.recv_loop s rest)
  | f =>
      outcome (Legacy.recv_loop s (it :: rest)) = f
      /\ trace (Legacy.recv_loop s (it :: rest)) = trace (Legacy.loop_body s it)
  end.
Proof.
  cbn [Legacy.recv_loop].
  destruct (Legacy.loop_body s it) as [[t | why | t ttl | site code | off |] evs];
    cbn [outcome trace fst snd]; try (split; reflexivity).
  destruct (Legacy.recv_loop s rest) as [f' evs']. split; reflexivity.
Qed.

Lemma loops_agree (s : session)
  (its : list iteration) :
  timeval_ok (deadline s) ->
  Forall plain_iteration its ->
  outcome (Legacy.recv_loop s its) = without_ttl (outcome (recv_loop s its))
  /\ calls (trace (Legacy.recv_loop s its)) = calls (trace (recv_loop s its)).
Proof.
  intros Hd Hits.
  induction Hits as [|it rest Hit Hrest [IHo IHt]].
  - split; reflexivity.
  - destruct (bodies_agree s it Hd Hit) as [Hstep Hcalls].
    pose proof (legacy_recv_loop_cons s it rest) as Hleg.
    destruct (stepped_outcome _ _ _ _ (loop_body_stepped s it))
      as [(why & E) | [(t & ttl & E) | (site & code & E)]];
      rewrite E in Hstep;
      destruct (outcome (Legacy.loop_body s it)) eqn:El;
      cbn [same_step] in Hstep; try contradiction;
      destruct Hleg as [Ho Ht]; rewrite Ho, Ht.
    + destruct (recv_loop_continue s it rest why E) as [-> ->].
      rewrite !calls_app, Hcalls, IHt. split; [exact IHo | reflexivity].
    + destruct (recv_loop_break s it rest t ttl E) as [-> ->].
      subst. split; [reflexivity | exact Hcalls].
    + destruct (recv_loop_return s it rest site code E) as [-> ->].
      destruct Hstep as [-> ->]. split; [reflexivity | exact Hcalls].
Qed.

(** X16.  On well-formed traffic the two loops cannot be told apart.
    With a normalised deadline and clock, and every datagram saying
    version 4, protocol 1 and ICMP code 0, the earlier loop ends as the
    loop of the helper above does (the same [return], or a match with the
    same end time, or still waiting after the same answers) and makes the
    same calls to the system with the same arguments in the same order;
    only the bytes of the buffer that are read differ. *)
Theorem loops_agree_on_well_formed_traffic (s : session)
  (its : list iteration) :
  timeval_ok (deadline s) ->
  Forall plain_iteration its ->
  outcome (Legacy.recv_loop s its) = without_ttl (outcome (recv_loop s its))
  /\ calls (trace (Legacy.recv_loop s its)) = calls (trace (recv_loop s its)).
Proof.
  intros Hd Hits. exact (loops_agree s its Hd Hits).
Qed.

Lemma loops_agree_on_well_formed_traffic_witness :
  outcome (Legacy.recv_loop (session_of Example.silent)
             [Example.foreign; Example.answered])
  = without_ttl (outcome (recv_loop (session_of Example.silent)
                            [Example.foreign; Example.answered]))
  /\ calls (trace (Legacy.recv_loop (session_of Example.silent)
                     [Example.foreign; Example.answered]))
     = calls (trace (recv_loop (session_of Example.silent)
                       [Example.foreign; Example.answered])).
Proof.
  apply (loops_agree_on_well_formed_traffic (session_of Example.silent)
           [Example.foreign; Example.answered]).
  - unfold timeval_ok. cbn. lia.
  - repeat apply Forall_cons; try apply Forall_nil;
      (split; [unfold timeval_ok; cbn; lia |]);
      intros d Hd; injection Hd as <-;
      (split; [discriminate | repeat split; reflexivity]).
Defined.

(** ** The two helpers side by side *)

Lemma sends_calls (tr : list event) : sends (calls tr) = sends tr.
Proof.
  unfold sends, calls.
  induction tr as [|ev tr IH]; [reflexivity|].
  destruct ev; cbn [filter flat_map app]; rewrite ?IH; reflexivity.
Qed.

Lemma sends_app (a b : list event) : sends (a ++ b) = sends a ++ sends b.
Proof. apply flat_map_app. Qed.

Lemma recv_loop_sends (s : session) (its : list iteration) :
  sends (trace (recv_loop s its)) = [].
Proof.
  pose proof (looped_collect _ _ _ _ _ blind_sends (recv_loop_looped s its))
    as H.
  unfold sends. rewrite H.
  destruct (outcome (recv_loop s its)) as [a | why | t ttl | site code | off |];
    try reflexivity.
  destruct site; reflexivity.
Qed.

Lemma legacy_echo_request (e : endian) (pid : Z) :
  Legacy.echo_request e pid = echo_request e pid 1.
Proof.
  unfold Legacy.echo_request, echo_request, echo_request_fields.
  reflexivity.
Qed.

(** The setup of the earlier helper on arguments the helper above accepts
    without a sequence number. *)
Lemma legacy_setup (w : world) :
  args_ok w = true -> argc w = 3 ->
  Legacy.setup w
  = if negb (getaddrinfo_status w =? 0)
    then (Return AtResolve 3,
          [Getaddrinfo (getaddrinfo_status w);
           Stderr "Error: cannot resolve host"])
    else if socket_result w <? 0
    then (Return AtSocket 4,
          [Getaddrinfo (getaddrinfo_status w); Socket (socket_result w);
           Stderr "Error: cannot create raw socket";
           Stderr "Note: This program requires cap_net_raw capability or root privileges";
           Freeaddrinfo])
    else if sendto_result w <? 0
    then (Return AtSendto 5,
          [Getaddrinfo (getaddrinfo_status w); Socket (socket_result w);
           Gettimeofday (start_time w);
           Sendto (socket_result w)
             (echo_request (host_order w) (pid w)
                (expected_seq (session_of w)));
           Stderr "Error: sendto failed"; Close (socket_result w);
           Freeaddrinfo])
    else (Next (session_of w),
          [Getaddrinfo (getaddrinfo_status w); Socket (socket_result w);
           Gettimeofday (start_time w);
           Sendto (socket_result w)
             (echo_request (host_order w) (pid w)
                (expected_seq (session_of w)))]).
Proof.
  intros Hok Hargc.
  assert (Hseq : expected_seq (session_of w) = 1).
  { unfold session_of. cbn [expected_seq].
    replace (argc w =? 4) with false by lia. reflexivity. }
  assert (Hs : session_of w
               = {| host := host_order w;
                    sockfd := socket_result w;
                    deadline :=
                      compute_deadline (start_time w) (value (timeout_arg w));
                    expected_id := wrap16 (Z.land (pid w) 65535);
                    expected_seq := 1;
                    expected_addr := dest_addr w |}).
  { unfold session_of. replace (argc w =? 4) with false by lia. reflexivity. }
  rewrite Hseq, Hs.
  unfold Legacy.setup, getaddrinfo, socket, sendto, when.
  rewrite legacy_echo_request.
  replace (negb (argc w =? 3)) with false by lia.
  replace (value (timeout_arg w) <=? 0) with false
    by (unfold args_ok in Hok; lia).
  cbn [bind ret emit return_ app].
  destruct (negb (getaddrinfo_status w =? 0)); [reflexivity|].
  cbn [bind ret emit return_ app].
  destruct (socket_result w <? 0); [reflexivity|].
  cbn [bind ret emit return_ app gettimeofday].
  destruct (sendto_result w <? 0); reflexivity.
Qed.

(** X17.  On what both accept the two helpers do the same.  Take
    arguments the helper above accepts without a sequence number, a
    [connect] that succeeds, a normalised clock and well-formed traffic
    (version 4, protocol 1, ICMP code 0).  Then the earlier helper hands
    the same packet to [sendto], once; it ends at the same [return] with
    the same code when the helper above fails or times out; it is still
    waiting when the helper above is; and when the helper above exits with
    0 the earlier loop has ended with the end time from which the printed
    round-trip time is computed. *)
Theorem earlier_helper_agrees_on_accepted_runs (w : world) :
  args_ok w = true -> argc w = 3 -> 0 <= connect_result w ->
  timeval_ok (start_time w) ->
  Forall plain_iteration (arrivals w) ->
  sends (trace (Legacy.probe w)) = sends (trace (main w))
  /\ match outcome (main w) with
     | Return AtSuccess code =>
         code = 0
         /\ exists t ttl,
             outcome (Legacy.probe w) = Next t
             /\ prints (trace (main w))
                = [(rtt_usec_of (start_time w) t, ttl)]
     | Return site code => outcome (Legacy.probe w) = Return site code
     | Pending => outcome (Legacy.probe w) = Pending
     | _ => False
     end.
Proof.
  intros Hok Hargc Hconn Hstart Hplain.
  pose proof (legacy_setup w Hok Hargc) as Hsetup.
  pose proof (main_stages w) as H. pose proof (stage_conditions w) as Hc.
  pose proof (stage_connected w) as Hcon.
  rewrite main_sends, Hcon.
  unfold Legacy.probe. rewrite outcome_bind, trace_bind, Hsetup.
  destruct (stage_of w) eqn:Hst.
  - congruence.
  - destruct H as [-> _]. destruct Hc as [_ Hne].
    replace (negb (getaddrinfo_status w =? 0)) with true by lia.
    split; reflexivity.
  - destruct H as [-> _]. destruct Hc as (_ & Hres & Hsock).
    replace (negb (getaddrinfo_status w =? 0)) with false by lia.
    replace (socket_result w <? 0) with true by lia.
    split; reflexivity.
  - lia.
  - destruct H as [-> _]. destruct Hc as (_ & Hres & Hsock & _ & Hsent).
    replace (negb (getaddrinfo_status w =? 0)) with false by lia.
    replace (socket_result w <? 0) with false by lia.
    replace (sendto_result w <? 0) with true by lia.
    split; reflexivity.
  - assert (Hcond : getaddrinfo_status w = 0 /\ 0 <= socket_result w
                    /\ 0 <= sendto_result w) by (unfold setup_ok in Hc; lia).
    replace (negb (getaddrinfo_status w =? 0)) with false by lia.
    replace (socket_result w <? 0) with false by lia.
    replace (sendto_result w <? 0) with false by lia.
    cbn [outcome trace fst snd].
    destruct (deadline_of_session w Hc Hstart) as [_ Hd].
    destruct (loops_agree (session_of w) (arrivals w) Hd Hplain) as [Ho Hcalls].
    split.
    + rewrite sends_app, <- (sends_calls (trace (Legacy.recv_loop _ _))),
        Hcalls, sends_calls, recv_loop_sends.
      reflexivity.
    + rewrite (probing_outcome w Hst), Ho.
      pose proof (probing_collect _ w blind_prints Hst) as Hp.
      pose proof (looped_exit _ _ _ _
                    (recv_loop_looped (session_of w) (arrivals w))) as Hexit.
      destruct (outcome (recv_loop (session_of w) (arrivals w)))
        as [[t ttl] | why | t ttl | site code | off |];
        cbn [without_ttl]; try contradiction; try reflexivity.
      * split; [reflexivity|]. exists t, ttl. split; [reflexivity|].
        unfold prints. rewrite Hp.
        replace (flat_map _ (setup_trace w)) with (@nil (Z * Z))
          by (setup_cases w; reflexivity).
        reflexivity.
      * cbn in Hexit.
        repeat match goal with
          | H : _ \/ _ |- _ => destruct H
          | H : (_, _) = (_, _) |- _ => injection H as <- <-
          | H : False |- _ => contradiction
          end; reflexivity.
Qed.

Lemma earlier_helper_agrees_on_accepted_runs_witness :
  sends (trace (Legacy.probe
                  (Example.world_with 0 [Example.foreign; Example.answered])))
  = sends (trace (main
                    (Example.world_with 0
                       [Example.foreign; Example.answered]))).
Proof.
  refine (proj1 (earlier_helper_agrees_on_accepted_runs
                   (Example.world_with 0 [Example.foreign; Example.answered])
                   _ _ _ _ _)).
  - reflexivity.
  - reflexivity.
  - cbn. lia.
  - unfold timeval_ok. cbn. lia.
  - repeat apply Forall_cons; try apply Forall_nil;
      (split; [unfold timeval_ok; cbn; lia |]);
      intros d Hd; injection Hd as <-;
      (split; [discriminate | repeat split; reflexivity]).
Defined.

(** ** The run as a whole *)

Lemma compared_sessions (s1 s2 : session) (buf : list byte) (hl from : Z)
  (et : timeval) (f : flow unit) (evs : list event) :
  same_expectations s1 s2 ->
  compared s1 buf hl from et f evs -> compared s2 buf hl from et f evs.
Proof.
  intros (_ & _ & Hid & Hseq & Haddr) Hc.
  destruct Hc; constructor; rewrite <- ?Hid, <- ?Hseq, <- ?Haddr; assumption.
Qed.

Lemma inspect_sessions (s1 s2 : session) (d : list byte) (from : Z)
  (et : timeval) :
  same_expectations s1 s2 ->
  inspect s1 (Z.of_nat (List.length d)) d from et
  = inspect s2 (Z.of_nat (List.length d)) d from et.
Proof.
  intros Hs.
  destruct (inspect_paths s1 d from et)
    as [(why1 & Hl1 & Ho1) | (evs1 & Hl1 & Hc1 & Ht1)];
    destruct (inspect_paths s2 d from et)
      as [(why2 & Hl2 & Ho2) | (evs2 & Hl2 & Hc2 & Ht2)].
  - destruct (located_functional _ _ _ _ _ _ Hl1 Hl2) as [E1 E2].
    apply prog_eq; congruence.
  - destruct (located_functional _ _ _ _ _ _ Hl1 Hl2) as [E1 E2].
    discriminate E1.
  - destruct (located_functional _ _ _ _ _ _ Hl1 Hl2) as [E1 E2].
    discriminate E1.
  - pose proof (compared_sessions _ _ _ _ _ _ _ _ Hs Hc1) as Hc1'.
    destruct (compared_functional _ _ _ _ _ _ _ _ _ Hc1' Hc2) as [E1 E2].
    apply prog_eq; congruence.
Qed.

Lemma wait_and_receive_sessions (s1 s2 : session) (it : iteration) :
  same_expectations s1 s2 -> wait_and_receive s1 it = wait_and_receive s2 it.
Proof.
  intros (Hfd & Hd & _). unfold wait_and_receive, leave.
  rewrite Hfd, Hd. reflexivity.
Qed.

Lemma loop_body_sessions (s1 s2 : session) (it : iteration) :
  same_expectations s1 s2 -> loop_body s1 it = loop_body s2 it.
Proof.
  intros Hs. unfold loop_body. rewrite (wait_and_receive_sessions s1 s2 it Hs).
  pose proof (wait_and_receive_waited s2 it) as Hw.
  destruct (wait_and_receive s2 it) as [f evs].
  cbn [outcome trace fst snd] in Hw.
  destruct Hw; cbn [bind]; try reflexivity.
  cbn [fst snd]. rewrite (inspect_sessions s1 s2 _ _ _ Hs). reflexivity.
Qed.

Lemma recv_loop_sessions (s1 s2 : session) (its : list iteration) :
  same_expectations s1 s2 -> recv_loop s1 its = recv_loop s2 its.
Proof.
  intros Hs. induction its as [|it rest IH]; [reflexivity|].
  cbn [recv_loop]. rewrite (loop_body_sessions s1 s2 it Hs), IH. reflexivity.
Qed.

(** Two worlds that go through the same stages with the same request and
    the same expectations run alike. *)
Lemma main_alike (w w' : world) :
  argument_exit w' = argument_exit w ->
  stage_of w' = stage_of w ->
  getaddrinfo_status w' = getaddrinfo_status w ->
  socket_result w' = socket_result w ->
  setup_trace w' = setup_trace w ->
  start_time w' = start_time w ->
  arrivals w' = arrivals w ->
  same_expectations (session_of w') (session_of w) ->
  main w' = main w.
Proof.
  intros Ha Hst Hres Hsock Hsetup Hstart Hits Hs.
  pose proof (main_stages w) as H. pose proof (main_stages w') as H'.
  rewrite Hst in H'.
  apply prog_eq; destruct (stage_of w).
  1,7: destruct H as (site & code & msg & E & Ho & Ht);
       destruct H' as (site' & code' & msg' & E' & Ho' & Ht');
       rewrite Ha, E in E'; injection E' as <- <- <-; congruence.
  all: destruct H as [Ho Ht]; destruct H' as [Ho' Ht'];
    rewrite ?Ho, ?Ho', ?Ht, ?Ht', ?Hres, ?Hsock, ?Hsetup, ?Hits,
      ?(recv_loop_sessions _ _ (arrivals w) Hs); try reflexivity.
  all: destruct (outcome (recv_loop (session_of w) (arrivals w)))
         as [[t ttl] | why | t ttl | site code | off |];
    cbn [finish outcome trace fst snd]; rewrite ?Hstart, ?Hsock; reflexivity.
Qed.

Lemma setup_trace_request (w w' : world) :
  getaddrinfo_status w' = getaddrinfo_status w ->
  socket_result w' = socket_result w ->
  rcvbuf_result w' = rcvbuf_result w ->
  icmp_filter_result w' = icmp_filter_result w ->
  start_time w' = start_time w ->
  echo_request (host_order w') (pid w') (expected_seq (session_of w'))
  = echo_request (host_order w) (pid w) (expected_seq (session_of w)) ->
  setup_trace w' = setup_trace w.
Proof.
  intros Hres Hsock Hbuf Hfilter Hstart Hreq. unfold setup_trace.
  rewrite Hres, Hsock, Hbuf, Hfilter, Hstart, Hreq. reflexivity.
Qed.

(** X18.  The byte order of the host makes no difference to a run.  On a
    little-endian and on a big-endian host, in the same circumstances, the
    helper sends the same bytes, takes the same decision on every datagram
    and ends the same way after the same calls: [htons] on the way out and
    [ntohs] on the way in make up for the order in which the host lays out
    the 16-bit fields, and the checksum comes out as the same two bytes. *)
Theorem run_is_independent_of_host_byte_order (w : world) (e : endian) :
  main (with_host_order w e) = main w.
Proof.
  apply main_alike; try reflexivity.
  - apply setup_trace_request; try reflexivity.
    cbn [with_host_order host_order pid].
    change (expected_seq (session_of (with_host_order w e)))
      with (expected_seq (session_of w)).
    destruct e, (host_order w); try reflexivity;
      [| symmetry]; apply echo_request_order_independent.
  - repeat split.
Qed.

Lemma echo_request_pid (e : endian) (p q seq : Z) :
  Z.land p 65535 = Z.land q 65535 ->
  echo_request e p seq = echo_request e q seq.
Proof.
  intros H. unfold echo_request, echo_request_fields. rewrite H. reflexivity.
Qed.

(** X19.  Of the process id only the low 16 bits count.  Two processes
    whose ids agree in these bits send the same request and accept the same
    replies: in the same circumstances their runs are the same, so each
    takes a reply to the other for its own. *)
Theorem process_id_counts_modulo_65536 (w : world) (p : Z) :
  Z.land p 65535 = Z.land (pid w) 65535 ->
  main (with_pid w p) = main w.
Proof.
  intros Hp. apply main_alike; try reflexivity.
  - apply setup_trace_request; try reflexivity.
    cbn [with_pid host_order pid].
    change (expected_seq (session_of (with_pid w p)))
      with (expected_seq (session_of w)).
    apply echo_request_pid, Hp.
  - unfold same_expectations, session_of.
    cbn [sockfd deadline expected_id expected_seq expected_addr with_pid
           socket_result start_time timeout_arg pid argc seq_arg dest_addr].
    rewrite Hp. repeat split.
Qed.

Lemma process_id_counts_modulo_65536_witness :
  main (with_pid Example.silent (4660 + 65536)) = main Example.silent.
Proof.
  apply (process_id_counts_modulo_65536 Example.silent (4660 + 65536)).
  reflexivity.
Defined.

(** ** The order of the calls *)

Lemma receives_when_ready_weaken (ready : bool) (tr : list event) :
  receives_when_ready false tr -> receives_when_ready ready tr.
Proof.
  destruct tr as [|ev tr]; [trivial|].
  destruct ev; cbn [receives_when_ready]; try trivial.
  intros [H _]. discriminate H.
Qed.

Lemma receives_when_ready_app (ready : bool) (a b : list event) :
  receives_when_ready ready a -> receives_when_ready false b ->
  receives_when_ready ready (a ++ b).
Proof.
  revert ready. induction a as [|ev a IH]; intros ready Ha Hb.
  - apply receives_when_ready_weaken, Hb.
  - destruct ev; cbn [app receives_when_ready] in *;
      try (apply IH; assumption).
    destruct Ha as [Hr Ha]. split; [exact Hr | apply IH; assumption].
Qed.

Lemma stepped_receives (s : session) (it : iteration) (f : flow unit)
  (evs : list event) :
  stepped s it f evs -> receives_when_ready false evs.
Proof.
  intros Hs.
  destruct Hs as [site code evs Hw | d why evs1 evs2 Hw Hl
                 | d f evs1 evs2 evs3 Hw Hl Hc].
  - inversion Hw; subst; cbn [receives_when_ready]; repeat split; lia.
  - inversion Hw; subst. inversion Hl; subst;
      cbn [app receives_when_ready]; repeat split; lia.
  - inversion Hw; subst. inversion Hl; subst.
    destruct Hc; cbn [app receives_when_ready]; repeat split; lia.
Qed.

Lemma looped_receives (s : session) (its : list iteration)
  (f : flow (timeval * Z)) (evs : list event) :
  looped s its f evs -> receives_when_ready false evs.
Proof.
  induction 1 as [| it rest why evs f evs' Hs Hl IH | it rest t ttl evs Hs
                  | it rest site code evs Hs].
  - exact I.
  - apply receives_when_ready_app; [apply (stepped_receives _ _ _ _ Hs) | exact IH].
  - apply (stepped_receives _ _ _ _ Hs).
  - apply (stepped_receives _ _ _ _ Hs).
Qed.

(** X20.  [recvfrom] is called only when there is something to receive.
    In every run, however it ends and however long it lasts, each call of
    [recvfrom] comes directly after a [select] on the socket that returned
    a positive number: the helper never sits in [recvfrom] waiting, so the
    deadline, which only [select] enforces, cannot be overrun there. *)
Theorem recvfrom_only_after_select_reports_data (w : world) :
  receives_when_ready false (trace (main w)).
Proof.
  pose proof (main_stages w) as H.
  destruct (stage_of w).
  - destruct H as (site & code & msg & _ & _ & ->). exact I.
  - destruct H as [_ ->]. cbn. exact I.
  - destruct H as [_ ->]. cbn. exact I.
  - destruct H as [_ ->]. cbn. exact I.
  - destruct H as [_ ->].
    apply receives_when_ready_app; [|cbn; exact I].
    setup_cases w; cbn; exact I.
  - destruct H as [_ ->].
    apply receives_when_ready_app; [setup_cases w; cbn; exact I|].
    apply receives_when_ready_app.
    + apply (looped_receives _ _ _ _
               (recv_loop_looped (session_of w) (arrivals w))).
    + destruct (outcome (recv_loop (session_of w) (arrivals w)))
        as [[t ttl] | why | t ttl | site code | off |]; cbn; exact I.
Qed.

(** ** What the checksum tells apart *)

Lemma residue_eq_iff (s t : Z) :
  0 <= s -> 0 <= t ->
  residue s = residue t
  <-> s = t \/ (s <> 0 /\ t <> 0 /\ exists q, s - t = 65535 * q).
Proof.
  intros Hs Ht. unfold residue.
  destruct (Z.eqb_spec s 0) as [-> | Hs0]; destruct (Z.eqb_spec t 0) as [-> | Ht0].
  - split; [auto | reflexivity].
  - pose proof (Z.mod_pos_bound (t - 1) 65535 ltac:(lia)).
    split; [lia | intros [E | (E & _)]; [lia | contradiction]].
  - pose proof (Z.mod_pos_bound (s - 1) 65535 ltac:(lia)).
    split; [lia | intros [E | (_ & E & _)]; [lia | contradiction]].
  - pose proof (Z.div_mod (s - 1) 65535 ltac:(lia)) as Ds.
    pose proof (Z.div_mod (t - 1) 65535 ltac:(lia)) as Dt.
    split.
    + intros E. right. split; [exact Hs0|]. split; [exact Ht0|].
      exists ((s - 1) / 65535 - (t - 1) / 65535). lia.
    + intros [-> | (_ & _ & q & Hq)]; [reflexivity|].
      f_equal. replace (s - 1) with (t - 1 + q * 65535) by lia.
      apply Z.mod_add. lia.
Qed.

(** X21.  What a change of one 16-bit word does to the checksum.  Replace
    one aligned word of a buffer by another: the checksum changes, except
    when the two words are 0x0000 and 0xFFFF and the rest of the buffer is
    not all zero words; in that one case it stays the same.  So a single
    changed word goes unnoticed only as zero against all-ones. *)
Theorem checksum_tells_a_changed_word (e : endian) (a b : list byte)
  (x0 x1 y0 y1 : byte) :
  Nat.even (List.length a) = true ->
  Z.of_nat (List.length a + 2 + List.length b) <= 131071 ->
  checksum e (a ++ x0 :: x1 :: b) = checksum e (a ++ y0 :: y1 :: b)
  <-> load16 e x0 x1 = load16 e y0 y1
      \/ (words_total e a + words_total e b <> 0
          /\ ((load16 e x0 x1 = 0 /\ load16 e y0 y1 = 65535)
              \/ (load16 e x0 x1 = 65535 /\ load16 e y0 y1 = 0))).
Proof.
  intros Heven Hlen.
  assert (Hl : forall z0 z1,
             Z.of_nat (List.length (a ++ z0 :: z1 :: b)) <= 131071).
  { intros z0 z1. rewrite length_app. cbn [List.length]. lia. }
  destruct (checksum_residue e _ (Hl x0 x1)) as [-> _].
  destruct (checksum_residue e _ (Hl y0 y1)) as [-> _].
  rewrite !words_total_app_even by exact Heven. cbn [words_total].
  pose proof (load16_range e x0 x1) as Hx.
  pose proof (load16_range e y0 y1) as Hy.
  pose proof (words_total_bound e a) as Ha.
  pose proof (words_total_bound e b) as Hb.
  set (v := load16 e x0 x1) in *. set (v' := load16 e y0 y1) in *.
  set (ta := words_total e a) in *. set (tb := words_total e b) in *.
  assert (Hiff : residue (ta + (v + tb)) = residue (ta + (v' + tb))
                 <-> v = v'
                     \/ (ta + tb <> 0
                         /\ ((v = 0 /\ v' = 65535) \/ (v = 65535 /\ v' = 0)))).
  { rewrite residue_eq_iff by lia. split.
    - intros [E | (Hs & Ht & q & Hq)]; [left; lia|].
      assert (q = 0 \/ q = 1 \/ q = -1) as [-> | [-> | ->]] by lia; lia.
    - intros [-> | (Hrest & [[-> ->] | [-> ->]])]; [left; reflexivity | |];
        right; (split; [lia|]); (split; [lia|]);
        [exists (-1) | exists 1]; lia. }
  rewrite <- Hiff. split; intros E; lia.
Qed.

Lemma checksum_tells_a_changed_word_witness :
  checksum LittleEndian ([x08; x00] ++ x00 :: x00 :: [x12; x34])
  = checksum LittleEndian ([x08; x00] ++ xff :: xff :: [x12; x34]).
Proof.
  apply (checksum_tells_a_changed_word LittleEndian [x08; x00] [x12; x34]
           x00 x00 xff xff).
  - reflexivity.
  - cbn. lia.
  - right. split; [vm_compute; discriminate|].
    left. split; reflexivity.
Defined.

(** ** How a run can end *)

Lemma setup_ok_probing (w : world) :
  setup_ok w = true -> stage_of w = Probing.
Proof.
  intros Hok. pose proof (stage_conditions w) as Hc.
  unfold setup_ok in Hok.
  destruct (stage_of w); try reflexivity; lia.
Qed.

(** X22.  A run ends with one of the codes 0 to 8, the code of the
    [return] it reaches, or it is still in the loop; it never ends by a
    read outside a datagram, and no [continue] or [break] escapes the loop.
    It is still in the loop exactly when the request is on its way and
    every answer of the system so far was skipped with [continue]: any
    other answer (a match, a timeout, a failure of [select] or [recvfrom])
    ends it, and so does every failure before the loop. *)
Theorem run_ends_with_a_code_or_waits (w : world) :
  match outcome (main w) with
  | Return site code => code = exit_code site /\ 0 <= code <= 8
  | Pending => True
  | _ => False
  end
  /\ (outcome (main w) = Pending
      <-> setup_ok w = true
          /\ Forall (fun it =>
                       exists why,
                         outcome (loop_body (session_of w) it) = Continue why)
               (arrivals w)).
Proof.
  pose proof (main_stages w) as H. pose proof (stage_conditions w) as Hc.
  pose proof (probing_outcome w) as Hp.
  pose proof (setup_ok_probing w) as Hprobing.
  destruct (stage_of w).
  - destruct H as (site & code & msg & Ha & -> & _).
    destruct (argument_exit_message w _ _ _ Ha) as (_ & Hcode & Hrange & _).
    split; [split; [exact Hcode | lia]|].
    split; [discriminate|]. intros [Hok _].
    discriminate (Hprobing Hok).
  - destruct H as [-> _]. split; [split; [reflexivity | lia]|].
    split; [discriminate|]. intros [Hok _]. discriminate (Hprobing Hok).
  - destruct H as [-> _]. split; [split; [reflexivity | lia]|].
    split; [discriminate|]. intros [Hok _]. discriminate (Hprobing Hok).
  - destruct H as [-> _]. split; [split; [reflexivity | lia]|].
    split; [discriminate|]. intros [Hok _]. discriminate (Hprobing Hok).
  - destruct H as [-> _]. split; [split; [reflexivity | lia]|].
    split; [discriminate|]. intros [Hok _]. discriminate (Hprobing Hok).
  - rewrite (Hp eq_refl).
    pose proof (looped_exit _ _ _ _
                  (recv_loop_looped (session_of w) (arrivals w))) as Hexit.
    destruct (recv_loop_more (session_of w) (arrivals w) []) as [_ Hpending].
    destruct (outcome (recv_loop (session_of w) (arrivals w)))
      as [[t ttl] | why | t ttl | site code | off |]; try contradiction.
    + split; [split; [reflexivity | lia]|].
      split; [discriminate|]. intros [_ Hall].
      apply Hpending in Hall. discriminate Hall.
    + split.
      * cbn in Hexit.
        repeat match goal with
          | H : _ \/ _ |- _ => destruct H
          | H : (_, _) = (_, _) |- _ => injection H as <- <-
          | H : False |- _ => contradiction
          end; (split; [reflexivity | lia]).
      * split; [discriminate|]. intros [_ Hall].
        apply Hpending in Hall. discriminate Hall.
    + split; [exact I|]. split; [| reflexivity].
      intros _. split; [exact Hc | apply Hpending; reflexivity].
Qed.
